(** * Sudoku solver and generator (Fastsolver.cpp): shallow embedding and proofs

    The grid is the C++ [array<array<int,9>,9>], kept as a list of rows of
    integers; the three mask arrays are lists of nine integers whose bits
    0..8 stand for the digits 1..9.  Row, column and block indices are
    array indices and are kept as natural numbers; every cell value, mask
    and counter is a [Z] and the C++ bit operators are the [Z] bit
    operators. *)

From Stdlib Require Import ZArith List Lia Bool Permutation Arith Ascii.
Import ListNotations.
Open Scope Z_scope.

(* ================================================================== *)
(** ** Arrays and the board *)

Definition Board := list (list Z).

(** In-place store [a[i] = x]. *)
Fixpoint upd {A : Type} (l : list A) (i : nat) (x : A) : list A :=
  match l, i with
  | [], _ => []
  | _ :: t, O => x :: t
  | h :: t, S j => h :: upd t j x
  end.

(** [b[r][c]] *)
Definition cell (b : Board) (r c : nat) : Z := nth c (nth r b []) 0.

(** [b[r][c] = v] *)
Definition put (b : Board) (r c : nat) (v : Z) : Board :=
  upd b r (upd (nth r b []) c v).

(** [Board b{}] : all eighty-one cells zero. *)
Definition emptyBoard : Board := repeat (repeat 0 9%nat) 9%nat.

Definition zeroMasks : list Z := repeat 0 9%nat.

(** [static inline int blockIndex(int r, int c) { return (r/3)*3 + (c/3); }] *)
Definition blockIndex (r c : nat) : nat := (r / 3) * 3 + c / 3.

(** The double loop [for r in 0..8, for c in 0..8], in visiting order. *)
Definition allCells : list (nat * nat) :=
  flat_map (fun r => map (pair r) (seq 0 9)) (seq 0 9).

(** [1 << (v-1)] *)
Definition bitOf (v : Z) : Z := Z.shiftl 1 (v - 1).

(** [__builtin_popcount] on a 32-bit word. *)
Fixpoint popcount_pos (p : positive) : Z :=
  match p with
  | xH => 1
  | xO q => popcount_pos q
  | xI q => 1 + popcount_pos q
  end.

Definition popcount (z : Z) : Z :=
  match z mod 2 ^ 32 with
  | Zpos p => popcount_pos p
  | _ => 0
  end.

(** [__builtin_ctz]: index of the lowest set bit (unspecified at 0 in C). *)
Fixpoint ctz_pos (p : positive) : Z :=
  match p with
  | xO q => 1 + ctz_pos q
  | _ => 0
  end.

Definition ctz (z : Z) : Z :=
  match z with
  | Zpos p => ctz_pos p
  | Zneg p => ctz_pos p
  | Z0 => 0
  end.

(** The loop [while (m) { lb = m & -m; digits.push_back(ctz(lb)+1); m -= lb; }].
    [k] bounds the number of iterations; an [int] has at most 32 set bits. *)
Fixpoint maskDigits (k : nat) (m : Z) : option (list Z) :=
  if m =? 0 then Some []
  else match k with
       | O => None
       | S k' =>
           let lb := Z.land m (- m) in
           match maskDigits k' (m - lb) with
           | Some ds => Some ((ctz lb + 1) :: ds)
           | None => None
           end
       end.

(* ================================================================== *)
(** ** The Solver object *)

Record Solver := mkSolver {
  board : Board;
  rowMask : list Z;
  colMask : list Z;
  blockMask : list Z;
  empties : list (nat * nat)
}.

(** [void reset()] : overwrites every member. *)
Definition reset (_ : Solver) : Solver :=
  mkSolver emptyBoard zeroMasks zeroMasks zeroMasks [].

(** [Solver() { reset(); }] *)
Definition newSolver : Solver := mkSolver emptyBoard zeroMasks zeroMasks zeroMasks [].

(** The first double loop of [loadBoard]: the result is [false] at the first
    cell whose bit is already present in one of its three masks, and the
    masks are left as they are at that point. *)
Fixpoint markCells (s : Solver) (cs : list (nat * nat)) : bool * Solver :=
  match cs with
  | [] => (true, s)
  | (r, c) :: cs' =>
      let v := cell (board s) r c in
      if v =? 0 then markCells s cs'
      else
        let bit := bitOf v in
        if negb (Z.land (nth r (rowMask s) 0) bit =? 0) then (false, s)
        else if negb (Z.land (nth c (colMask s) 0) bit =? 0) then (false, s)
        else
          let bi := blockIndex r c in
          if negb (Z.land (nth bi (blockMask s) 0) bit =? 0) then (false, s)
          else
            markCells
              (mkSolver (board s)
                 (upd (rowMask s) r (Z.lor (nth r (rowMask s) 0) bit))
                 (upd (colMask s) c (Z.lor (nth c (colMask s) 0) bit))
                 (upd (blockMask s) bi (Z.lor (nth bi (blockMask s) 0) bit))
                 (empties s))
              cs'
  end.

(** The second double loop of [loadBoard]. *)
Definition collectEmpties (b : Board) : list (nat * nat) :=
  filter (fun rc => cell b (fst rc) (snd rc) =? 0) allCells.

(** [bool loadBoard(const Board &b)] *)
Definition loadBoard (s0 : Solver) (b : Board) : bool * Solver :=
  let s := reset s0 in
  let s := mkSolver b (rowMask s) (colMask s) (blockMask s) (empties s) in
  match markCells s allCells with
  | (false, s') => (false, s')
  | (true, s') =>
      (true, mkSolver (board s') (rowMask s') (colMask s') (blockMask s')
               (empties s' ++ collectEmpties (board s')))
  end.

(** [int candidatesMask(int r, int c) const] *)
Definition candidatesMask (s : Solver) (r c : nat) : Z :=
  let used := Z.lor (Z.lor (nth r (rowMask s) 0) (nth c (colMask s) 0))
                    (nth (blockIndex r c) (blockMask s) 0) in
  Z.land (Z.lnot used) 511.

(** The minimum-remaining-values scan at the head of [dfs].  The state is
    [(bestIdx, bestCount, bestMask)]; [None] is the early [return false]. *)
Fixpoint scanFrom (s : Solver) (es : list (nat * nat)) (i : Z)
    (best : Z * Z * Z) : option (Z * Z * Z) :=
  match es with
  | [] => Some best
  | (r, c) :: es' =>
      if negb (cell (board s) r c =? 0) then scanFrom s es' (i + 1) best
      else
        let mask := candidatesMask s r c in
        if mask =? 0 then None
        else
          let cnt := popcount mask in
          if cnt <? snd (fst best) then
            if cnt =? 1 then Some (i, cnt, mask)
            else scanFrom s es' (i + 1) (i, cnt, mask)
          else scanFrom s es' (i + 1) best
  end.

Definition scan (s : Solver) : option (Z * Z * Z) :=
  scanFrom s (empties s) 0 (-1, 10, 0).

(** The statements between [// place d] and the recursive call. *)
Definition place (s : Solver) (r c : nat) (d : Z) : Solver :=
  let bit := bitOf d in
  let bi := blockIndex r c in
  mkSolver (put (board s) r c d)
    (upd (rowMask s) r (Z.lor (nth r (rowMask s) 0) bit))
    (upd (colMask s) c (Z.lor (nth c (colMask s) 0) bit))
    (upd (blockMask s) bi (Z.lor (nth bi (blockMask s) 0) bit))
    (empties s).

(** The statements after [// undo]. *)
Definition unplace (s : Solver) (r c : nat) (d : Z) : Solver :=
  let bit := bitOf d in
  let bi := blockIndex r c in
  mkSolver (put (board s) r c 0)
    (upd (rowMask s) r (Z.land (nth r (rowMask s) 0) (Z.lnot bit)))
    (upd (colMask s) c (Z.land (nth c (colMask s) 0) (Z.lnot bit)))
    (upd (blockMask s) bi (Z.land (nth bi (blockMask s) 0) (Z.lnot bit)))
    (empties s).

(** The locals of [solve] captured by the lambda: [outCount], and
    [saved]/[savedBoard] as one optional board ([saved] is "is [Some]"). *)
Record Search := mkSearch {
  outCount : Z;
  savedBoard : option Board
}.

(** What a call of [dfs] gives back: the stop flag, the solver, the captured
    locals, and (a ghost component, absent from the C++) the list of solver
    states observed right after each placement and right after each undo. *)
Definition Outcome : Type := bool * Solver * Search * list Solver.

(** The [while (m && outCount < countLimit)] loop of [dfs]; [rec] is the
    recursive call, [k] bounds the iterations as in [maskDigits]. *)
Fixpoint tryDigits (rec : Solver -> Search -> option Outcome) (countLimit : Z)
    (r c : nat) (k : nat) (m : Z) (s : Solver) (q : Search) : option Outcome :=
  if (m =? 0) || negb (outCount q <? countLimit) then Some (false, s, q, [])
  else match k with
       | O => None
       | S k' =>
           let lowbit := Z.land m (- m) in
           let d := ctz lowbit + 1 in
           let m' := m - lowbit in
           let s1 := place s r c d in
           match rec s1 q with
           | None => None
           | Some (stop, s2, q2, log2) =>
               let s3 := unplace s2 r c d in
               if stop then Some (true, s3, q2, s1 :: log2 ++ [s3])
               else
                 match tryDigits rec countLimit r c k' m' s3 q2 with
                 | None => None
                 | Some (res, s4, q4, log4) =>
                     Some (res, s4, q4, s1 :: log2 ++ s3 :: log4)
                 end
           end
       end.

(** The recursive lambda [dfs] of [solve].  [fuel] bounds the nesting depth
    of the calls. *)
Fixpoint dfs (fuel : nat) (countLimit : Z) (s : Solver) (q : Search)
    : option Outcome :=
  match fuel with
  | O => None
  | S fuel' =>
      if outCount q >=? countLimit then Some (true, s, q, [])
      else
        match scan s with
        | None => Some (false, s, q, [])
        | Some (bestIdx, _, bestMask) =>
            if bestIdx =? -1 then
              let q' := mkSearch (outCount q + 1)
                          (match savedBoard q with
                           | None => Some (board s)
                           | Some sb => Some sb
                           end) in
              Some (outCount q' >=? countLimit, s, q', [])
            else
              let rc := nth (Z.to_nat bestIdx) (empties s) (0%nat, 0%nat) in
              tryDigits (dfs fuel' countLimit) countLimit (fst rc) (snd rc)
                32 bestMask s q
        end
  end.

(** Nesting depth of [dfs]: at most one call per cell, and the leaf call. *)
Definition depthBound : nat := 82.

(** [dfs();] as called by [solve], from [outCount = 0], [saved = false]. *)
Definition runDfs (countLimit : Z) (s : Solver) : option Outcome :=
  dfs depthBound countLimit s (mkSearch 0 None).

(** [bool solve(int countLimit, int &outCount)]: the returned flag, the
    value left in [outCount], and the solver afterwards. *)
Definition solve (countLimit : Z) (s : Solver) : option (bool * Z * Solver) :=
  match runDfs countLimit s with
  | None => None
  | Some (_, s', q, _) =>
      let s'' := match savedBoard q with
                 | Some sb => mkSolver sb (rowMask s') (colMask s')
                                (blockMask s') (empties s')
                 | None => s'
                 end in
      Some (outCount q >=? 1, outCount q, s'')
  end.

(** [bool solveOne()] *)
Definition solveOne (s : Solver) : option (bool * Solver) :=
  match solve 1 s with
  | Some (ok, _, s') => Some (ok, s')
  | None => None
  end.

(** [int countSolutions(int limit)] *)
Definition countSolutions (limit : Z) (s : Solver) : option (Z * Solver) :=
  match solve limit s with
  | Some (_, cnt, s') => Some (cnt, s')
  | None => None
  end.

(* ================================================================== *)
(** ** The generator *)

Section Generator.

(** [std::mt19937] and [std::shuffle] are library code: the generator
    state is an abstract type and [shuffle] returns the reordered
    sequence with the advanced generator. *)
Variable Rng : Type.
Variable shuffle : forall A : Type, list A -> Rng -> list A * Rng.

(** The scan of [generateFullSolution]'s [dfs]: as [scanFrom], but the
    dead-end test is made on the population count. *)
Fixpoint genScanFrom (s : Solver) (es : list (nat * nat)) (i : Z)
    (best : Z * Z * Z) : option (Z * Z * Z) :=
  match es with
  | [] => Some best
  | (r, c) :: es' =>
      if negb (cell (board s) r c =? 0) then genScanFrom s es' (i + 1) best
      else
        let mask := candidatesMask s r c in
        let cnt := popcount mask in
        if cnt =? 0 then None
        else if cnt <? snd (fst best) then
          if cnt =? 1 then Some (i, cnt, mask)
          else genScanFrom s es' (i + 1) (i, cnt, mask)
        else genScanFrom s es' (i + 1) best
  end.

Definition genScan (s : Solver) : option (Z * Z * Z) :=
  genScanFrom s (empties s) 0 (-1, 10, 0).

(** The [for (int d : digits)] loop; on success the placement stays. *)
Fixpoint genTry (rec : Solver -> Rng -> option (bool * Solver * Rng))
    (r c : nat) (ds : list Z) (s : Solver) (g : Rng)
    : option (bool * Solver * Rng) :=
  match ds with
  | [] => Some (false, s, g)
  | d :: ds' =>
      match rec (place s r c d) g with
      | None => None
      | Some (true, s2, g2) => Some (true, s2, g2)
      | Some (false, s2, g2) => genTry rec r c ds' (unplace s2 r c d) g2
      end
  end.

(** The recursive lambda of [generateFullSolution]; its locals [b],
    [rowMask], [colMask], [blockMask] and [empties] are kept in a
    [Solver] record. *)
Fixpoint genDfs (fuel : nat) (s : Solver) (g : Rng)
    : option (bool * Solver * Rng) :=
  match fuel with
  | O => None
  | S fuel' =>
      match genScan s with
      | None => Some (false, s, g)
      | Some (bestIdx, _, bestMask) =>
          if bestIdx =? -1 then Some (true, s, g)
          else
            let rc := nth (Z.to_nat bestIdx) (empties s) (0%nat, 0%nat) in
            match maskDigits 32 bestMask with
            | None => None
            | Some digits =>
                let sh := shuffle Z digits g in
                genTry (genDfs fuel') (fst rc) (snd rc) (fst sh) s (snd sh)
            end
      end
  end.

Definition genStart : Solver :=
  mkSolver emptyBoard zeroMasks zeroMasks zeroMasks allCells.

(** [Board generateFullSolution(mt19937 &rng)]; [tries] bounds the chain
    of [if (!ok) return generateFullSolution(rng);]. *)
Fixpoint generateFullSolution (tries : nat) (g : Rng) : option (Board * Rng) :=
  match tries with
  | O => None
  | S n =>
      match genDfs depthBound genStart g with
      | None => None
      | Some (true, s, g') => Some (board s, g')
      | Some (false, _, g') => generateFullSolution n g'
      end
  end.

(** [filled] as recomputed at the head of every iteration. *)
Definition countFilled (b : Board) : Z :=
  Z.of_nat (length (filter (fun rc => negb (cell b (fst rc) (snd rc) =? 0)) allCells)).

Inductive DigStep :=
| DigBreak
| DigNext (solver : Solver) (puzzle : Board).

(** One iteration of [for (auto pos : positions)] in [generatePuzzle]. *)
Definition digStep (targetClues : Z) (solver : Solver) (puzzle : Board)
    (pos : nat * nat) : option DigStep :=
  if countFilled puzzle <=? targetClues then Some DigBreak
  else
    let r := fst pos in
    let c := snd pos in
    if cell puzzle r c =? 0 then Some (DigNext solver puzzle)
    else
      let old := cell puzzle r c in
      let puzzle1 := put puzzle r c 0 in
      match loadBoard solver puzzle1 with
      | (false, solver1) => Some (DigNext solver1 (put puzzle1 r c old))
      | (true, solver1) =>
          match countSolutions 2 solver1 with
          | None => None
          | Some (cnt, solver2) =>
              if negb (cnt =? 1) then Some (DigNext solver2 (put puzzle1 r c old))
              else Some (DigNext solver2 puzzle1)
          end
      end.

Fixpoint digLoop (targetClues : Z) (positions : list (nat * nat))
    (solver : Solver) (puzzle : Board) : option Board :=
  match positions with
  | [] => Some puzzle
  | pos :: rest =>
      match digStep targetClues solver puzzle pos with
      | None => None
      | Some DigBreak => Some puzzle
      | Some (DigNext solver' puzzle') => digLoop targetClues rest solver' puzzle'
      end
  end.

(** [Board generatePuzzle(mt19937 &rng, int targetClues)] *)
Definition generatePuzzle (tries : nat) (g : Rng) (targetClues : Z)
    : option (Board * Rng) :=
  match generateFullSolution tries g with
  | None => None
  | Some (solution, g1) =>
      let sh := shuffle (nat * nat) allCells g1 in
      match digLoop targetClues (fst sh) newSolver solution with
      | None => None
      | Some puzzle => Some (puzzle, snd sh)
      end
  end.

End Generator.

Arguments genDfs {Rng} shuffle fuel s g.
Arguments genTry {Rng} rec r c ds s g.
Arguments generateFullSolution {Rng} shuffle tries g.
Arguments generatePuzzle {Rng} shuffle tries g targetClues.

(** A generator that leaves every sequence in place. *)
Definition idShuffle (A : Type) (l : list A) (g : unit) : list A * unit := (l, g).

(* ================================================================== *)
(** ** The vocabulary of the specification *)

Definition digits19 : list Z := [1; 2; 3; 4; 5; 6; 7; 8; 9].

(** A Board: nine rows of nine values, each 0 (empty) or 1..9. *)
Definition wfRowb (row : list Z) : bool :=
  (length row =? 9)%nat && forallb (fun v => (0 <=? v) && (v <=? 9)) row.

Definition wfBoardb (b : Board) : bool :=
  (length b =? 9)%nat && forallb wfRowb b.

Definition wfBoard (b : Board) : Prop := wfBoardb b = true.

(** The values of a row, of a column, and of a 3x3 block. *)
Definition rowVals (b : Board) (r : nat) : list Z :=
  map (fun c => cell b r c) (seq 0 9).

Definition colVals (b : Board) (c : nat) : list Z :=
  map (fun r => cell b r c) (seq 0 9).

Definition blockCells (k : nat) : list (nat * nat) :=
  flat_map (fun i => map (fun j => ((k / 3) * 3 + i, (k mod 3) * 3 + j)%nat) (seq 0 3))
           (seq 0 3).

Definition blockVals (b : Board) (k : nat) : list Z :=
  map (fun rc => cell b (fst rc) (snd rc)) (blockCells k).

(** The union of the bits [v-1] over the nonzero values [v] of a list. *)
Definition unionBits (vs : list Z) : Z :=
  fold_right (fun v acc => if v =? 0 then acc else Z.lor (bitOf v) acc) 0 vs.

(** The three mask arrays are exactly the unions of what board [b] holds. *)
Definition masksDescribe (b : Board) (rm cm bm : list Z) : Prop :=
  rm = map (fun r => unionBits (rowVals b r)) (seq 0 9) /\
  cm = map (fun c => unionBits (colVals b c)) (seq 0 9) /\
  bm = map (fun k => unionBits (blockVals b k)) (seq 0 9).

Definition masksOK (s : Solver) : Prop :=
  masksDescribe (board s) (rowMask s) (colMask s) (blockMask s).

(** Two cells see each other: same row, same column or same block. *)
Definition peerb (r1 c1 r2 c2 : nat) : bool :=
  (r1 =? r2)%nat || (c1 =? c2)%nat || (blockIndex r1 c1 =? blockIndex r2 c2)%nat.

(** Two different cells with the same nonzero value share a row, a column
    or a block. *)
Definition hasConflict (b : Board) : Prop :=
  exists r1 c1 r2 c2 : nat,
    (r1 < 9)%nat /\ (c1 < 9)%nat /\ (r2 < 9)%nat /\ (c2 < 9)%nat /\
    (r1, c1) <> (r2, c2) /\ peerb r1 c1 r2 c2 = true /\
    cell b r1 c1 <> 0 /\ cell b r1 c1 = cell b r2 c2.

Definition conflictAtb (b : Board) (p q : nat * nat) : bool :=
  negb ((fst p =? fst q)%nat && (snd p =? snd q)%nat) &&
  peerb (fst p) (snd p) (fst q) (snd q) &&
  negb (cell b (fst p) (snd p) =? 0) &&
  (cell b (fst p) (snd p) =? cell b (fst q) (snd q)).

Definition hasConflictb (b : Board) : bool :=
  existsb (fun p => existsb (conflictAtb b p) allCells) allCells.

Definition noConflict (b : Board) : Prop := ~ hasConflict b.

(** No cell is empty. *)
Definition completeb (b : Board) : bool :=
  forallb (fun rc => negb (cell b (fst rc) (snd rc) =? 0)) allCells.

Definition complete (b : Board) : Prop :=
  forall r c : nat, (r < 9)%nat -> (c < 9)%nat -> cell b r c <> 0.

(** [s] keeps every clue of [b]. *)
Definition extendsb (b s : Board) : bool :=
  forallb (fun rc => (cell b (fst rc) (snd rc) =? 0) ||
                     (cell s (fst rc) (snd rc) =? cell b (fst rc) (snd rc))) allCells.

Definition extends (b s : Board) : Prop :=
  forall r c : nat, (r < 9)%nat -> (c < 9)%nat ->
    cell b r c <> 0 -> cell s r c = cell b r c.

(** [s] is a solution of the puzzle [b]. *)
Definition isSolution (b s : Board) : Prop :=
  wfBoard s /\ complete s /\ noConflict s /\ extends b s.

Definition isSolutionb (b s : Board) : bool :=
  wfBoardb s && completeb s && negb (hasConflictb s) && extendsb b s.

(** Every digit 1..9 occurs exactly once in the list. *)
Definition eachOnce (vs : list Z) : Prop :=
  forall d : Z, 1 <= d <= 9 -> count_occ Z.eq_dec vs d = 1%nat.

(** A complete solved Board. *)
Definition solvedBoard (b : Board) : Prop :=
  wfBoard b /\
  forall k : nat, (k < 9)%nat ->
    eachOnce (rowVals b k) /\ eachOnce (colVals b k) /\ eachOnce (blockVals b k).

(** *** The search of the specification, on boards alone

    Section 4.2 of the specification, steps 2 to 4, with candidate sets as
    ascending lists of digits and no masks, count or limit: the list of
    all complete boards in the order in which the search reaches them. *)

Definition peerVals (b : Board) (r c : nat) : list Z :=
  rowVals b r ++ colVals b c ++ blockVals b (blockIndex r c).

(** Digits 1..9 not yet used in the row, the column or the block, ascending. *)
Definition candidateDigits (b : Board) (r c : nat) : list Z :=
  filter (fun d => negb (existsb (Z.eqb d) (peerVals b r c))) digits19.

Inductive Choice :=
| Dead
| Full
| Branch (r c : nat) (ds : list Z).

Definition choiceOf (best : option (nat * nat * list Z)) : Choice :=
  match best with
  | None => Full
  | Some (r, c, ds) => Branch r c ds
  end.

Definition fewer (n : nat) (best : option (nat * nat * list Z)) : bool :=
  match best with
  | None => true
  | Some (_, _, ds) => (n <? length ds)%nat
  end.

(** Step 2: scan the empty-cell list, skip filled cells, stop dead on an
    empty candidate set, remember the first cell with the fewest
    candidates, and stop the scan at a cell with exactly one. *)
Fixpoint specScanFrom (b : Board) (es : list (nat * nat))
    (best : option (nat * nat * list Z)) : Choice :=
  match es with
  | [] => choiceOf best
  | (r, c) :: es' =>
      if negb (cell b r c =? 0) then specScanFrom b es' best
      else
        let ds := candidateDigits b r c in
        match ds with
        | [] => Dead
        | _ :: _ =>
            if fewer (length ds) best then
              if (length ds =? 1)%nat then Branch r c ds
              else specScanFrom b es' (Some (r, c, ds))
            else specScanFrom b es' best
        end
  end.

Definition specScan (b : Board) (es : list (nat * nat)) : Choice :=
  specScanFrom b es None.

(** Steps 3 and 4. *)
Fixpoint specSearch (fuel : nat) (es : list (nat * nat)) (b : Board) : list Board :=
  match fuel with
  | O => []
  | S fuel' =>
      match specScan b es with
      | Dead => []
      | Full => [b]
      | Branch r c ds => flat_map (fun d => specSearch fuel' es (put b r c d)) ds
      end
  end.

(** The boards met by the minimum-candidate, ascending-digit search from
    [b], in order; its head is "the first solution reached". *)
Definition mrvSolutions (b : Board) : list Board :=
  specSearch depthBound (collectEmpties b) b.

(** How the captured locals of [solve] absorb a list of solutions met in
    order, under a limit. *)
Definition absorb (countLimit : Z) (q : Search) (found : list Board) : Search :=
  if outCount q >=? countLimit then q
  else mkSearch (Z.min countLimit (outCount q + Z.of_nat (length found)))
         (match savedBoard q with
          | Some sb => Some sb
          | None => hd_error found
          end).

(* ================================================================== *)
(** ** Text input: [parseBoard] and [difficultyToClues] *)

(** A [std::string], as its sequence of characters. *)
Definition Text := list ascii.

(** [isspace] in the "C" locale: space, and the controls 9..13. *)
Definition isspace (ch : ascii) : bool :=
  let n := nat_of_ascii ch in
  (n =? 32)%nat || ((9 <=? n)%nat && (n <=? 13)%nat).

(** The test [ch == '.' || ch == '0']. *)
Definition isBlankChar (ch : ascii) : bool :=
  (nat_of_ascii ch =? 46)%nat || (nat_of_ascii ch =? 48)%nat.

(** The test [ch >= '1' && ch <= '9']. *)
Definition isDigitChar (ch : ascii) : bool :=
  (49 <=? nat_of_ascii ch)%nat && (nat_of_ascii ch <=? 57)%nat.

(** The loop [for (int i=0;i<81;++i)] of [parseBoard] over the cleaned
    string [t], from index [i]; the result is [false] at the first
    character that is neither a blank mark nor a digit, with the cells
    before it already stored. *)
Fixpoint parseCells (t : Text) (i : nat) (b : Board) : bool * Board :=
  match t with
  | [] => (true, b)
  | ch :: t' =>
      let r := (i / 9)%nat in
      let c := (i mod 9)%nat in
      if isBlankChar ch then parseCells t' (S i) (put b r c 0)
      else if isDigitChar ch then
        parseCells t' (S i) (put b r c (Z.of_nat (nat_of_ascii ch) - 48))
      else (false, b)
  end.

(** [bool parseBoard(const string &s, Board &b)] *)
Definition parseBoard (s : Text) (b : Board) : bool * Board :=
  let t := filter (fun ch => negb (isspace ch)) s in
  if negb (length t =? 81)%nat then (false, b) else parseCells t 0 b.

(** [tolower] in the "C" locale. *)
Definition tolower (ch : ascii) : ascii :=
  let n := nat_of_ascii ch in
  if (65 <=? n)%nat && (n <=? 90)%nat then ascii_of_nat (n + 32) else ch.

Definition textEqb (s t : Text) : bool :=
  if list_eq_dec ascii_dec s t then true else false.

Definition easyText : Text := ["e"; "a"; "s"; "y"]%char.
Definition mediumText : Text := ["m"; "e"; "d"; "i"; "u"; "m"]%char.
Definition hardText : Text := ["h"; "a"; "r"; "d"]%char.

(** [int difficultyToClues(const string &diff)].  [std::stoi] is library
    code: [stoi] gives the converted number, or [None] where the library
    function throws. *)
Definition difficultyToClues (stoi : Text -> option Z) (diff : Text) : Z :=
  let d := map tolower diff in
  if textEqb d easyText then 40
  else if textEqb d mediumText then 34
  else if textEqb d hardText then 28
  else match stoi diff with
       | Some v => if v <? 17 then 17 else if v >? 81 then 81 else v
       | None => 30
       end.

(* ================================================================== *)
(** ** [fillFullBoard] *)

(** The three loops that collect [used] in [backtrack]: the row, the
    column, then the block of the cell. *)
Definition usedScan (b : Board) (r c : nat) : Z :=
  fold_left (fun used v => if v =? 0 then used else Z.lor used (bitOf v))
            (peerVals b r c) 0.

Section FillFullBoard.

Variable Rng : Type.
Variable shuffle : forall A : Type, list A -> Rng -> list A * Rng.

(** The [for (int d : digs)] loop of [backtrack]. *)
Fixpoint fillTry (rec : Board -> Rng -> option (bool * Board * Rng))
    (r c : nat) (ds : list Z) (b : Board) (g : Rng)
    : option (bool * Board * Rng) :=
  match ds with
  | [] => Some (false, b, g)
  | d :: ds' =>
      match rec (put b r c d) g with
      | None => None
      | Some (true, b2, g2) => Some (true, b2, g2)
      | Some (false, b2, g2) => fillTry rec r c ds' (put b2 r c 0) g2
      end
  end.

(** The recursive lambda [backtrack] of [fillFullBoard]; [fuel] bounds the
    nesting depth. *)
Fixpoint backtrack (fuel : nat) (idx : nat) (b : Board) (g : Rng)
    : option (bool * Board * Rng) :=
  match fuel with
  | O => None
  | S fuel' =>
      if (idx =? 81)%nat then Some (true, b, g)
      else
        let rc := nth idx allCells (0%nat, 0%nat) in
        let mask := Z.land (Z.lnot (usedScan b (fst rc) (snd rc))) 511 in
        if mask =? 0 then Some (false, b, g)
        else
          match maskDigits 32 mask with
          | None => None
          | Some digs =>
              let sh := shuffle Z digs g in
              fillTry (backtrack fuel' (S idx)) (fst rc) (snd rc) (fst sh) b (snd sh)
          end
  end.

(** [bool fillFullBoard(Board &b, mt19937 &rng)]: [b = {}] first. *)
Definition fillFullBoard (g : Rng) : option (bool * Board * Rng) :=
  backtrack depthBound 0 emptyBoard g.

End FillFullBoard.

Arguments fillTry {Rng} rec r c ds b g.
Arguments backtrack {Rng} shuffle fuel idx b g.
Arguments fillFullBoard {Rng} shuffle g.

(* ================================================================== *)
(** ** Definitions used in the statements and proofs below *)

Definition pos_eq_dec (p q : nat * nat) : {p = q} + {p <> q}.
Proof. decide equality; apply Nat.eq_dec. Defined.

Definition inBlockb (k : nat) (rc : nat * nat) : bool :=
  existsb (fun p => (fst p =? fst rc)%nat && (snd p =? snd rc)%nat) (blockCells k).

Definition zeros (b : Board) : nat := length (collectEmpties b).

(** What the search relies on: a well-formed board free of conflicts whose
    empty cells all belong to the empty-cell list. *)
Record SInv (es : list (nat * nat)) (b : Board) : Prop := {
  sinv_wf : wfBoard b;
  sinv_ok : noConflict b;
  sinv_zero : forall r c, (r < 9)%nat -> (c < 9)%nat -> cell b r c = 0 -> In (r, c) es;
  sinv_range : forall r c, In (r, c) es -> (r < 9)%nat /\ (c < 9)%nat
}.

Definition goodPick (b : Board) (es : list (nat * nat)) (r c : nat) (ds : list Z) : Prop :=
  In (r, c) es /\ cell b r c = 0 /\ ds = candidateDigits b r c /\ ds <> [].

(** Candidate digits of a 9-bit mask, ascending. *)
Definition ascDigits (m : Z) : list Z :=
  filter (fun d => Z.testbit m (d - 1)) digits19.

Definition masks512 : list Z := map Z.of_nat (seq 0 512).

Definition listZ_eqb (l1 l2 : list Z) : bool :=
  if list_eq_dec Z.eq_dec l1 l2 then true else false.

Definition vals (b : Board) (u : list (nat * nat)) : list Z :=
  map (fun rc => cell b (fst rc) (snd rc)) u.

Definition rowCells (r : nat) : list (nat * nat) := map (pair r) (seq 0 9).
Definition colCells (c : nat) : list (nat * nat) := map (fun r => (r, c)) (seq 0 9).

Record Inv (s : Solver) : Prop := {
  inv_board : SInv (empties s) (board s);
  inv_masks : masksOK s
}.

Definition bestRel (es0 : list (nat * nat)) (best : Z * Z * Z)
    (best' : option (nat * nat * list Z)) : Prop :=
  match best' with
  | None => fst (fst best) = -1 /\ snd (fst best) = 10
  | Some (r, c, ds) =>
      0 <= fst (fst best) /\
      nth (Z.to_nat (fst (fst best))) es0 (0%nat, 0%nat) = (r, c) /\
      ds = ascDigits (snd best) /\
      snd (fst best) = Z.of_nat (length ds) /\
      0 <= snd best < 512
  end.

Definition scanRel (es0 : list (nat * nat)) (res : option (Z * Z * Z))
    (ch : Choice) : Prop :=
  match res, ch with
  | None, Dead => True
  | Some best, Full => fst (fst best) = -1
  | Some best, Branch r c ds =>
      0 <= fst (fst best) /\
      nth (Z.to_nat (fst (fst best))) es0 (0%nat, 0%nat) = (r, c) /\
      ds = ascDigits (snd best) /\
      0 <= snd best < 512
  | _, _ => False
  end.

(** The part of board [b] that the marking loop has visited: the empty
    board with the cells of [seen] copied from [b]. *)
Definition fill (b : Board) (seen : list (nat * nat)) : Board :=
  fold_left (fun acc rc => put acc (fst rc) (snd rc) (cell b (fst rc) (snd rc)))
            seen emptyBoard.

Definition withBoard (s : Solver) (b : Board) : Solver :=
  mkSolver b (rowMask s) (colMask s) (blockMask s) (empties s).

(** The count reported under a limit when [n] solutions exist. *)
Definition capped (limit : Z) (n : nat) : Z :=
  if limit <=? 0 then 0 else Z.min limit (Z.of_nat n).

Definition unitOKb (u : list (nat * nat)) : bool :=
  (length u =? 9)%nat &&
  forallb (fun p => (count_occ pos_eq_dec u p =? 1)%nat) u &&
  forallb (fun p => (fst p <? 9)%nat && (snd p <? 9)%nat) u &&
  forallb (fun p => forallb (fun q => peerb (fst p) (snd p) (fst q) (snd q)) u) u.

(** A solved grid exists. *)
Definition sampleSolution : Board :=
  [[1; 2; 3; 4; 5; 6; 7; 8; 9]; [4; 5; 6; 7; 8; 9; 1; 2; 3];
   [7; 8; 9; 1; 2; 3; 4; 5; 6]; [2; 3; 1; 6; 7; 4; 8; 9; 5];
   [8; 7; 5; 9; 1; 2; 3; 6; 4]; [6; 9; 4; 5; 3; 8; 2; 1; 7];
   [3; 1; 7; 2; 6; 5; 9; 4; 8]; [5; 4; 2; 8; 9; 7; 6; 3; 1];
   [9; 6; 8; 3; 4; 1; 5; 7; 2]].

Definition noSolution (b : Board) : Prop := forall sol, ~ isSolution b sol.

(** What a successful [dfs] of the generator leaves behind. *)
Definition genDone (s0 s : Solver) : Prop :=
  Inv s /\ complete (board s) /\ extends (board s0) (board s).

(** What every intermediate puzzle of the digger satisfies, [sol] being the
    solved board it started from. *)
Record DigInv (sol p : Board) : Prop := {
  dig_wf : wfBoard p;
  dig_ok : noConflict p;
  dig_sub : extends p sol;
  dig_one : length (mrvSolutions p) = 1%nat
}.

(** A thirty-clue puzzle whose only solution is [sampleSolution]. *)
Definition uniquePuzzle : Board :=
  [[0; 0; 0; 0; 0; 0; 0; 0; 0]; [0; 0; 0; 0; 0; 0; 1; 2; 3];
   [0; 0; 0; 1; 2; 3; 4; 5; 6]; [0; 0; 1; 0; 0; 4; 0; 0; 0];
   [0; 7; 0; 0; 0; 0; 0; 6; 0]; [0; 0; 4; 0; 0; 0; 2; 0; 7];
   [0; 1; 0; 0; 0; 5; 0; 0; 8]; [0; 4; 2; 0; 0; 7; 6; 0; 0];
   [0; 6; 8; 3; 0; 1; 5; 7; 2]].

(** [sampleSolution] with the digits 1 and 2 exchanged: a second solved grid. *)
Definition otherSolution : Board :=
  map (map (fun v => if v =? 1 then 2 else if v =? 2 then 1 else v)) sampleSolution.

(** No conflict, but the last cell of row 0 has no candidate left. *)
Definition deadBoard : Board :=
  [[1; 2; 3; 4; 5; 6; 7; 8; 0]; [0; 0; 0; 0; 0; 0; 0; 0; 9];
   [0; 0; 0; 0; 0; 0; 0; 0; 0]; [0; 0; 0; 0; 0; 0; 0; 0; 0];
   [0; 0; 0; 0; 0; 0; 0; 0; 0]; [0; 0; 0; 0; 0; 0; 0; 0; 0];
   [0; 0; 0; 0; 0; 0; 0; 0; 0]; [0; 0; 0; 0; 0; 0; 0; 0; 0];
   [0; 0; 0; 0; 0; 0; 0; 0; 0]].

(** The value 5 twice in row 0, and a third clue between them. *)
Definition rowDupBoard : Board :=
  [[5; 0; 1; 0; 5; 0; 0; 0; 0]; [0; 0; 0; 0; 0; 0; 0; 0; 0];
   [0; 0; 0; 0; 0; 0; 0; 0; 0]; [0; 0; 0; 0; 0; 0; 0; 0; 0];
   [0; 0; 0; 0; 0; 0; 0; 0; 0]; [0; 0; 0; 0; 0; 0; 0; 0; 0];
   [0; 0; 0; 0; 0; 0; 0; 0; 0]; [0; 0; 0; 0; 0; 0; 0; 0; 0];
   [0; 0; 0; 0; 0; 0; 0; 0; 0]].

(** The number of leading characters of [t] that [parseBoard] accepts. *)
Fixpoint leadingOK (t : Text) : nat :=
  match t with
  | [] => O
  | ch :: t' => if isBlankChar ch || isDigitChar ch then S (leadingOK t') else O
  end.

(** The cell value a character stands for. *)
Definition charValue (ch : ascii) : Z :=
  if isBlankChar ch then 0 else Z.of_nat (nat_of_ascii ch) - 48.

(** A board written as text: nine lines of nine characters, '.' for an
    empty cell. *)
Definition boardText (b : Board) : Text :=
  flat_map (fun row =>
              map (fun v => if v =? 0 then "."%char
                            else ascii_of_nat (Z.to_nat v + 48)) row
              ++ ["010"%char]) b.

(** [uniquePuzzle] as text. *)
Definition sampleText : Text := boardText uniquePuzzle.

(** What [backtrack] relies on at index [idx]: the cells before it are
    filled without conflict and the cells from it on are empty. *)
Record FillInv (idx : nat) (b : Board) : Prop := {
  fill_wf : wfBoard b;
  fill_ok : noConflict b;
  fill_done : forall k, (k < idx)%nat -> (k < 81)%nat ->
    cell b (fst (nth k allCells (0%nat, 0%nat))) (snd (nth k allCells (0%nat, 0%nat))) <> 0;
  fill_todo : forall k, (idx <= k)%nat -> (k < 81)%nat ->
    cell b (fst (nth k allCells (0%nat, 0%nat))) (snd (nth k allCells (0%nat, 0%nat))) = 0
}.

(** The shape of [array<array<int,9>,9>]: nine rows of nine integers,
    whatever they hold. *)
Definition gridb (b : Board) : bool :=
  (length b =? 9)%nat && forallb (fun row => (length row =? 9)%nat) b.

Definition grid (b : Board) : Prop := gridb b = true.

(** A board of the right shape holding values that are no cell values, as
    an uninitialised [Board] may. *)
Definition garbageBoard : Board := repeat (repeat (-7) 9%nat) 9%nat.

(* ================================================================== *)
(** ** Arrays: stores and reads *)

Lemma length_upd {A} (l : list A) i x : length (upd l i x) = length l.
Proof.
  revert i; induction l as [|h t IH]; intros [|i]; simpl; auto.
Qed.

Lemma nth_upd_eq {A} (l : list A) i x d :
  (i < length l)%nat -> nth i (upd l i x) d = x.
Proof.
  revert i; induction l as [|h t IH]; intros [|i] H; simpl in *; try lia; auto.
  apply IH; lia.
Qed.

Lemma nth_upd_ne {A} (l : list A) i j x d :
  i <> j -> nth j (upd l i x) d = nth j l d.
Proof.
  revert i j; induction l as [|h t IH]; intros [|i] [|j] H; simpl; auto; try lia.
Qed.

Lemma upd_upd {A} (l : list A) i x y : upd (upd l i x) i y = upd l i y.
Proof.
  revert i; induction l as [|h t IH]; intros [|i]; simpl; auto.
  now rewrite IH.
Qed.

Lemma upd_same {A} (l : list A) i d : upd l i (nth i l d) = l.
Proof.
  revert i; induction l as [|h t IH]; intros [|i]; simpl; auto.
  now rewrite IH.
Qed.

Lemma upd_nth_ext {A} (l l' : list A) i x d :
  length l' = length l -> (i < length l)%nat ->
  nth i l' d = x -> (forall j, j <> i -> nth j l' d = nth j l d) ->
  l' = upd l i x.
Proof.
  intros Hlen Hi Hx Hne.
  apply nth_ext with (d := d) (d' := d).
  - now rewrite length_upd.
  - intros n Hn. destruct (Nat.eq_dec n i) as [->|Hd].
    + now rewrite nth_upd_eq.
    + rewrite nth_upd_ne by auto. now apply Hne.
Qed.

Lemma nth_map_seq9 {A} (f : nat -> A) (k : nat) d :
  (k < 9)%nat -> nth k (map f (seq 0 9)) d = f k.
Proof.
  intro H. do 9 (destruct k as [|k]; [reflexivity|]). lia.
Qed.

Lemma in_seq9 (k : nat) : In k (seq 0 9) <-> (k < 9)%nat.
Proof. rewrite in_seq. lia. Qed.

Lemma in_allCells r c : In (r, c) allCells <-> (r < 9)%nat /\ (c < 9)%nat.
Proof.
  unfold allCells. rewrite in_flat_map. split.
  - intros [x [Hx Hin]]. apply in_map_iff in Hin as [y [Heq Hy]].
    inversion Heq; subst. now rewrite in_seq9 in *.
  - intros [Hr Hc]. exists r. rewrite in_seq9. split; auto.
    apply in_map. now apply in_seq9.
Qed.

Lemma NoDup_allCells : NoDup allCells.
Proof.
  assert (H : forallb (fun p => (count_occ pos_eq_dec allCells p =? 1)%nat) allCells = true)
    by (vm_compute; reflexivity).
  apply (NoDup_count_occ' pos_eq_dec).
  intros x Hx. rewrite forallb_forall in H. specialize (H x Hx).
  now apply Nat.eqb_eq in H.
Qed.

(* ================================================================== *)
(** ** Boards *)

Lemma wfRowb_spec row :
  wfRowb row = true <-> length row = 9%nat /\ Forall (fun v => 0 <= v <= 9) row.
Proof.
  unfold wfRowb. rewrite andb_true_iff, Nat.eqb_eq, forallb_forall, Forall_forall.
  split; intros [H1 H2]; split; auto; intros v Hv; specialize (H2 v Hv); lia.
Qed.

Lemma wfBoard_spec b :
  wfBoard b <-> length b = 9%nat /\ Forall (fun row => wfRowb row = true) b.
Proof.
  unfold wfBoard, wfBoardb.
  now rewrite andb_true_iff, Nat.eqb_eq, forallb_forall, Forall_forall.
Qed.

Lemma wfBoard_length b : wfBoard b -> length b = 9%nat.
Proof. intro H. now apply wfBoard_spec in H. Qed.

Lemma wfBoard_row b r :
  wfBoard b -> (r < 9)%nat -> wfRowb (nth r b []) = true.
Proof.
  intros H Hr. apply wfBoard_spec in H as [Hl Hf].
  rewrite Forall_forall in Hf. apply Hf. apply nth_In. lia.
Qed.

Lemma wfBoard_row_length b r :
  wfBoard b -> (r < 9)%nat -> length (nth r b []) = 9%nat.
Proof.
  intros H Hr. now apply (wfBoard_row b r H) in Hr as [? _]%wfRowb_spec.
Qed.

Lemma wfBoard_cell b r c : wfBoard b -> 0 <= cell b r c <= 9.
Proof.
  intro H. unfold cell.
  destruct (Nat.lt_ge_cases r 9) as [Hr|Hr].
  - apply (wfBoard_row b r H) in Hr as [Hl Hf]%wfRowb_spec.
    destruct (Nat.lt_ge_cases c 9) as [Hc|Hc].
    + rewrite Forall_forall in Hf. apply Hf, nth_In. lia.
    + rewrite nth_overflow by lia. lia.
  - rewrite (nth_overflow b) by (rewrite (wfBoard_length b H); lia).
    destruct c; simpl; lia.
Qed.

Lemma cell_put_eq b r c v :
  wfBoard b -> (r < 9)%nat -> (c < 9)%nat -> cell (put b r c v) r c = v.
Proof.
  intros H Hr Hc. unfold cell, put.
  rewrite nth_upd_eq by (rewrite (wfBoard_length b H); lia).
  apply nth_upd_eq. rewrite (wfBoard_row_length b r H Hr). lia.
Qed.

Lemma cell_put_ne b r c v r' c' :
  wfBoard b -> (r, c) <> (r', c') -> cell (put b r c v) r' c' = cell b r' c'.
Proof.
  intros H Hne. unfold cell, put.
  destruct (Nat.eq_dec r r') as [<-|Hr].
  - destruct (Nat.lt_ge_cases r 9) as [Hlt|Hge].
    + rewrite nth_upd_eq by (rewrite (wfBoard_length b H); lia).
      apply nth_upd_ne. congruence.
    + rewrite (nth_overflow (upd _ _ _)) by (rewrite length_upd, (wfBoard_length b H); lia).
      now rewrite (nth_overflow b) by (rewrite (wfBoard_length b H); lia).
  - now rewrite nth_upd_ne.
Qed.

Lemma cell_put b r c v r' c' :
  wfBoard b -> (r < 9)%nat -> (c < 9)%nat ->
  cell (put b r c v) r' c' =
  if pos_eq_dec (r, c) (r', c') then v else cell b r' c'.
Proof.
  intros H Hr Hc. destruct (pos_eq_dec (r, c) (r', c')) as [E|E].
  - inversion E; subst. now apply cell_put_eq.
  - now apply cell_put_ne.
Qed.

Lemma Forall_upd {A} (P : A -> Prop) (l : list A) i x :
  Forall P l -> P x -> Forall P (upd l i x).
Proof.
  intros Hf Hx. revert i.
  induction Hf as [|h t Hh Ht IH]; intros [|i]; simpl; constructor; auto.
Qed.

Lemma wfRowb_upd row c v :
  wfRowb row = true -> 0 <= v <= 9 -> wfRowb (upd row c v) = true.
Proof.
  intros [Hl Hf]%wfRowb_spec Hv. apply wfRowb_spec. split.
  - now rewrite length_upd.
  - now apply Forall_upd.
Qed.

Lemma wfBoard_put b r c v :
  wfBoard b -> (r < 9)%nat -> 0 <= v <= 9 -> wfBoard (put b r c v).
Proof.
  intros H Hr Hv. pose proof (wfBoard_row b r H Hr) as Hrow.
  apply wfBoard_spec in H as [Hl Hf]. apply wfBoard_spec. unfold put. split.
  - now rewrite length_upd.
  - apply Forall_upd; auto. now apply wfRowb_upd.
Qed.

Lemma put_put b r c v w :
  wfBoard b -> (r < 9)%nat -> put (put b r c v) r c w = put b r c w.
Proof.
  intros H Hr. unfold put.
  rewrite nth_upd_eq by (rewrite (wfBoard_length b H); lia).
  now rewrite !upd_upd.
Qed.

Lemma put_same b r c : put b r c (cell b r c) = b.
Proof. unfold put, cell. now rewrite !upd_same. Qed.

Lemma put_undo b r c d :
  wfBoard b -> (r < 9)%nat -> cell b r c = 0 -> put (put b r c d) r c 0 = b.
Proof.
  intros H Hr Hz. rewrite put_put by auto. rewrite <- Hz. apply put_same.
Qed.

Lemma board_ext b1 b2 :
  wfBoard b1 -> wfBoard b2 ->
  (forall r c, (r < 9)%nat -> (c < 9)%nat -> cell b1 r c = cell b2 r c) ->
  b1 = b2.
Proof.
  intros H1 H2 Hc.
  apply nth_ext with (d := []) (d' := []).
  - now rewrite (wfBoard_length _ H1), (wfBoard_length _ H2).
  - intros r Hr. rewrite (wfBoard_length _ H1) in Hr.
    apply nth_ext with (d := 0) (d' := 0).
    + now rewrite (wfBoard_row_length _ _ H1 Hr), (wfBoard_row_length _ _ H2 Hr).
    + intros c Hcl. rewrite (wfBoard_row_length _ _ H1 Hr) in Hcl.
      now apply Hc.
Qed.

Lemma wfBoard_empty : wfBoard emptyBoard.
Proof. reflexivity. Qed.

(** *** The boolean predicates decide the propositions *)

Lemma forallb_allCells (f : nat * nat -> bool) :
  forallb f allCells = true <->
  forall r c, (r < 9)%nat -> (c < 9)%nat -> f (r, c) = true.
Proof.
  rewrite forallb_forall. split.
  - intros H r c Hr Hc. apply H. now apply in_allCells.
  - intros H [r c] Hin. apply in_allCells in Hin as [Hr Hc]. now apply H.
Qed.

Lemma existsb_allCells (f : nat * nat -> bool) :
  existsb f allCells = true <->
  exists r c, (r < 9)%nat /\ (c < 9)%nat /\ f (r, c) = true.
Proof.
  rewrite existsb_exists. split.
  - intros [[r c] [Hin Hf]]. apply in_allCells in Hin as [Hr Hc]. eauto.
  - intros (r & c & Hr & Hc & Hf). exists (r, c). split; auto.
    now apply in_allCells.
Qed.

Lemma conflictAtb_spec b r1 c1 r2 c2 :
  conflictAtb b (r1, c1) (r2, c2) = true <->
  (r1, c1) <> (r2, c2) /\ peerb r1 c1 r2 c2 = true /\
  cell b r1 c1 <> 0 /\ cell b r1 c1 = cell b r2 c2.
Proof.
  unfold conflictAtb; simpl.
  rewrite !andb_true_iff, !negb_true_iff, andb_false_iff, !Nat.eqb_neq, !Z.eqb_neq, Z.eqb_eq.
  split.
  - intros [[[Hne Hp] Hz] He]. repeat split; auto. intro E; inversion E; lia.
  - intros (Hne & Hp & Hz & He). repeat split; auto.
    destruct (Nat.eq_dec r1 r2); [right|left]; congruence.
Qed.

Lemma hasConflictb_spec b : hasConflictb b = true <-> hasConflict b.
Proof.
  unfold hasConflictb, hasConflict. rewrite existsb_allCells. split.
  - intros (r1 & c1 & Hr1 & Hc1 & H). apply existsb_allCells in H
      as (r2 & c2 & Hr2 & Hc2 & H). apply conflictAtb_spec in H.
    exists r1, c1, r2, c2. tauto.
  - intros (r1 & c1 & r2 & c2 & Hr1 & Hc1 & Hr2 & Hc2 & H).
    exists r1, c1. repeat split; auto. apply existsb_allCells.
    exists r2, c2. repeat split; auto. apply conflictAtb_spec. tauto.
Qed.

Lemma noConflict_spec b :
  noConflict b <-> hasConflictb b = false.
Proof.
  unfold noConflict. rewrite <- hasConflictb_spec.
  destruct (hasConflictb b); split; congruence.
Qed.

Lemma noConflict_cells b r1 c1 r2 c2 :
  noConflict b -> (r1 < 9)%nat -> (c1 < 9)%nat -> (r2 < 9)%nat -> (c2 < 9)%nat ->
  (r1, c1) <> (r2, c2) -> peerb r1 c1 r2 c2 = true -> cell b r1 c1 <> 0 ->
  cell b r1 c1 <> cell b r2 c2.
Proof.
  intros H Hr1 Hc1 Hr2 Hc2 Hne Hp Hz He. apply H.
  exists r1, c1, r2, c2. tauto.
Qed.

Lemma completeb_spec b : completeb b = true <-> complete b.
Proof.
  unfold completeb, complete. rewrite forallb_allCells. simpl.
  split; intros H r c Hr Hc; specialize (H r c Hr Hc);
    [apply negb_true_iff in H | apply negb_true_iff]; lia.
Qed.

Lemma extendsb_spec b s : extendsb b s = true <-> extends b s.
Proof.
  unfold extendsb, extends. rewrite forallb_allCells. simpl.
  split; intros H r c Hr Hc.
  - intro Hz. specialize (H r c Hr Hc). apply orb_true_iff in H. lia.
  - apply orb_true_iff. destruct (Z.eq_dec (cell b r c) 0) as [E|E]; [left|right].
    + lia.
    + specialize (H r c Hr Hc E). lia.
Qed.

Lemma isSolutionb_spec b s : isSolutionb b s = true <-> isSolution b s.
Proof.
  unfold isSolutionb, isSolution.
  rewrite !andb_true_iff, negb_true_iff, <- noConflict_spec,
    completeb_spec, extendsb_spec. unfold wfBoard. tauto.
Qed.

(* ================================================================== *)
(** ** Rows, columns, blocks and peers *)

Lemma in_rowVals b r v :
  In v (rowVals b r) <-> exists c, (c < 9)%nat /\ cell b r c = v.
Proof.
  unfold rowVals. rewrite in_map_iff. split.
  - intros [c [E H]]. exists c. now rewrite <- in_seq9.
  - intros [c [H E]]. exists c. now rewrite in_seq9.
Qed.

Lemma in_colVals b c v :
  In v (colVals b c) <-> exists r, (r < 9)%nat /\ cell b r c = v.
Proof.
  unfold colVals. rewrite in_map_iff. split.
  - intros [r [E H]]. exists r. now rewrite <- in_seq9.
  - intros [r [H E]]. exists r. now rewrite in_seq9.
Qed.

Lemma inBlockb_spec k r c : inBlockb k (r, c) = true <-> In (r, c) (blockCells k).
Proof.
  unfold inBlockb. rewrite existsb_exists. simpl. split.
  - intros [[r' c'] [Hin H]]. simpl in H.
    apply andb_true_iff in H as [H1 H2].
    apply Nat.eqb_eq in H1, H2. now subst.
  - intro H. exists (r, c). split; auto. simpl. now rewrite !Nat.eqb_refl.
Qed.

Lemma blockCells_self_b :
  forallb (fun rc => inBlockb (blockIndex (fst rc) (snd rc)) rc) allCells = true.
Proof. vm_compute. reflexivity. Qed.

Lemma blockCells_range_b :
  forallb (fun k => forallb (fun rc => (fst rc <? 9)%nat && (snd rc <? 9)%nat &&
                                       (blockIndex (fst rc) (snd rc) =? k)%nat)
                      (blockCells k)) (seq 0 9) = true.
Proof. vm_compute. reflexivity. Qed.

Lemma in_blockCells_self r c :
  (r < 9)%nat -> (c < 9)%nat -> In (r, c) (blockCells (blockIndex r c)).
Proof.
  intros Hr Hc. apply inBlockb_spec.
  pose proof blockCells_self_b as H. rewrite forallb_allCells in H.
  exact (H r c Hr Hc).
Qed.

Lemma in_blockCells k r c :
  (k < 9)%nat -> In (r, c) (blockCells k) ->
  (r < 9)%nat /\ (c < 9)%nat /\ blockIndex r c = k.
Proof.
  intros Hk Hin. pose proof blockCells_range_b as H.
  rewrite forallb_forall in H. specialize (H k (proj2 (in_seq9 k) Hk)).
  rewrite forallb_forall in H. specialize (H (r, c) Hin). simpl in H.
  apply andb_true_iff in H as [H H3]. apply andb_true_iff in H as [H1 H2].
  apply Nat.ltb_lt in H1, H2. apply Nat.eqb_eq in H3. auto.
Qed.

Lemma blockIndex_lt r c : (r < 9)%nat -> (c < 9)%nat -> (blockIndex r c < 9)%nat.
Proof.
  intros Hr Hc. unfold blockIndex.
  assert (r / 3 < 3)%nat by (apply Nat.Div0.div_lt_upper_bound; lia).
  assert (c / 3 < 3)%nat by (apply Nat.Div0.div_lt_upper_bound; lia).
  lia.
Qed.

Lemma in_blockVals b k v :
  (k < 9)%nat ->
  In v (blockVals b k) <->
  exists r c, (r < 9)%nat /\ (c < 9)%nat /\ blockIndex r c = k /\ cell b r c = v.
Proof.
  intro Hk. unfold blockVals. rewrite in_map_iff. split.
  - intros [[r c] [E Hin]]. simpl in E.
    apply in_blockCells in Hin as (Hr & Hc & Hb); auto. exists r, c. auto.
  - intros (r & c & Hr & Hc & Hb & E). exists (r, c). split; auto.
    subst k. now apply in_blockCells_self.
Qed.

Lemma peerb_sym r1 c1 r2 c2 : peerb r1 c1 r2 c2 = peerb r2 c2 r1 c1.
Proof.
  unfold peerb.
  now rewrite (Nat.eqb_sym r1), (Nat.eqb_sym c1), (Nat.eqb_sym (blockIndex r1 c1)).
Qed.

Lemma peerb_cases r1 c1 r2 c2 :
  peerb r1 c1 r2 c2 = true <->
  r1 = r2 \/ c1 = c2 \/ blockIndex r1 c1 = blockIndex r2 c2.
Proof.
  unfold peerb. rewrite !orb_true_iff, !Nat.eqb_eq. tauto.
Qed.

Lemma in_peerVals b r c v :
  (r < 9)%nat -> (c < 9)%nat ->
  In v (peerVals b r c) <->
  exists r' c', (r' < 9)%nat /\ (c' < 9)%nat /\
                peerb r c r' c' = true /\ cell b r' c' = v.
Proof.
  intros Hr Hc. unfold peerVals.
  rewrite !in_app_iff, in_rowVals, in_colVals,
    (in_blockVals b _ v (blockIndex_lt r c Hr Hc)).
  split.
  - intros [[c' [H E]] | [[r' [H E]] | (r' & c' & H1 & H2 & Hb & E)]].
    + exists r, c'. repeat split; auto. apply peerb_cases. auto.
    + exists r', c. repeat split; auto. apply peerb_cases. auto.
    + exists r', c'. repeat split; auto. apply peerb_cases. auto.
  - intros (r' & c' & H1 & H2 & Hp & E). apply peerb_cases in Hp as [<- | [<- | Hb]].
    + left. eauto.
    + right. left. eauto.
    + right. right. exists r', c'. auto.
Qed.

Lemma in_digits19 d : In d digits19 <-> 1 <= d <= 9.
Proof.
  unfold digits19. simpl. split.
  - intros H. repeat (destruct H as [H|H]; [lia|]). contradiction.
  - intro H.
    assert (d = 1 \/ d = 2 \/ d = 3 \/ d = 4 \/ d = 5 \/ d = 6 \/ d = 7 \/ d = 8 \/ d = 9)
      as E by lia.
    intuition auto.
Qed.

Lemma NoDup_digits19 : NoDup digits19.
Proof.
  unfold digits19.
  repeat (constructor; [simpl; intros H; repeat (destruct H as [H|H]; [discriminate|]); exact H|]).
  constructor.
Qed.

Lemma existsb_eqb_In (d : Z) (vs : list Z) : existsb (Z.eqb d) vs = true <-> In d vs.
Proof.
  rewrite existsb_exists. split.
  - intros [x [Hin E]]. apply Z.eqb_eq in E. now subst.
  - intro H. exists d. split; auto. apply Z.eqb_refl.
Qed.

Lemma in_candidateDigits b r c d :
  (r < 9)%nat -> (c < 9)%nat ->
  In d (candidateDigits b r c) <->
  1 <= d <= 9 /\
  forall r' c', (r' < 9)%nat -> (c' < 9)%nat ->
                peerb r c r' c' = true -> cell b r' c' <> d.
Proof.
  intros Hr Hc. unfold candidateDigits.
  rewrite filter_In, in_digits19, negb_true_iff.
  split; intros [Hd H]; split; auto.
  - intros r' c' Hr' Hc' Hp E.
    assert (existsb (Z.eqb d) (peerVals b r c) = true) as X; [|congruence].
    apply existsb_eqb_In, in_peerVals; auto. exists r', c'. auto.
  - destruct (existsb (Z.eqb d) (peerVals b r c)) eqn:E; auto.
    apply existsb_eqb_In, in_peerVals in E as (r' & c' & Hr' & Hc' & Hp & E); auto.
    exfalso. exact (H r' c' Hr' Hc' Hp E).
Qed.

Lemma NoDup_candidateDigits b r c : NoDup (candidateDigits b r c).
Proof. apply NoDup_filter, NoDup_digits19. Qed.

(* ================================================================== *)
(** ** Solutions and candidates *)

Lemma isSolution_digit b s r c :
  isSolution b s -> (r < 9)%nat -> (c < 9)%nat -> 1 <= cell s r c <= 9.
Proof.
  intros (Hw & Hc & _) Hr Hcc.
  pose proof (wfBoard_cell s r c Hw). specialize (Hc r c Hr Hcc). lia.
Qed.

(** Placing a candidate keeps the board free of conflicts. *)
Lemma noConflict_put b r c d :
  wfBoard b -> noConflict b -> (r < 9)%nat -> (c < 9)%nat ->
  cell b r c = 0 -> In d (candidateDigits b r c) ->
  noConflict (put b r c d).
Proof.
  intros Hw Hn Hr Hc Hz Hd.
  apply in_candidateDigits in Hd as [Hd19 Hd]; auto.
  intros (r1 & c1 & r2 & c2 & Hr1 & Hc1 & Hr2 & Hc2 & Hne & Hp & Hv & He).
  rewrite (cell_put b r c d r1 c1), (cell_put b r c d r2 c2) in He by auto.
  rewrite (cell_put b r c d r1 c1) in Hv by auto.
  destruct (pos_eq_dec (r, c) (r1, c1)) as [E1|E1];
    destruct (pos_eq_dec (r, c) (r2, c2)) as [E2|E2].
  - congruence.
  - inversion E1; subst r1 c1. apply (Hd r2 c2); auto; lia.
  - inversion E2; subst r2 c2. rewrite peerb_sym in Hp. apply (Hd r1 c1); auto; lia.
  - apply Hn. exists r1, c1, r2, c2. tauto.
Qed.

(** A solution puts a candidate in every empty cell and stays a solution
    of the board with that cell filled. *)

(** A solution puts a candidate in every empty cell and stays a solution
    of the board with that cell filled. *)
Lemma solution_candidate b s r c :
  wfBoard b -> isSolution b s -> (r < 9)%nat -> (c < 9)%nat -> cell b r c = 0 ->
  In (cell s r c) (candidateDigits b r c) /\ isSolution (put b r c (cell s r c)) s.
Proof.
  intros Hwb Hs Hr Hc Hz.
  pose proof (isSolution_digit b s r c Hs Hr Hc) as Hd.
  destruct Hs as (Hw & Hcomp & Hn & He). split.
  - apply in_candidateDigits; auto. split; auto.
    intros r' c' Hr' Hc' Hp E.
    assert ((r, c) <> (r', c')) as Hne by (intro X; inversion X; subst; lia).
    assert (cell s r' c' = cell b r' c') as E' by (apply He; auto; lia).
    apply (noConflict_cells s r c r' c' Hn); auto; try lia.
  - repeat split; auto. intros r' c' Hr' Hc'.
    rewrite (cell_put b r c) by auto.
    destruct (pos_eq_dec (r, c) (r', c')) as [E|E].
    + inversion E; subst. auto.
    + now apply He.
Qed.

Lemma solution_of_put b s r c d :
  wfBoard b -> (r < 9)%nat -> (c < 9)%nat -> cell b r c = 0 -> d <> 0 ->
  isSolution (put b r c d) s -> isSolution b s /\ cell s r c = d.
Proof.
  intros Hwb Hr Hc Hz Hd (Hw & Hcomp & Hn & He). split.
  - repeat split; auto. intros r' c' Hr' Hc' Hnz.
    rewrite <- (cell_put_ne b r c d r' c') by (auto; intro X; inversion X; subst; lia).
    apply He; auto.
    rewrite cell_put_ne by (auto; intro X; inversion X; subst; lia). auto.
  - specialize (He r c Hr Hc). rewrite cell_put_eq in He by auto. auto.
Qed.

Lemma solution_of_complete b s :
  wfBoard b -> complete b -> isSolution b s -> s = b.
Proof.
  intros Hwb Hcb (Hw & _ & _ & He).
  apply board_ext; auto; intros r c Hr Hc; apply He; auto.
Qed.

Lemma complete_isSolution b :
  wfBoard b -> noConflict b -> complete b -> isSolution b b.
Proof. intros. repeat split; auto. Qed.

Lemma no_solution_dead b r c :
  wfBoard b -> (r < 9)%nat -> (c < 9)%nat -> cell b r c = 0 ->
  candidateDigits b r c = [] -> forall s, ~ isSolution b s.
Proof.
  intros Hwb Hr Hc Hz Hnil s Hs.
  destruct (solution_candidate b s r c Hwb Hs Hr Hc Hz) as [Hin _].
  rewrite Hnil in Hin. contradiction.
Qed.

(** *** The number of empty cells *)

Lemma filter_flip_length {A} (f g : A -> bool) (l : list A) (x : A) :
  NoDup l -> In x l -> f x = true -> g x = false ->
  (forall y, y <> x -> g y = f y) ->
  length (filter f l) = S (length (filter g l)).
Proof.
  intros Hnd Hin Hf Hg Hagree.
  induction l as [|h t IH]; [contradiction|].
  inversion Hnd as [|? ? Hnotin Hnd']; subst.
  destruct Hin as [->|Hin].
  - simpl. rewrite Hf, Hg. simpl. f_equal.
    f_equal. apply filter_ext_in. intros y Hy. symmetry. apply Hagree.
    intro E; subst. contradiction.
  - simpl. rewrite (Hagree h) by (intro E; subst; contradiction).
    destruct (f h); simpl; rewrite IH; auto.
Qed.

Lemma zeros_put b r c d :
  wfBoard b -> (r < 9)%nat -> (c < 9)%nat -> cell b r c = 0 -> d <> 0 ->
  zeros b = S (zeros (put b r c d)).
Proof.
  intros Hw Hr Hc Hz Hd. unfold zeros, collectEmpties.
  apply filter_flip_length with (x := (r, c)).
  - apply NoDup_allCells.
  - now apply in_allCells.
  - simpl. lia.
  - simpl. rewrite cell_put_eq by auto. lia.
  - intros [r' c'] Hne. simpl. rewrite cell_put_ne; auto.
Qed.

Lemma zeros_le b : (zeros b <= 81)%nat.
Proof.
  unfold zeros, collectEmpties.
  etransitivity; [apply filter_length_le|]. reflexivity.
Qed.

Lemma in_collectEmpties b r c :
  In (r, c) (collectEmpties b) <-> (r < 9)%nat /\ (c < 9)%nat /\ cell b r c = 0.
Proof.
  unfold collectEmpties. rewrite filter_In, in_allCells. simpl. lia.
Qed.

(* ================================================================== *)
(** ** The search of the specification finds exactly the solutions *)

Lemma specScanFrom_some_not_full b es x : specScanFrom b es (Some x) <> Full.
Proof.
  revert x. induction es as [|[r c] es IH]; intros [[r0 c0] ds0]; simpl.
  - discriminate.
  - destruct (negb (cell b r c =? 0)); [apply IH|].
    destruct (candidateDigits b r c) as [|d ds]; [discriminate|].
    destruct (length (d :: ds) <? length ds0)%nat; [|apply IH].
    destruct (length (d :: ds) =? 1)%nat; [discriminate|apply IH].
Qed.

Lemma specScanFrom_dead b es best :
  specScanFrom b es best = Dead ->
  exists r c, In (r, c) es /\ cell b r c = 0 /\ candidateDigits b r c = [].
Proof.
  revert best. induction es as [|[r c] es IH]; intros best; simpl.
  - destruct best as [[[? ?] ?]|]; discriminate.
  - destruct (cell b r c =? 0) eqn:Ez; simpl.
    + apply Z.eqb_eq in Ez.
      destruct (candidateDigits b r c) as [|d ds] eqn:Ec.
      * intros _. exists r, c. auto.
      * destruct (fewer _ _); [destruct (_ =? _)%nat; [discriminate|]|];
          intro H; apply IH in H as (r' & c' & H1 & H2); exists r', c'; auto.
    + intro H; apply IH in H as (r' & c' & H1 & H2); exists r', c'; auto.
Qed.

Lemma specScanFrom_full b es best :
  specScanFrom b es best = Full ->
  best = None /\ forall r c, In (r, c) es -> cell b r c <> 0.
Proof.
  revert best. induction es as [|[r c] es IH]; intros best; simpl.
  - destruct best as [[[? ?] ?]|]; [discriminate|]. intros _. split; [reflexivity|intros ? ? []].
  - destruct (cell b r c =? 0) eqn:Ez; simpl.
    + destruct (candidateDigits b r c) as [|d ds] eqn:Ec; [discriminate|].
      destruct (fewer _ _) eqn:Ef.
      * destruct (_ =? _)%nat; [discriminate|].
        intro H. exfalso. exact (specScanFrom_some_not_full _ _ _ H).
      * intro H. apply IH in H as [-> H]. simpl in Ef. discriminate.
    + apply Z.eqb_neq in Ez. intro H. apply IH in H as [-> H]. split; auto.
      intros r' c' [E|Hin]; [inversion E; subst; auto | auto].
Qed.

Lemma specScanFrom_branch b es0 es best r c ds :
  incl es es0 ->
  (forall r c ds, best = Some (r, c, ds) -> goodPick b es0 r c ds) ->
  specScanFrom b es best = Branch r c ds -> goodPick b es0 r c ds.
Proof.
  revert best. induction es as [|[r1 c1] es IH]; intros best Hincl Hbest; simpl.
  - destruct best as [[[r0 c0] ds0]|]; [|discriminate].
    intro H; inversion H; subst. now apply Hbest.
  - assert (incl es es0) as Hincl' by (intros x Hx; apply Hincl; now right).
    destruct (cell b r1 c1 =? 0) eqn:Ez; simpl; [|now apply IH].
    apply Z.eqb_eq in Ez.
    destruct (candidateDigits b r1 c1) as [|d ds1] eqn:Ec; [discriminate|].
    assert (goodPick b es0 r1 c1 (d :: ds1)) as Hgood.
    { repeat split; auto. apply Hincl; now left. discriminate. }
    destruct (fewer _ _); [|now apply IH].
    destruct (_ =? _)%nat.
    + intro H; inversion H; subst. exact Hgood.
    + apply IH; auto. intros r' c' ds' E. inversion E; subst. exact Hgood.
Qed.

Lemma specScan_branch b es r c ds :
  specScan b es = Branch r c ds -> goodPick b es r c ds.
Proof.
  apply specScanFrom_branch.
  - apply incl_refl.
  - discriminate.
Qed.

Lemma SInv_put es b r c d :
  SInv es b -> In (r, c) es -> cell b r c = 0 -> In d (candidateDigits b r c) ->
  SInv es (put b r c d).
Proof.
  intros [Hw Hn Hz Hrange] Hin Hcell Hd.
  destruct (Hrange r c Hin) as [Hr Hc].
  pose proof (proj1 (in_candidateDigits b r c d Hr Hc) Hd) as [Hd19 _].
  constructor; auto.
  - apply wfBoard_put; auto. lia.
  - now apply noConflict_put.
  - intros r' c' Hr' Hc'. rewrite cell_put by auto.
    destruct (pos_eq_dec (r, c) (r', c')); [lia | auto].
Qed.

Lemma SInv_complete es b :
  SInv es b -> (forall r c, In (r, c) es -> cell b r c <> 0) -> complete b.
Proof.
  intros [Hw Hn Hz Hrange] H r c Hr Hc E. exact (H r c (Hz r c Hr Hc E) E).
Qed.

Lemma specSearch_sound fuel es b s :
  SInv es b -> In s (specSearch fuel es b) -> isSolution b s.
Proof.
  revert b. induction fuel as [|fuel IH]; intros b Hinv; simpl; [intros []|].
  destruct (specScan b es) as [| |r c ds] eqn:Es.
  - intros [].
  - intros [<-|[]]. apply specScanFrom_full in Es as [_ Hfull].
    apply complete_isSolution; try apply Hinv.
    now apply (SInv_complete es).
  - apply specScan_branch in Es as (Hin & Hz & -> & _).
    rewrite in_flat_map. intros [d [Hd Hs]].
    destruct (sinv_range _ _ Hinv r c Hin) as [Hr Hc].
    pose proof (proj1 (in_candidateDigits b r c d Hr Hc) Hd) as [Hd19 _].
    apply IH in Hs; [|now apply SInv_put].
    assert (d <> 0) as Hd0 by lia.
    exact (proj1 (solution_of_put b s r c d (sinv_wf _ _ Hinv) Hr Hc Hz Hd0 Hs)).
Qed.

Lemma specSearch_cell fuel es b r c d s :
  SInv es b -> In (r, c) es -> cell b r c = 0 -> In d (candidateDigits b r c) ->
  In s (specSearch fuel es (put b r c d)) -> cell s r c = d.
Proof.
  intros Hinv Hin Hz Hd Hs.
  destruct (sinv_range _ _ Hinv r c Hin) as [Hr Hc].
  pose proof (proj1 (in_candidateDigits b r c d Hr Hc) Hd) as [Hd19 _].
  apply specSearch_sound in Hs; [|now apply SInv_put].
  assert (d <> 0) as Hd0 by lia.
  exact (proj2 (solution_of_put b s r c d (sinv_wf _ _ Hinv) Hr Hc Hz Hd0 Hs)).
Qed.

Lemma specSearch_complete fuel es b s :
  SInv es b -> (zeros b < fuel)%nat -> isSolution b s ->
  In s (specSearch fuel es b).
Proof.
  revert b. induction fuel as [|fuel IH]; intros b Hinv Hfuel Hs; [lia|]. simpl.
  destruct (specScan b es) as [| |r c ds] eqn:Es.
  - apply specScanFrom_dead in Es as (r & c & Hin & Hz & Hnil).
    destruct (sinv_range _ _ Hinv r c Hin) as [Hr Hc].
    exfalso. exact (no_solution_dead b r c (sinv_wf _ _ Hinv) Hr Hc Hz Hnil s Hs).
  - apply specScanFrom_full in Es as [_ Hfull]. left. symmetry.
    apply solution_of_complete; auto; try apply Hinv.
    now apply (SInv_complete es).
  - apply specScan_branch in Es as (Hin & Hz & -> & _).
    destruct (sinv_range _ _ Hinv r c Hin) as [Hr Hc].
    destruct (solution_candidate b s r c (sinv_wf _ _ Hinv) Hs Hr Hc Hz) as [Hd Hs'].
    apply in_flat_map. exists (cell s r c). split; auto.
    pose proof (proj1 (in_candidateDigits b r c _ Hr Hc) Hd) as [Hd19 _].
    apply IH; auto.
    + now apply SInv_put.
    + rewrite (zeros_put b r c (cell s r c)) in Hfuel; auto; try apply Hinv; lia.
Qed.

Lemma NoDup_flat_map {A B} (f : A -> list B) (l : list A) :
  NoDup l ->
  (forall x, In x l -> NoDup (f x)) ->
  (forall x y z, In x l -> In y l -> x <> y -> In z (f x) -> In z (f y) -> False) ->
  NoDup (flat_map f l).
Proof.
  intros Hnd Hf Hdis. induction Hnd as [|x l Hx Hnd IH]; simpl; [constructor|].
  apply NoDup_app.
  - apply Hf. now left.
  - apply IH.
    + intros y Hy. apply Hf. now right.
    + intros y1 y2 z H1 H2. apply Hdis; now right.
  - intros z Hz Hz'. apply in_flat_map in Hz' as [y [Hy Hzy]].
    apply (Hdis x y z); auto.
    + now left.
    + now right.
    + intro E; subst. contradiction.
Qed.

Lemma specSearch_NoDup fuel es b : SInv es b -> NoDup (specSearch fuel es b).
Proof.
  revert b. induction fuel as [|fuel IH]; intros b Hinv; simpl; [constructor|].
  destruct (specScan b es) as [| |r c ds] eqn:Es.
  - constructor.
  - constructor; [intros []|constructor].
  - apply specScan_branch in Es as (Hin & Hz & -> & _).
    apply NoDup_flat_map.
    + apply NoDup_candidateDigits.
    + intros d Hd. apply IH. now apply SInv_put.
    + intros d1 d2 s Hd1 Hd2 Hne H1 H2.
      apply (specSearch_cell _ _ _ _ _ _ _ Hinv Hin Hz Hd1) in H1.
      apply (specSearch_cell _ _ _ _ _ _ _ Hinv Hin Hz Hd2) in H2.
      congruence.
Qed.

(* ================================================================== *)
(** ** Bits and masks *)

Lemma testbit_bitOf v i :
  1 <= v -> Z.testbit (bitOf v) i = (i =? v - 1).
Proof.
  intros Hv. unfold bitOf. rewrite Z.shiftl_1_l.
  rewrite Z.pow2_bits_eqb by lia. apply Z.eqb_sym.
Qed.

Lemma testbit_unionBits vs i :
  Forall (fun v => 0 <= v) vs -> 0 <= i ->
  Z.testbit (unionBits vs) i = existsb (Z.eqb (i + 1)) vs.
Proof.
  intros Hvs Hi. induction Hvs as [|v vs Hv Hvs IH]; simpl.
  - apply Z.testbit_0_l.
  - destruct (Z.eqb_spec v 0) as [->|Hne].
    + rewrite IH. destruct (Z.eqb_spec (i + 1) 0); [lia|reflexivity].
    + rewrite Z.lor_spec, IH, testbit_bitOf by lia. f_equal.
      destruct (Z.eqb_spec i (v - 1)); destruct (Z.eqb_spec (i + 1) v); auto; lia.
Qed.

Lemma in_masks512 m : 0 <= m < 512 -> In m masks512.
Proof.
  intro H. unfold masks512. apply in_map_iff. exists (Z.to_nat m). split.
  - lia.
  - apply in_seq. lia.
Qed.

Lemma mask_facts_b :
  forallb (fun m =>
    match maskDigits 32 m with
    | Some ds => listZ_eqb ds (ascDigits m)
    | None => false
    end &&
    (popcount m =? Z.of_nat (length (ascDigits m))) &&
    Bool.eqb (m =? 0) (match ascDigits m with [] => true | _ => false end))
    masks512 = true.
Proof. vm_compute. reflexivity. Qed.

Lemma mask_facts m :
  0 <= m < 512 ->
  maskDigits 32 m = Some (ascDigits m) /\
  popcount m = Z.of_nat (length (ascDigits m)) /\
  (m = 0 <-> ascDigits m = []).
Proof.
  intro Hm. pose proof mask_facts_b as H. rewrite forallb_forall in H.
  specialize (H m (in_masks512 m Hm)).
  apply andb_true_iff in H as [H H3]. apply andb_true_iff in H as [H1 H2].
  repeat split.
  - destruct (maskDigits 32 m) as [ds|]; [|discriminate].
    unfold listZ_eqb in H1. destruct (list_eq_dec Z.eq_dec ds (ascDigits m)); congruence.
  - lia.
  - intro E. apply Bool.eqb_prop in H3. rewrite (proj2 (Z.eqb_eq m 0) E) in H3.
    destruct (ascDigits m); congruence.
  - intro E. apply Bool.eqb_prop in H3. rewrite E in H3. now apply Z.eqb_eq.
Qed.

Lemma in_ascDigits m d : In d (ascDigits m) <-> 1 <= d <= 9 /\ Z.testbit m (d - 1) = true.
Proof. unfold ascDigits. now rewrite filter_In, in_digits19. Qed.

Lemma length_ascDigits m : (length (ascDigits m) <= 9)%nat.
Proof. unfold ascDigits. apply (filter_length_le _ digits19). Qed.

Lemma candidatesMask_range s r c : 0 <= candidatesMask s r c < 512.
Proof.
  unfold candidatesMask. change 511 with (Z.ones 9).
  rewrite Z.land_ones by lia. apply Z.mod_pos_bound. lia.
Qed.

Lemma testbit_511 d : 1 <= d <= 9 -> Z.testbit 511 (d - 1) = true.
Proof.
  intro H.
  assert (d = 1 \/ d = 2 \/ d = 3 \/ d = 4 \/ d = 5 \/ d = 6 \/ d = 7 \/ d = 8 \/ d = 9)
    as E by lia.
  repeat (destruct E as [->|E]; [reflexivity|]). now subst.
Qed.

Lemma land_lor_clear x v :
  1 <= v -> Z.testbit x (v - 1) = false ->
  Z.land (Z.lor x (bitOf v)) (Z.lnot (bitOf v)) = x.
Proof.
  intros Hv Hx. apply Z.bits_inj'. intros n Hn.
  rewrite Z.land_spec, Z.lor_spec, Z.lnot_spec, testbit_bitOf by lia.
  destruct (Z.eqb_spec n (v - 1)) as [->|Hne].
  - rewrite Hx. reflexivity.
  - now rewrite orb_false_r, andb_true_r.
Qed.

Lemma land_bitOf_zero x v :
  1 <= v -> (Z.land x (bitOf v) =? 0) = negb (Z.testbit x (v - 1)).
Proof.
  intros Hv.
  destruct (Z.testbit x (v - 1)) eqn:E; simpl.
  - apply Z.eqb_neq. intro H.
    assert (Z.testbit (Z.land x (bitOf v)) (v - 1) = true) as X.
    { rewrite Z.land_spec, E, testbit_bitOf, Z.eqb_refl by lia. reflexivity. }
    rewrite H, Z.testbit_0_l in X. discriminate.
  - apply Z.eqb_eq. apply Z.bits_inj'. intros n Hn.
    rewrite Z.land_spec, testbit_bitOf, Z.testbit_0_l by lia.
    destruct (Z.eqb_spec n (v - 1)) as [->|Hne].
    + now rewrite E.
    + apply andb_false_r.
Qed.

(** *** Units as lists of cells *)

Lemma rowVals_vals b r : rowVals b r = vals b (rowCells r).
Proof. unfold rowVals, vals, rowCells. now rewrite map_map. Qed.

Lemma colVals_vals b c : colVals b c = vals b (colCells c).
Proof. unfold colVals, vals, colCells. now rewrite map_map. Qed.

Lemma blockVals_vals b k : blockVals b k = vals b (blockCells k).
Proof. reflexivity. Qed.

Lemma in_rowCells j r c : In (r, c) (rowCells j) <-> j = r /\ (c < 9)%nat.
Proof.
  unfold rowCells. rewrite in_map_iff. split.
  - intros [x [E H]]. inversion E; subst. now apply in_seq9 in H.
  - intros [-> H]. exists c. split; auto. now apply in_seq9.
Qed.

Lemma in_colCells j r c : In (r, c) (colCells j) <-> j = c /\ (r < 9)%nat.
Proof.
  unfold colCells. rewrite in_map_iff. split.
  - intros [x [E H]]. inversion E; subst. now apply in_seq9 in H.
  - intros [-> H]. exists r. split; auto. now apply in_seq9.
Qed.

Lemma vals_nonneg b u : wfBoard b -> Forall (fun v => 0 <= v) (vals b u).
Proof.
  intro H. apply Forall_forall. intros v Hv. unfold vals in Hv.
  apply in_map_iff in Hv as [[r c] [<- _]]. apply (wfBoard_cell b r c H).
Qed.

Lemma vals_put_notin b u r c d :
  wfBoard b -> ~ In (r, c) u -> vals (put b r c d) u = vals b u.
Proof.
  intros Hw Hn. unfold vals. apply map_ext_in. intros [r' c'] Hin. simpl.
  apply cell_put_ne; auto. intro E. rewrite E in Hn. contradiction.
Qed.

Lemma unionBits_put_in b u r c d :
  wfBoard b -> (r < 9)%nat -> (c < 9)%nat -> cell b r c = 0 -> 1 <= d <= 9 ->
  In (r, c) u ->
  unionBits (vals (put b r c d) u) = Z.lor (unionBits (vals b u)) (bitOf d).
Proof.
  intros Hw Hr Hc Hz Hd Hin. apply Z.bits_inj'. intros n Hn.
  assert (wfBoard (put b r c d)) as Hw' by (apply wfBoard_put; auto; lia).
  rewrite Z.lor_spec, !testbit_unionBits, testbit_bitOf by (auto using vals_nonneg; lia).
  apply Bool.eq_iff_eq_true.
  rewrite orb_true_iff, !existsb_eqb_In, Z.eqb_eq. unfold vals.
  rewrite !in_map_iff. split.
  - intros [[r' c'] [E Hin']]. simpl in E. rewrite cell_put in E by auto.
    destruct (pos_eq_dec (r, c) (r', c')).
    + right. lia.
    + left. exists (r', c'). auto.
  - intros [[[r' c'] [E Hin']] | E].
    + exists (r', c'). split; auto. simpl in *. rewrite cell_put by auto.
      destruct (pos_eq_dec (r, c) (r', c')) as [X|X]; auto.
      inversion X; subst. lia.
    + exists (r, c). split; auto. simpl. rewrite cell_put_eq by auto. lia.
Qed.

(** A mask array indexed by units follows a placement. *)
Lemma unitMasks_place (U : nat -> list (nat * nat)) (idx : nat) b masks r c d :
  wfBoard b -> (r < 9)%nat -> (c < 9)%nat -> cell b r c = 0 -> 1 <= d <= 9 ->
  (idx < 9)%nat ->
  (forall j, (j < 9)%nat -> In (r, c) (U j) <-> j = idx) ->
  masks = map (fun j => unionBits (vals b (U j))) (seq 0 9) ->
  upd masks idx (Z.lor (nth idx masks 0) (bitOf d)) =
  map (fun j => unionBits (vals (put b r c d) (U j))) (seq 0 9).
Proof.
  intros Hw Hr Hc Hz Hd Hidx HU Hm. symmetry.
  assert (length masks = 9%nat) as Hlen by (subst masks; reflexivity).
  apply upd_nth_ext with (d := 0).
  - now rewrite Hlen.
  - lia.
  - rewrite nth_map_seq9 by auto. rewrite Hm, nth_map_seq9 by auto.
    apply unionBits_put_in; auto. now apply HU.
  - intros j Hj. destruct (Nat.lt_ge_cases j 9) as [Hlt|Hge].
    + rewrite Hm, !nth_map_seq9 by auto. f_equal.
      apply vals_put_notin; auto. rewrite HU by auto. auto.
    + rewrite !nth_overflow; auto. lia.
Qed.

Lemma unitMasks_unplace masks idx d :
  length masks = 9%nat -> (idx < 9)%nat -> 1 <= d ->
  Z.testbit (nth idx masks 0) (d - 1) = false ->
  let masks1 := upd masks idx (Z.lor (nth idx masks 0) (bitOf d)) in
  upd masks1 idx (Z.land (nth idx masks1 0) (Z.lnot (bitOf d))) = masks.
Proof.
  intros Hlen Hidx Hd Hbit. simpl.
  rewrite nth_upd_eq by lia. rewrite upd_upd, land_lor_clear by auto.
  apply upd_same.
Qed.

(* ================================================================== *)
(** ** The solver invariant *)

Lemma masksOK_row s r :
  masksOK s -> (r < 9)%nat -> nth r (rowMask s) 0 = unionBits (vals (board s) (rowCells r)).
Proof. intros (H & _ & _) Hr. rewrite H. now rewrite nth_map_seq9. Qed.

Lemma masksOK_col s c :
  masksOK s -> (c < 9)%nat -> nth c (colMask s) 0 = unionBits (vals (board s) (colCells c)).
Proof. intros (_ & H & _) Hc. rewrite H. now rewrite nth_map_seq9. Qed.

Lemma masksOK_block s k :
  masksOK s -> (k < 9)%nat -> nth k (blockMask s) 0 = unionBits (vals (board s) (blockCells k)).
Proof. intros (_ & _ & H) Hk. rewrite H. now rewrite nth_map_seq9. Qed.

Lemma masksOK_lengths s :
  masksOK s ->
  length (rowMask s) = 9%nat /\ length (colMask s) = 9%nat /\ length (blockMask s) = 9%nat.
Proof. intros (H1 & H2 & H3). rewrite H1, H2, H3. repeat split. Qed.

(** The bits of the "used" word are the values seen by the cell. *)
Lemma testbit_used s r c d :
  masksOK s -> wfBoard (board s) -> (r < 9)%nat -> (c < 9)%nat -> 1 <= d ->
  Z.testbit (Z.lor (Z.lor (nth r (rowMask s) 0) (nth c (colMask s) 0))
                   (nth (blockIndex r c) (blockMask s) 0)) (d - 1) =
  existsb (Z.eqb d) (peerVals (board s) r c).
Proof.
  intros Hm Hw Hr Hc Hd.
  rewrite masksOK_row, masksOK_col, masksOK_block by auto using blockIndex_lt.
  rewrite !Z.lor_spec, !testbit_unionBits by (auto using vals_nonneg; lia).
  replace (d - 1 + 1) with d by lia.
  unfold peerVals. rewrite rowVals_vals, colVals_vals, blockVals_vals.
  now rewrite !existsb_app, orb_assoc.
Qed.

Lemma asc_candidates s r c :
  masksOK s -> wfBoard (board s) -> (r < 9)%nat -> (c < 9)%nat ->
  ascDigits (candidatesMask s r c) = candidateDigits (board s) r c.
Proof.
  intros Hm Hw Hr Hc. unfold ascDigits, candidateDigits.
  apply filter_ext_in. intros d Hd. apply in_digits19 in Hd.
  unfold candidatesMask.
  rewrite Z.land_spec, Z.lnot_spec, testbit_511, andb_true_r by lia.
  now rewrite testbit_used by (auto; lia).
Qed.

Lemma candidate_bits s r c d :
  masksOK s -> wfBoard (board s) -> (r < 9)%nat -> (c < 9)%nat ->
  In d (candidateDigits (board s) r c) ->
  Z.testbit (nth r (rowMask s) 0) (d - 1) = false /\
  Z.testbit (nth c (colMask s) 0) (d - 1) = false /\
  Z.testbit (nth (blockIndex r c) (blockMask s) 0) (d - 1) = false.
Proof.
  intros Hm Hw Hr Hc Hd. unfold candidateDigits in Hd.
  apply filter_In in Hd as [Hd H]. apply in_digits19 in Hd.
  apply negb_true_iff in H.
  rewrite <- (testbit_used s r c d) in H by (auto; lia).
  rewrite !Z.lor_spec in H. apply orb_false_iff in H as [H H3].
  apply orb_false_iff in H as [H1 H2]. auto.
Qed.

Lemma in_blockCells_iff r c j :
  (r < 9)%nat -> (c < 9)%nat -> (j < 9)%nat ->
  In (r, c) (blockCells j) <-> j = blockIndex r c.
Proof.
  intros Hr Hc Hj. split.
  - intro H. apply in_blockCells in H; auto. symmetry. tauto.
  - intros ->. now apply in_blockCells_self.
Qed.

Lemma place_masksOK s r c d :
  masksOK s -> wfBoard (board s) -> (r < 9)%nat -> (c < 9)%nat ->
  cell (board s) r c = 0 -> 1 <= d <= 9 ->
  masksOK (place s r c d).
Proof.
  intros Hm Hw Hr Hc Hz Hd. destruct Hm as (H1 & H2 & H3).
  unfold masksOK, masksDescribe, place. simpl. repeat split.
  - apply (unitMasks_place rowCells r (board s) (rowMask s) r c d); auto.
    intros j Hj. rewrite in_rowCells. intuition auto.
  - apply (unitMasks_place colCells c (board s) (colMask s) r c d); auto.
    intros j Hj. rewrite in_colCells. intuition auto.
  - apply (unitMasks_place blockCells (blockIndex r c) (board s) (blockMask s) r c d);
      auto using blockIndex_lt.
    intros j Hj. now apply in_blockCells_iff.
Qed.

Lemma place_Inv s r c d :
  Inv s -> In (r, c) (empties s) -> cell (board s) r c = 0 ->
  In d (candidateDigits (board s) r c) ->
  Inv (place s r c d).
Proof.
  intros [Hb Hm] Hin Hz Hd.
  destruct (sinv_range _ _ Hb r c Hin) as [Hr Hc].
  pose proof (proj1 (in_candidateDigits _ r c d Hr Hc) Hd) as [Hd19 _].
  constructor.
  - simpl. now apply SInv_put.
  - apply place_masksOK; auto. apply Hb.
Qed.

Lemma unplace_place s r c d :
  Inv s -> (r < 9)%nat -> (c < 9)%nat -> cell (board s) r c = 0 ->
  In d (candidateDigits (board s) r c) ->
  unplace (place s r c d) r c d = s.
Proof.
  intros [Hb Hm] Hr Hc Hz Hd.
  pose proof (proj1 (in_candidateDigits _ r c d Hr Hc) Hd) as [Hd19 _].
  destruct (candidate_bits s r c d Hm (sinv_wf _ _ Hb) Hr Hc Hd) as (B1 & B2 & B3).
  destruct (masksOK_lengths s Hm) as (L1 & L2 & L3).
  pose proof (sinv_wf _ _ Hb) as Hw.
  destruct s as [b rm cm bm es]. unfold unplace, place. simpl in *.
  f_equal.
  - now apply put_undo.
  - apply unitMasks_unplace; auto; lia.
  - apply unitMasks_unplace; auto; lia.
  - apply unitMasks_unplace; auto using blockIndex_lt; lia.
Qed.

(* ================================================================== *)
(** ** The scan of the code is the scan of the specification *)

Lemma scanFrom_refines s es0 :
  masksOK s -> wfBoard (board s) ->
  (forall r c, In (r, c) es0 -> (r < 9)%nat /\ (c < 9)%nat) ->
  forall es pre i best best',
    es0 = pre ++ es -> i = Z.of_nat (length pre) ->
    bestRel es0 best best' ->
    scanRel es0 (scanFrom s es i best) (specScanFrom (board s) es best').
Proof.
  intros Hm Hw Hrange.
  induction es as [|[r c] es IH]; intros pre i best best' Hes Hi Hbest.
  - simpl. destruct best' as [[[r0 c0] ds0]|]; simpl in *; tauto.
  - assert (es0 = (pre ++ [(r, c)]) ++ es) as Hes' by (now rewrite <- app_assoc).
    assert (i + 1 = Z.of_nat (length (pre ++ [(r, c)]))) as Hi'
      by (rewrite length_app; simpl; lia).
    assert (nth (Z.to_nat i) es0 (0%nat, 0%nat) = (r, c)) as Hnth.
    { rewrite Hes, Hi, Nat2Z.id. apply nth_middle. }
    assert ((r < 9)%nat /\ (c < 9)%nat) as [Hr Hc].
    { apply Hrange. rewrite Hes. apply in_elt. }
    simpl. destruct (cell (board s) r c =? 0) eqn:Ez; simpl.
    2: { apply (IH _ _ _ _ Hes' Hi' Hbest). }
    rewrite <- (asc_candidates s r c Hm Hw Hr Hc).
    pose proof (candidatesMask_range s r c) as Hmr.
    destruct (mask_facts _ Hmr) as (_ & Hpop & Hzero).
    set (mask := candidatesMask s r c) in *.
    destruct (Z.eqb_spec mask 0) as [E0|E0].
    { apply Hzero in E0. rewrite E0. exact I. }
    destruct (ascDigits mask) as [|d0 ds0] eqn:Eds; [tauto|].
    rewrite <- Eds in *.
    assert ((popcount mask <? snd (fst best)) = fewer (length (ascDigits mask)) best') as Hf.
    { destruct best' as [[[r1 c1] ds1]|]; simpl in *.
      - destruct Hbest as (_ & _ & _ & -> & _). rewrite Hpop.
        destruct (Nat.ltb_spec (length (ascDigits mask)) (length ds1));
          [apply Z.ltb_lt | apply Z.ltb_ge]; lia.
      - destruct Hbest as (_ & ->). rewrite Hpop. apply Z.ltb_lt.
        pose proof (length_ascDigits mask). lia. }
    assert ((popcount mask =? 1) = (length (ascDigits mask) =? 1)%nat) as H1.
    { rewrite Hpop.
      destruct (Nat.eqb_spec (length (ascDigits mask)) 1);
        [apply Z.eqb_eq | apply Z.eqb_neq]; lia. }
    rewrite Hf, H1.
    assert (bestRel es0 (i, popcount mask, mask) (Some (r, c, ascDigits mask))) as Hnew.
    { simpl. repeat split; auto; lia. }
    destruct (fewer _ _).
    + destruct (_ =? _)%nat.
      * simpl. repeat split; auto; lia.
      * apply (IH _ _ _ _ Hes' Hi' Hnew).
    + apply (IH _ _ _ _ Hes' Hi' Hbest).
Qed.

Lemma scan_refines s :
  Inv s -> scanRel (empties s) (scan s) (specScan (board s) (empties s)).
Proof.
  intros [Hb Hm]. unfold scan, specScan.
  apply (scanFrom_refines s (empties s) Hm (sinv_wf _ _ Hb) (sinv_range _ _ Hb)
           (empties s) [] 0 _ None); auto.
  simpl. auto.
Qed.

(* ================================================================== *)
(** ** [dfs] counts the solutions of the specification's search *)

Lemma absorb_nil limit q : absorb limit q [] = q.
Proof.
  unfold absorb. destruct (Z.geb_spec (outCount q) limit) as [H|H]; auto.
  destruct q as [n [sb|]]; simpl in *; f_equal; lia.
Qed.

Lemma absorb_full limit q l : limit <= outCount q -> absorb limit q l = q.
Proof.
  intro H. unfold absorb. destruct (Z.geb_spec (outCount q) limit); auto. lia.
Qed.

Lemma absorb_app limit q l1 l2 :
  absorb limit (absorb limit q l1) l2 = absorb limit q (l1 ++ l2).
Proof.
  unfold absorb at 2 3.
  destruct (Z.geb_spec (outCount q) limit) as [H|H].
  - now apply absorb_full.
  - unfold absorb. simpl.
    destruct (Z.geb_spec (Z.min limit (outCount q + Z.of_nat (length l1))) limit) as [H1|H1].
    + f_equal.
      * rewrite length_app. lia.
      * destruct l1; simpl in *; [lia|reflexivity].
    + f_equal.
      * rewrite length_app. lia.
      * destruct (savedBoard q); auto. destruct l1; auto.
Qed.

Lemma absorb_one limit q b :
  outCount q < limit ->
  absorb limit q [b] =
  mkSearch (outCount q + 1)
    (match savedBoard q with None => Some b | Some sb => Some sb end).
Proof.
  intro H. unfold absorb. destruct (Z.geb_spec (outCount q) limit); [lia|].
  simpl. f_equal. lia.
Qed.

Lemma maskDigits_step k m :
  m <> 0 ->
  maskDigits (S k) m =
  match maskDigits k (m - Z.land m (- m)) with
  | Some ds => Some ((ctz (Z.land m (- m)) + 1) :: ds)
  | None => None
  end.
Proof.
  intro H. simpl. destruct (Z.eqb_spec m 0); [contradiction|reflexivity].
Qed.

Section TryDigits.

Variable rec : Solver -> Search -> option Outcome.
Variable limit : Z.
Variables r c : nat.
Variable F : Z -> list Board.
Variable s : Solver.
Variable cands : list Z.

Hypothesis rec_ok : forall d, In d cands -> forall q, exists log,
  rec (place s r c d) q =
    Some (outCount (absorb limit q (F d)) >=? limit, place s r c d,
          absorb limit q (F d), log) /\
  Forall Inv log.
Hypothesis undo_ok : forall d, In d cands -> unplace (place s r c d) r c d = s.
Hypothesis placed_ok : forall d, In d cands -> Inv (place s r c d).
Hypothesis here_ok : Inv s.

Lemma tryDigits_spec k : forall m ds q,
  maskDigits k m = Some ds -> incl ds cands -> outCount q < limit ->
  exists log,
    tryDigits rec limit r c k m s q =
      Some (outCount (absorb limit q (flat_map F ds)) >=? limit, s,
            absorb limit q (flat_map F ds), log) /\
    Forall Inv log.
Proof.
  induction k as [|k IH]; intros m ds q Hds Hincl Hq.
  - simpl in *. destruct (Z.eqb_spec m 0); [|discriminate].
    inversion Hds; subst ds. simpl. rewrite absorb_nil.
    exists []. split; [|constructor].
    destruct (Z.geb_spec (outCount q) limit); [lia|reflexivity].
  - destruct (Z.eq_dec m 0) as [E|E].
    + subst m. simpl in *. inversion Hds; subst ds. simpl. rewrite absorb_nil.
      exists []. split; [|constructor].
      destruct (Z.geb_spec (outCount q) limit); [lia|reflexivity].
    + rewrite maskDigits_step in Hds by auto.
      destruct (maskDigits k (m - Z.land m (- m))) as [ds'|] eqn:Eds; [|discriminate].
      inversion Hds; subst ds. clear Hds.
      set (d := ctz (Z.land m (- m)) + 1) in *.
      assert (In d cands) as Hd by (apply Hincl; now left).
      assert (incl ds' cands) as Hincl' by (intros x Hx; apply Hincl; now right).
      destruct (rec_ok d Hd q) as [log1 [Hrec Hlog1]].
      cbn [tryDigits].
      destruct (Z.eqb_spec m 0); [contradiction|].
      destruct (Z.ltb_spec (outCount q) limit); [|lia].
      cbn [orb negb]. fold d. rewrite Hrec, (undo_ok d Hd).
      cbn [flat_map]. rewrite <- absorb_app.
      set (q1 := absorb limit q (F d)) in *.
      destruct (Z.geb_spec (outCount q1) limit) as [Hstop|Hgo].
      * rewrite absorb_full by lia.
        destruct (Z.geb_spec (outCount q1) limit); [|lia].
        eexists. split; [reflexivity|].
        constructor; auto. apply Forall_app. split; auto.
      * destruct (IH _ _ q1 Eds Hincl' Hgo) as [log2 [Hrest Hlog2]].
        rewrite Hrest. eexists. split; [reflexivity|].
        constructor; auto. apply Forall_app. split; auto.
Qed.

End TryDigits.

Lemma dfs_spec limit fuel : forall s q,
  Inv s -> (zeros (board s) < fuel)%nat ->
  exists log,
    dfs fuel limit s q =
      Some (outCount (absorb limit q (specSearch fuel (empties s) (board s))) >=? limit,
            s, absorb limit q (specSearch fuel (empties s) (board s)), log) /\
    Forall Inv log.
Proof.
  induction fuel as [|fuel IH]; intros s q Hinv Hfuel; [lia|].
  cbn [dfs specSearch].
  destruct (Z.geb_spec (outCount q) limit) as [Hfull|Hq].
  { rewrite absorb_full by lia. exists []. split; [|constructor].
    destruct (Z.geb_spec (outCount q) limit); [reflexivity|lia]. }
  pose proof (scan_refines s Hinv) as Hscan.
  destruct (scan s) as [[[bestIdx bestCount] bestMask]|];
    destruct (specScan (board s) (empties s)) as [| |r c ds] eqn:Espec;
    simpl in Hscan; try contradiction.
  - subst bestIdx. simpl. rewrite absorb_one by lia.
    exists []. split; [reflexivity|constructor].
  - destruct Hscan as (Hidx & Hnth & -> & Hrange).
    destruct (Z.eqb_spec bestIdx (-1)); [lia|].
    rewrite Hnth. cbn [fst snd].
    apply specScan_branch in Espec as (Hin & Hz & Hcand & _).
    destruct (sinv_range _ _ (inv_board _ Hinv) r c Hin) as [Hr Hc].
    apply (tryDigits_spec (dfs fuel limit) limit r c
             (fun d => specSearch fuel (empties s) (put (board s) r c d))
             s (ascDigits bestMask)).
    + intros d Hd q0. rewrite Hcand in Hd.
      pose proof (proj1 (in_candidateDigits _ r c d Hr Hc) Hd) as [Hd19 _].
      apply (IH (place s r c d) q0).
      * now apply place_Inv.
      * simpl. rewrite (zeros_put (board s) r c d) in Hfuel;
          auto; try lia. apply Hinv.
    + intros d Hd. rewrite Hcand in Hd. now apply unplace_place.
    + intros d Hd. rewrite Hcand in Hd. now apply place_Inv.
    + exact Hinv.
    + now apply mask_facts.
    + apply incl_refl.
    + lia.
  - rewrite absorb_nil. exists []. split; [|constructor].
    destruct (Z.geb_spec (outCount q) limit); [lia|reflexivity].
Qed.

(* ================================================================== *)
(** ** [loadBoard] *)

Lemma fill_snoc b seen r c :
  fill b (seen ++ [(r, c)]) = put (fill b seen) r c (cell b r c).
Proof. unfold fill. now rewrite fold_left_app. Qed.

Lemma fill_props b seen :
  wfBoard b -> (forall r c, In (r, c) seen -> (r < 9)%nat /\ (c < 9)%nat) ->
  wfBoard (fill b seen) /\
  forall r c, (r < 9)%nat -> (c < 9)%nat ->
    cell (fill b seen) r c = if in_dec pos_eq_dec (r, c) seen then cell b r c else 0.
Proof.
  intros Hw. induction seen as [|[r0 c0] seen IH] using rev_ind; intros Hrange.
  - split; [apply wfBoard_empty|]. intros r c Hr Hc. simpl.
    do 9 (destruct r as [|r]; [do 9 (destruct c as [|c]; [reflexivity|]); lia|]). lia.
  - destruct IH as [IHw IHc].
    { intros r c Hin. apply Hrange. apply in_or_app. now left. }
    destruct (Hrange r0 c0) as [Hr0 Hc0]; [apply in_or_app; right; now left|].
    rewrite fill_snoc. split.
    + apply wfBoard_put; auto. apply wfBoard_cell; auto.
    + intros r c Hr Hc. rewrite cell_put by auto.
      destruct (pos_eq_dec (r0, c0) (r, c)) as [E|E].
      * inversion E; subst.
        destruct (in_dec pos_eq_dec (r, c) (seen ++ [(r, c)])) as [|n]; auto.
        exfalso. apply n. apply in_or_app. right. now left.
      * rewrite IHc by auto.
        destruct (in_dec pos_eq_dec (r, c) seen) as [i|n];
          destruct (in_dec pos_eq_dec (r, c) (seen ++ [(r0, c0)])) as [i'|n']; auto.
        -- exfalso. apply n'. apply in_or_app. now left.
        -- exfalso. apply in_app_or in i' as [?|[X|[]]]; [contradiction|congruence].
Qed.

Lemma fill_all b : wfBoard b -> fill b allCells = b.
Proof.
  intro Hw.
  destruct (fill_props b allCells Hw) as [Hwf Hc].
  { intros r c. apply in_allCells. }
  apply board_ext; auto. intros r c Hr Hcc. rewrite Hc by auto.
  destruct (in_dec pos_eq_dec (r, c) allCells) as [|n]; auto.
  exfalso. apply n. now apply in_allCells.
Qed.

Lemma check_unit masks b (U : nat -> list (nat * nat)) idx v :
  masks = map (fun j => unionBits (vals b (U j))) (seq 0 9) ->
  wfBoard b -> (idx < 9)%nat -> 1 <= v ->
  (Z.land (nth idx masks 0) (bitOf v) =? 0) = negb (existsb (Z.eqb v) (vals b (U idx))).
Proof.
  intros -> Hw Hidx Hv. rewrite land_bitOf_zero by auto. f_equal.
  rewrite nth_map_seq9 by auto.
  rewrite testbit_unionBits by (auto using vals_nonneg; lia).
  now replace (v - 1 + 1) with v by lia.
Qed.

Lemma seen_conflict b seen r c r' c' :
  wfBoard b -> (forall r c, In (r, c) seen -> (r < 9)%nat /\ (c < 9)%nat) ->
  (r < 9)%nat -> (c < 9)%nat -> (r' < 9)%nat -> (c' < 9)%nat ->
  ~ In (r, c) seen -> cell b r c <> 0 ->
  peerb r c r' c' = true -> cell (fill b seen) r' c' = cell b r c ->
  hasConflict b.
Proof.
  intros Hw Hrange Hr Hc Hr' Hc' Hnotin Hv Hp E.
  destruct (fill_props b seen Hw Hrange) as [_ Hcell].
  rewrite Hcell in E by auto.
  destruct (in_dec pos_eq_dec (r', c') seen) as [i|n]; [|congruence].
  exists r, c, r', c'. repeat split; auto.
  intro X. inversion X; subst. contradiction.
Qed.

Lemma markCells_spec b :
  wfBoard b ->
  forall cs seen s,
    allCells = seen ++ cs -> board s = b ->
    masksDescribe (fill b seen) (rowMask s) (colMask s) (blockMask s) ->
    noConflict (fill b seen) ->
    (fst (markCells s cs) = true ->
       board (snd (markCells s cs)) = b /\
       empties (snd (markCells s cs)) = empties s /\
       masksOK (snd (markCells s cs)) /\ noConflict b) /\
    (fst (markCells s cs) = false -> hasConflict b).
Proof.
  intros Hw. induction cs as [|[r c] cs IH]; intros seen s Hall Hb Hm Hn.
  - rewrite app_nil_r in Hall. subst seen. rewrite (fill_all b Hw) in *.
    simpl. split; [|discriminate]. intros _. unfold masksOK. rewrite Hb. auto.
  - assert (forall r c, In (r, c) seen -> (r < 9)%nat /\ (c < 9)%nat) as Hrange.
    { intros r' c' Hin. apply in_allCells. rewrite Hall. apply in_or_app. now left. }
    assert ((r < 9)%nat /\ (c < 9)%nat) as [Hr Hc].
    { apply in_allCells. rewrite Hall. apply in_elt. }
    assert (~ In (r, c) seen) as Hnotin.
    { pose proof NoDup_allCells as Hnd. rewrite Hall in Hnd.
      apply NoDup_remove_2 in Hnd. intro X. apply Hnd. apply in_or_app. now left. }
    destruct (fill_props b seen Hw Hrange) as [Hwf Hcell].
    assert (cell (fill b seen) r c = 0) as Hz.
    { rewrite Hcell by auto. destruct (in_dec pos_eq_dec (r, c) seen); tauto. }
    assert (allCells = (seen ++ [(r, c)]) ++ cs) as Hall' by (now rewrite <- app_assoc).
    cbn [markCells]. rewrite Hb.
    destruct (Z.eqb_spec (cell b r c) 0) as [E0|E0].
    { apply (IH (seen ++ [(r, c)])); auto.
      - rewrite fill_snoc, E0, <- Hz. now rewrite put_same.
      - rewrite fill_snoc, E0, <- Hz. now rewrite put_same. }
    pose proof (wfBoard_cell b r c Hw) as Hv.
    set (v := cell b r c) in *.
    destruct Hm as (M1 & M2 & M3).
    rewrite (check_unit _ _ rowCells r v M1), (check_unit _ _ colCells c v M2),
      (check_unit _ _ blockCells (blockIndex r c) v M3)
      by (auto using blockIndex_lt; lia).
    rewrite !negb_involutive.
    destruct (existsb (Z.eqb v) (vals (fill b seen) (rowCells r))) eqn:E1.
    { simpl. split; [discriminate|]. intros _.
      rewrite <- rowVals_vals in E1.
      apply existsb_eqb_In, in_rowVals in E1 as [c' [Hc' E1]].
      apply (seen_conflict b seen r c r c'); auto.
      apply peerb_cases. auto. }
    destruct (existsb (Z.eqb v) (vals (fill b seen) (colCells c))) eqn:E2.
    { simpl. split; [discriminate|]. intros _.
      rewrite <- colVals_vals in E2.
      apply existsb_eqb_In, in_colVals in E2 as [r' [Hr' E2]].
      apply (seen_conflict b seen r c r' c); auto.
      apply peerb_cases. auto. }
    destruct (existsb (Z.eqb v) (vals (fill b seen) (blockCells (blockIndex r c)))) eqn:E3.
    { simpl. split; [discriminate|]. intros _.
      apply existsb_eqb_In in E3.
      apply (in_blockVals _ _ _ (blockIndex_lt r c Hr Hc)) in E3
        as (r' & c' & Hr' & Hc' & Hbi & E3).
      apply (seen_conflict b seen r c r' c'); auto.
      apply peerb_cases. auto. }
    assert (In v (candidateDigits (fill b seen) r c)) as Hcand.
    { unfold candidateDigits. apply filter_In. split; [apply in_digits19; lia|].
      unfold peerVals. rewrite rowVals_vals, colVals_vals, blockVals_vals.
      now rewrite !existsb_app, E1, E2, E3. }
    set (sf := mkSolver (fill b seen) (rowMask s) (colMask s) (blockMask s) (empties s)).
    assert (masksOK (place sf r c v)) as Hplace.
    { apply place_masksOK; auto; try lia. repeat split; auto. }
    unfold masksOK, masksDescribe, place in Hplace.
    cbn [board rowMask colMask blockMask sf] in Hplace.
    destruct Hplace as (P1 & P2 & P3).
    cbn [negb].
    specialize (IH (seen ++ [(r, c)])
      (mkSolver b
         (upd (rowMask s) r (Z.lor (nth r (rowMask s) 0) (bitOf v)))
         (upd (colMask s) c (Z.lor (nth c (colMask s) 0) (bitOf v)))
         (upd (blockMask s) (blockIndex r c)
            (Z.lor (nth (blockIndex r c) (blockMask s) 0) (bitOf v)))
         (empties s)) Hall' eq_refl).
    cbn [board rowMask colMask blockMask empties] in IH. apply IH.
    + rewrite fill_snoc. fold v. repeat split; auto.
    + rewrite fill_snoc. fold v. now apply noConflict_put.
Qed.

Lemma masksDescribe_empty : masksDescribe emptyBoard zeroMasks zeroMasks zeroMasks.
Proof. repeat split. Qed.

Lemma noConflict_empty : noConflict emptyBoard.
Proof. apply noConflict_spec. vm_compute. reflexivity. Qed.

(** [loadBoard] succeeds exactly on the boards without a conflict, and then
    hands over a solver in its invariant. *)
Lemma loadBoard_spec s0 b :
  wfBoard b ->
  (fst (loadBoard s0 b) = true ->
     noConflict b /\ Inv (snd (loadBoard s0 b)) /\
     board (snd (loadBoard s0 b)) = b /\
     empties (snd (loadBoard s0 b)) = collectEmpties b) /\
  (fst (loadBoard s0 b) = false -> hasConflict b).
Proof.
  intro Hw. unfold loadBoard. cbn [reset rowMask colMask blockMask empties].
  pose proof (markCells_spec b Hw allCells []
                (mkSolver b zeroMasks zeroMasks zeroMasks [])
                eq_refl eq_refl masksDescribe_empty noConflict_empty) as [Ht Hf].
  destruct (markCells (mkSolver b zeroMasks zeroMasks zeroMasks []) allCells)
    as [ok s'] eqn:E.
  cbn [fst snd empties] in Ht, Hf. destruct ok; cbn [fst snd].
  - split; [|discriminate]. intros _.
    destruct (Ht eq_refl) as (Hb & He & Hm & Hn).
    split; [exact Hn|]. split; [|split].
    + constructor; cbn [board empties rowMask colMask blockMask].
      * rewrite Hb, He. cbn [app]. constructor; auto.
        -- intros r c Hr Hc Hz. apply in_collectEmpties. auto.
        -- intros r c Hin. apply in_collectEmpties in Hin. split; apply Hin.
      * destruct s'; exact Hm.
    + cbn [board]. exact Hb.
    + cbn [empties board]. rewrite He, Hb. reflexivity.
  - split; [discriminate|]. intros _. apply Hf. reflexivity.
Qed.

(** The loaded solver does not depend on what the object held before. *)
Lemma loadBoard_fresh s0 s1 b : loadBoard s0 b = loadBoard s1 b.
Proof. unfold loadBoard, reset. reflexivity. Qed.

(** From here on [loadBoard] is used through its specification only. *)
Opaque loadBoard.

Lemma loadBoard_true_iff s0 b :
  wfBoard b -> (fst (loadBoard s0 b) = true <-> noConflict b).
Proof.
  intro Hw. destruct (loadBoard_spec s0 b Hw) as [Ht Hf]. split.
  - intro H. apply Ht. exact H.
  - intro Hn. destruct (fst (loadBoard s0 b)) eqn:E; [reflexivity|].
    exfalso. apply Hn. apply Hf. reflexivity.
Qed.

(* ================================================================== *)
(** ** [solve] *)

Lemma zeros_lt_depth b : (zeros b < depthBound)%nat.
Proof. pose proof (zeros_le b). unfold depthBound. lia. Qed.

Lemma runDfs_spec limit s :
  Inv s ->
  exists stop log,
    runDfs limit s =
      Some (stop, s,
            absorb limit (mkSearch 0 None)
              (specSearch depthBound (empties s) (board s)), log) /\
    Forall Inv log.
Proof.
  intro Hinv. unfold runDfs.
  destruct (dfs_spec limit depthBound s (mkSearch 0 None) Hinv (zeros_lt_depth _))
    as [log [H Hlog]].
  eauto.
Qed.

Lemma solve_spec limit s :
  Inv s ->
  let found := specSearch depthBound (empties s) (board s) in
  solve limit s =
    Some (capped limit (length found) >=? 1, capped limit (length found),
          if limit <=? 0 then s
          else match found with
               | [] => s
               | first :: _ => withBoard s first
               end).
Proof.
  intros Hinv found. unfold solve.
  destruct (runDfs_spec limit s Hinv) as (stop & log & H & _).
  rewrite H. fold found. unfold absorb, capped. cbn [outCount savedBoard].
  destruct (Z.geb_spec 0 limit) as [Hl|Hl];
    destruct (Z.leb_spec limit 0) as [Hl'|Hl']; try lia.
  - reflexivity.
  - cbn [outCount savedBoard]. rewrite Z.add_0_l.
    destruct found; reflexivity.
Qed.

Lemma list_single {A} (l : list A) (x : A) :
  NoDup l -> In x l -> (forall y, In y l -> y = x) -> l = [x].
Proof.
  intros Hnd Hin Hall. destruct l as [|a [|b t]].
  - contradiction.
  - f_equal. apply Hall. now left.
  - exfalso. inversion Hnd as [|? ? Hn _]; subst. apply Hn.
    rewrite (Hall a) by (now left). rewrite (Hall b) by (right; now left).
    now left.
Qed.

Lemma list_two {A} (l : list A) (x y : A) :
  In x l -> In y l -> x <> y -> (2 <= length l)%nat.
Proof.
  intros Hx Hy Hne. destruct l as [|a [|b t]].
  - destruct Hx.
  - destruct Hx as [<-|[]], Hy as [<-|[]]. contradiction.
  - simpl. lia.
Qed.

(** After a successful load the search of the specification lists exactly
    the solutions of the board, each once. *)
Lemma mrvSolutions_spec b :
  wfBoard b -> noConflict b ->
  NoDup (mrvSolutions b) /\ forall s, In s (mrvSolutions b) <-> isSolution b s.
Proof.
  intros Hw Hn.
  assert (SInv (collectEmpties b) b) as Hinv.
  { constructor; auto.
    - intros r c Hr Hc Hz. now apply in_collectEmpties.
    - intros r c Hin. apply in_collectEmpties in Hin. tauto. }
  unfold mrvSolutions. split.
  - now apply specSearch_NoDup.
  - intro s. split.
    + now apply specSearch_sound.
    + apply specSearch_complete; auto. apply zeros_lt_depth.
Qed.

Lemma solve_loaded s0 b limit :
  wfBoard b -> fst (loadBoard s0 b) = true ->
  let s := snd (loadBoard s0 b) in
  solve limit s =
    Some (capped limit (length (mrvSolutions b)) >=? 1,
          capped limit (length (mrvSolutions b)),
          if limit <=? 0 then s
          else match mrvSolutions b with
               | [] => s
               | first :: _ => withBoard s first
               end).
Proof.
  intros Hw Hload s.
  destruct (loadBoard_spec s0 b Hw) as [Ht _].
  destruct (Ht Hload) as (Hn & Hinv & Hb & He).
  pose proof (solve_spec limit s Hinv) as H. cbv zeta in H.
  fold s in Hb, He. rewrite Hb, He in H. exact H.
Qed.

(** Counting with limit two tells "none", "one" and "several" apart. *)
Lemma count_unique b sol :
  wfBoard b -> noConflict b ->
  isSolution b sol -> (forall s', isSolution b s' -> s' = sol) ->
  mrvSolutions b = [sol].
Proof.
  intros Hw Hn Hsol Huniq.
  destruct (mrvSolutions_spec b Hw Hn) as [Hnd Hiff].
  apply list_single; auto.
  - now apply Hiff.
  - intros y Hy. apply Huniq. now apply Hiff.
Qed.

Lemma count_none b :
  wfBoard b -> noConflict b -> (forall s, ~ isSolution b s) -> mrvSolutions b = [].
Proof.
  intros Hw Hn Hno.
  destruct (mrvSolutions_spec b Hw Hn) as [_ Hiff].
  destruct (mrvSolutions b) as [|x l]; auto.
  exfalso. apply (Hno x). apply Hiff. now left.
Qed.

Lemma count_many b s1 s2 :
  wfBoard b -> noConflict b -> isSolution b s1 -> isSolution b s2 -> s1 <> s2 ->
  (2 <= length (mrvSolutions b))%nat.
Proof.
  intros Hw Hn H1 H2 Hne.
  destruct (mrvSolutions_spec b Hw Hn) as [_ Hiff].
  apply (list_two _ s1 s2); auto; now apply Hiff.
Qed.

(** Converses, read off a computed count. *)
Lemma unique_of_count_one s0 b :
  wfBoard b -> fst (loadBoard s0 b) = true ->
  (exists ok s', solve 2 (snd (loadBoard s0 b)) = Some (ok, 1, s')) ->
  exists sol, isSolution b sol /\ forall s', isSolution b s' -> s' = sol.
Proof.
  intros Hw Hload (ok & s' & Hsolve).
  rewrite (solve_loaded s0 b 2 Hw Hload) in Hsolve.
  destruct (loadBoard_spec s0 b Hw) as [Ht _]. destruct (Ht Hload) as (Hn & _).
  destruct (mrvSolutions_spec b Hw Hn) as [Hnd Hiff].
  inversion Hsolve as [[H1 H2 H3]]. unfold capped in H2. simpl in H2.
  destruct (mrvSolutions b) as [|x [|y l]] eqn:E; simpl in H2; try lia.
  exists x. split.
  - apply Hiff. now left.
  - intros y Hy. apply Hiff in Hy as [<-|[]]. reflexivity.
Qed.

Lemma none_of_count_zero s0 b :
  wfBoard b -> fst (loadBoard s0 b) = true ->
  (exists ok s', solve 2 (snd (loadBoard s0 b)) = Some (ok, 0, s')) ->
  forall s, ~ isSolution b s.
Proof.
  intros Hw Hload (ok & s' & Hsolve) s Hs.
  rewrite (solve_loaded s0 b 2 Hw Hload) in Hsolve.
  destruct (loadBoard_spec s0 b Hw) as [Ht _]. destruct (Ht Hload) as (Hn & _).
  destruct (mrvSolutions_spec b Hw Hn) as [Hnd Hiff].
  inversion Hsolve as [[H1 H2 H3]]. unfold capped in H2. simpl in H2.
  apply Hiff in Hs.
  destruct (mrvSolutions b) as [|x l] eqn:E; [contradiction|].
  simpl in H2. lia.
Qed.

(* ================================================================== *)
(** ** Solved boards: every unit holds every digit once *)

Lemma units_ok_b :
  forallb (fun k => unitOKb (rowCells k) && unitOKb (colCells k) && unitOKb (blockCells k))
          (seq 0 9) = true.
Proof. vm_compute. reflexivity. Qed.

Lemma unit_eachOnce b u :
  unitOKb u = true -> wfBoard b -> complete b -> noConflict b ->
  eachOnce (vals b u).
Proof.
  intros Hu Hw Hc Hn. unfold unitOKb in Hu.
  apply andb_true_iff in Hu as [Hu Hpeer]. apply andb_true_iff in Hu as [Hu Hrange].
  apply andb_true_iff in Hu as [Hlen Hnd]. apply Nat.eqb_eq in Hlen.
  rewrite forallb_forall in Hnd, Hrange, Hpeer.
  assert (NoDup u) as Hndu.
  { apply (NoDup_count_occ' pos_eq_dec). intros x Hx. now apply Nat.eqb_eq, Hnd. }
  assert (forall p, In p u -> (fst p < 9)%nat /\ (snd p < 9)%nat) as Hr.
  { intros p Hp. specialize (Hrange p Hp). apply andb_true_iff in Hrange as [H1 H2].
    now apply Nat.ltb_lt in H1, H2. }
  assert (NoDup (vals b u)) as Hndv.
  { unfold vals. apply NoDup_map_NoDup_ForallPairs; auto.
    intros [r1 c1] [r2 c2] H1 H2 E. simpl in E.
    destruct (pos_eq_dec (r1, c1) (r2, c2)) as [|Hne]; auto. exfalso.
    destruct (Hr _ H1), (Hr _ H2). simpl in *.
    apply (noConflict_cells b r1 c1 r2 c2 Hn); auto.
    pose proof (Hpeer _ H1) as Hp. rewrite forallb_forall in Hp. exact (Hp _ H2). }
  assert (incl digits19 (vals b u)) as Hincl.
  { apply NoDup_length_incl; auto.
    - unfold vals. rewrite length_map, Hlen. simpl. lia.
    - intros v Hv. unfold vals in Hv. apply in_map_iff in Hv as [[r c] [<- Hin]].
      destruct (Hr _ Hin). simpl in *. apply in_digits19.
      pose proof (wfBoard_cell b r c Hw). specialize (Hc r c). lia. }
  intros d Hd.
  assert (In d (vals b u)) as Hin by (apply Hincl; now apply in_digits19).
  apply (count_occ_In Z.eq_dec) in Hin.
  pose proof (proj1 (NoDup_count_occ Z.eq_dec (vals b u)) Hndv d). lia.
Qed.

Lemma solved_of_complete b :
  wfBoard b -> complete b -> noConflict b -> solvedBoard b.
Proof.
  intros Hw Hc Hn. split; auto. intros k Hk.
  pose proof units_ok_b as H. rewrite forallb_forall in H.
  specialize (H k (proj2 (in_seq9 k) Hk)).
  apply andb_true_iff in H as [H H3]. apply andb_true_iff in H as [H1 H2].
  rewrite rowVals_vals, colVals_vals, blockVals_vals.
  repeat split; apply unit_eachOnce; auto.
Qed.

Lemma sampleSolution_ok : isSolution emptyBoard sampleSolution.
Proof. apply isSolutionb_spec. vm_compute. reflexivity. Qed.

(* ================================================================== *)
(** ** The generator *)

Lemma genScanFrom_eq s es : forall i best,
  genScanFrom s es i best = scanFrom s es i best.
Proof.
  induction es as [|[r c] es IH]; intros i best; simpl; auto.
  destruct (negb (cell (board s) r c =? 0)); auto.
  pose proof (candidatesMask_range s r c) as Hr.
  destruct (mask_facts _ Hr) as (_ & Hpop & Hzero).
  assert ((popcount (candidatesMask s r c) =? 0) = (candidatesMask s r c =? 0)) as ->.
  { rewrite Hpop. destruct (Z.eqb_spec (candidatesMask s r c) 0) as [E|E].
    - apply Hzero in E. rewrite E. reflexivity.
    - apply Z.eqb_neq. intro X. apply E, Hzero.
      destruct (ascDigits (candidatesMask s r c)); [reflexivity|simpl in X; lia]. }
  destruct (candidatesMask s r c =? 0); auto.
  destruct (_ <? _); auto. destruct (_ =? 1); auto.
Qed.

Lemma genScan_eq s : genScan s = scan s.
Proof. apply genScanFrom_eq. Qed.

Lemma extends_put b b' r c d :
  wfBoard b -> (r < 9)%nat -> (c < 9)%nat -> cell b r c = 0 ->
  extends (put b r c d) b' -> extends b b'.
Proof.
  intros Hw Hr Hc Hz He r' c' Hr' Hc' Hnz.
  assert ((r, c) <> (r', c')) as Hne by (intro X; inversion X; subst; contradiction).
  rewrite <- (cell_put_ne b r c d r' c') by auto.
  apply He; auto. now rewrite cell_put_ne.
Qed.

Section GeneratorProofs.

Variable Rng : Type.
Variable shuffle : forall A : Type, list A -> Rng -> list A * Rng.
Hypothesis shuffle_perm :
  forall (A : Type) (l : list A) (g : Rng), Permutation (fst (shuffle A l g)) l.

Section GenTry.

Variable rec : Solver -> Rng -> option (bool * Solver * Rng).
Variables r c : nat.
Variable s : Solver.
Variable cands : list Z.
Variable Done : Solver -> Prop.

Hypothesis rec_ok : forall d, In d cands -> forall g, exists ok s' g',
  rec (place s r c d) g = Some (ok, s', g') /\
  (ok = true -> Done s') /\
  (ok = false -> s' = place s r c d /\ noSolution (put (board s) r c d)).
Hypothesis undo_ok : forall d, In d cands -> unplace (place s r c d) r c d = s.

Lemma genTry_spec : forall ds g,
  incl ds cands ->
  exists ok s' g',
    genTry rec r c ds s g = Some (ok, s', g') /\
    (ok = true -> Done s') /\
    (ok = false -> s' = s /\
                   forall d, In d ds -> noSolution (put (board s) r c d)).
Proof.
  induction ds as [|d ds IH]; intros g Hincl.
  - exists false, s, g. simpl. repeat split; try discriminate.
    intros d [].
  - assert (In d cands) as Hd by (apply Hincl; now left).
    assert (incl ds cands) as Hincl' by (intros x Hx; apply Hincl; now right).
    destruct (rec_ok d Hd g) as (ok & s1 & g1 & Hrec & Ht & Hf).
    cbn [genTry]. rewrite Hrec. destruct ok.
    + exists true, s1, g1. repeat split; auto; discriminate.
    + destruct (Hf eq_refl) as [-> Hno]. rewrite (undo_ok d Hd).
      destruct (IH g1 Hincl') as (ok & s2 & g2 & Hrest & Ht2 & Hf2).
      exists ok, s2, g2. repeat split; auto.
      * now apply Hf2.
      * intros d' [<-|Hin]; auto. apply Hf2; auto.
Qed.

End GenTry.

Lemma genDfs_spec fuel : forall s g,
  Inv s -> (zeros (board s) < fuel)%nat ->
  exists ok s' g',
    genDfs shuffle fuel s g = Some (ok, s', g') /\
    (ok = true -> genDone s s') /\
    (ok = false -> s' = s /\ noSolution (board s)).
Proof.
  induction fuel as [|fuel IH]; intros s g Hinv Hfuel; [lia|].
  cbn [genDfs]. rewrite genScan_eq.
  pose proof (scan_refines s Hinv) as Hscan.
  pose proof (sinv_wf _ _ (inv_board _ Hinv)) as Hw.
  destruct (scan s) as [[[bestIdx bestCount] bestMask]|];
    destruct (specScan (board s) (empties s)) as [| |r c ds] eqn:Espec;
    simpl in Hscan; try contradiction.
  - subst bestIdx. simpl. exists true, s, g.
    split; [reflexivity|]. split; [|discriminate]. intros _.
    apply specScanFrom_full in Espec as [_ Hfull].
    split; [exact Hinv|]. split.
    + apply (SInv_complete (empties s)); [apply Hinv|exact Hfull].
    + intros r c _ _ _. reflexivity.
  - destruct Hscan as (Hidx & Hnth & -> & Hrange).
    destruct (Z.eqb_spec bestIdx (-1)); [lia|].
    rewrite Hnth. cbn [fst snd].
    destruct (mask_facts _ Hrange) as (-> & _ & _).
    apply specScan_branch in Espec as (Hin & Hz & Hcand & _).
    destruct (sinv_range _ _ (inv_board _ Hinv) r c Hin) as [Hr Hc].
    pose proof (shuffle_perm Z (ascDigits bestMask) g) as Hperm.
    destruct (genTry_spec (genDfs shuffle fuel) r c s (ascDigits bestMask)
                (fun s' => genDone s s')) with
      (ds := fst (shuffle Z (ascDigits bestMask) g))
      (g := snd (shuffle Z (ascDigits bestMask) g))
      as (ok & s' & g' & Htry & Ht & Hf).
    + intros d Hd g0. rewrite Hcand in Hd.
      pose proof (proj1 (in_candidateDigits _ r c d Hr Hc) Hd) as [Hd19 _].
      destruct (IH (place s r c d) g0) as (ok & s1 & g1 & Hrec & Ht & Hf).
      * now apply place_Inv.
      * simpl. rewrite (zeros_put (board s) r c d) in Hfuel; auto; lia.
      * exists ok, s1, g1. split; [exact Hrec|]. split.
        -- intro H. destruct (Ht H) as (H1 & H2 & He).
           split; [exact H1|]. split; [exact H2|].
           simpl in He. now apply (extends_put (board s) (board s1) r c d).
        -- intro H. exact (Hf H).
    + intros d Hd. rewrite Hcand in Hd. now apply unplace_place.
    + intros x Hx. now apply (Permutation_in _ Hperm).
    + exists ok, s', g'. split; [exact Htry|]. split; [exact Ht|].
      intro H. destruct (Hf H) as [Hs Hno]. split; [exact Hs|].
      intros sol Hsol.
      destruct (solution_candidate (board s) sol r c Hw Hsol Hr Hc Hz) as [Hd Hs'].
      refine (Hno (cell sol r c) _ sol Hs').
      apply (Permutation_in _ (Permutation_sym Hperm)). now rewrite Hcand.
  - exists false, s, g. split; [reflexivity|]. split; [discriminate|].
    intros _. split; [reflexivity|].
    apply specScanFrom_dead in Espec as (r & c & Hin & Hz & Hnil).
    destruct (sinv_range _ _ (inv_board _ Hinv) r c Hin) as [Hr Hc].
    exact (no_solution_dead (board s) r c Hw Hr Hc Hz Hnil).
Qed.

Lemma Inv_genStart : Inv genStart.
Proof.
  constructor.
  - constructor; simpl.
    + apply wfBoard_empty.
    + apply noConflict_empty.
    + intros r c Hr Hc _. now apply in_allCells.
    + intros r c. apply in_allCells.
  - apply masksDescribe_empty.
Qed.

(** The first search already succeeds, whatever the generator state. *)
Lemma generateFullSolution_spec n g :
  exists b g',
    generateFullSolution shuffle (S n) g = Some (b, g') /\
    (exists s, genDfs shuffle depthBound genStart g = Some (true, s, g') /\ b = board s) /\
    wfBoard b /\ complete b /\ noConflict b.
Proof.
  destruct (genDfs_spec depthBound genStart g Inv_genStart (zeros_lt_depth _))
    as (ok & s & g' & Hdfs & Ht & Hf).
  cbn [generateFullSolution]. rewrite Hdfs. destruct ok.
  - destruct (Ht eq_refl) as (Hinv & Hc & _).
    exists (board s), g'. split; [reflexivity|]. split; [eauto|].
    split; [apply Hinv|]. split; [exact Hc|apply Hinv].
  - exfalso. destruct (Hf eq_refl) as [_ Hno].
    exact (Hno sampleSolution sampleSolution_ok).
Qed.

End GeneratorProofs.

(* ================================================================== *)
(** ** The puzzle digger *)

Lemma cell_nonzero_range p r c :
  wfBoard p -> cell p r c <> 0 -> (r < 9)%nat /\ (c < 9)%nat.
Proof.
  intros Hw Hnz. unfold cell in Hnz.
  destruct (Nat.lt_ge_cases r 9) as [Hr|Hr].
  - split; auto. destruct (Nat.lt_ge_cases c 9) as [Hc|Hc]; auto.
    exfalso. apply Hnz. apply nth_overflow.
    rewrite (wfBoard_row_length p r Hw Hr). lia.
  - exfalso. apply Hnz.
    rewrite (nth_overflow p) by (rewrite (wfBoard_length p Hw); lia).
    now destruct c.
Qed.

Lemma countSolutions_loaded s0 b :
  wfBoard b -> fst (loadBoard s0 b) = true ->
  exists s', countSolutions 2 (snd (loadBoard s0 b)) =
             Some (capped 2 (length (mrvSolutions b)), s').
Proof.
  intros Hw Hload. unfold countSolutions.
  rewrite (solve_loaded s0 b 2 Hw Hload). eauto.
Qed.

Lemma capped_two_one n : capped 2 n = 1 <-> n = 1%nat.
Proof. unfold capped. simpl. lia. Qed.

Lemma put_restore p r c :
  wfBoard p -> (r < 9)%nat -> put (put p r c 0) r c (cell p r c) = p.
Proof. intros Hw Hr. rewrite put_put by auto. apply put_same. Qed.

Lemma digStep_spec target solver p pos sol :
  DigInv sol p ->
  exists st, digStep target solver p pos = Some st /\
             match st with
             | DigBreak => True
             | DigNext _ p' => DigInv sol p'
             end.
Proof.
  intros Hinv. destruct Hinv as [Hw Hn Hsub Hone]. destruct pos as [r c].
  unfold digStep. cbn [fst snd].
  destruct (countFilled p <=? target); [exists DigBreak; split; [reflexivity|exact I]|].
  destruct (Z.eqb_spec (cell p r c) 0) as [Ez|Ez].
  { exists (DigNext solver p). split; [reflexivity|]. constructor; assumption. }
  destruct (cell_nonzero_range p r c Hw Ez) as [Hr Hc].
  assert (wfBoard (put p r c 0)) as Hw1 by (apply wfBoard_put; auto; lia).
  rewrite (put_restore p r c Hw Hr).
  destruct (loadBoard solver (put p r c 0)) as [ok s1] eqn:Eload.
  assert (fst (loadBoard solver (put p r c 0)) = ok) as Hok by (now rewrite Eload).
  assert (snd (loadBoard solver (put p r c 0)) = s1) as Hs1 by (now rewrite Eload).
  destruct ok.
  - destruct (countSolutions_loaded solver _ Hw1 Hok) as [s2 Hcount].
    rewrite Hs1 in Hcount. rewrite Hcount.
    destruct (loadBoard_spec solver _ Hw1) as [Ht _].
    destruct (Ht Hok) as (Hn1 & _). clear Ht Hcount Eload Hok Hs1.
    destruct (Z.eqb_spec (capped 2 (length (mrvSolutions (put p r c 0)))) 1) as [E1|E1];
      cbn [negb].
    + exists (DigNext s2 (put p r c 0)). split; [reflexivity|].
      constructor.
      * exact Hw1.
      * exact Hn1.
      * intros r' c' Hr' Hc'. rewrite cell_put by assumption.
        destruct (pos_eq_dec (r, c) (r', c')) as [X|X].
        -- intro F. exfalso. apply F. reflexivity.
        -- apply Hsub; assumption.
      * apply capped_two_one. exact E1.
    + exists (DigNext s2 p). split; [reflexivity|]. constructor; assumption.
  - exists (DigNext s1 p). split; [reflexivity|]. constructor; assumption.
Qed.

Lemma digLoop_spec target sol : forall positions solver p,
  DigInv sol p ->
  exists p', digLoop target positions solver p = Some p' /\ DigInv sol p'.
Proof.
  induction positions as [|pos rest IH]; intros solver p Hinv.
  - exists p. auto.
  - cbn [digLoop].
    destruct (digStep_spec target solver p pos sol Hinv) as (st & Hst & Hnext).
    rewrite Hst. destruct st as [|solver' p'].
    + exists p. auto.
    + now apply IH.
Qed.

Lemma DigInv_start sol :
  wfBoard sol -> complete sol -> noConflict sol -> DigInv sol sol.
Proof.
  intros Hw Hc Hn. constructor; auto.
  - intros r c _ _ _. reflexivity.
  - rewrite (count_unique sol sol); auto.
    + now apply complete_isSolution.
    + intros s' Hs'. now apply solution_of_complete.
Qed.

Lemma DigInv_solution sol p :
  wfBoard sol -> complete sol -> noConflict sol -> DigInv sol p -> isSolution p sol.
Proof. intros Hw Hc Hn [_ _ Hsub _]. repeat split; auto. Qed.

Lemma DigInv_unique sol p :
  wfBoard sol -> complete sol -> noConflict sol -> DigInv sol p ->
  forall s', isSolution p s' -> s' = sol.
Proof.
  intros Hw Hc Hn Hinv s' Hs'.
  pose proof (DigInv_solution sol p Hw Hc Hn Hinv) as Hsol.
  destruct Hinv as [Hwp Hnp _ Hone].
  destruct (mrvSolutions_spec p Hwp Hnp) as [_ Hiff].
  apply Hiff in Hs', Hsol.
  destruct (mrvSolutions p) as [|x [|y l]]; simpl in Hone; try discriminate.
  destruct Hs' as [<-|[]], Hsol as [<-|[]]. reflexivity.
Qed.

Section PuzzleProofs.

Variable Rng : Type.
Variable shuffle : forall A : Type, list A -> Rng -> list A * Rng.
Hypothesis shuffle_perm :
  forall (A : Type) (l : list A) (g : Rng), Permutation (fst (shuffle A l g)) l.

Lemma generatePuzzle_spec n g target :
  exists sol g1 p g2,
    generateFullSolution shuffle (S n) g = Some (sol, g1) /\
    generatePuzzle shuffle (S n) g target = Some (p, g2) /\
    wfBoard sol /\ complete sol /\ noConflict sol /\ DigInv sol p.
Proof.
  destruct (generateFullSolution_spec Rng shuffle shuffle_perm n g)
    as (sol & g1 & Hgen & _ & Hw & Hc & Hn).
  destruct (digLoop_spec target sol (fst (shuffle (nat * nat)%type allCells g1))
              newSolver sol (DigInv_start sol Hw Hc Hn)) as (p & Hdig & Hinv).
  exists sol, g1, p, (snd (shuffle (nat * nat)%type allCells g1)).
  unfold generatePuzzle. rewrite Hgen, Hdig. auto 10.
Qed.

End PuzzleProofs.

Lemma idShuffle_perm (A : Type) (l : list A) (g : unit) :
  Permutation (fst (idShuffle A l g)) l.
Proof. apply Permutation_refl. Qed.

(* ================================================================== *)
(** ** The search and the masks *)

Lemma solve_trace limit s :
  Inv s ->
  exists stop q log,
    runDfs limit s = Some (stop, s, q, log) /\
    Forall Inv log /\
    solve limit s =
      Some (outCount q >=? 1, outCount q,
            match savedBoard q with
            | Some sb => withBoard s sb
            | None => s
            end).
Proof.
  intro Hinv. destruct (runDfs_spec limit s Hinv) as (stop & log & H & Hlog).
  eexists stop, _, log. split; [exact H|]. split; [exact Hlog|].
  unfold solve. rewrite H. reflexivity.
Qed.

(** From here on [solve] is used through its specification only. *)
Opaque solve.

Lemma unique_by_count s0 b sol :
  wfBoard b -> fst (loadBoard s0 b) = true ->
  (exists ok s', solve 2 (snd (loadBoard s0 b)) = Some (ok, 1, s')) ->
  isSolution b sol ->
  forall s', isSolution b s' -> s' = sol.
Proof.
  intros Hw Hload Hcount Hsol s' Hs'.
  destruct (unique_of_count_one s0 b Hw Hload Hcount) as (x & _ & Hx).
  rewrite (Hx s' Hs'). symmetry. apply Hx. exact Hsol.
Qed.

(** Masks that describe a board with an empty cell do not describe any of
    its solutions. *)
Lemma masks_mismatch b sol rm cm bm r c :
  wfBoard b -> isSolution b sol -> (r < 9)%nat -> (c < 9)%nat -> cell b r c = 0 ->
  masksDescribe b rm cm bm -> ~ masksDescribe sol rm cm bm.
Proof.
  intros Hw Hsol Hr Hc Hz (R1 & _) (R2 & _).
  destruct (solution_candidate b sol r c Hw Hsol Hr Hc Hz) as [Hd _].
  apply in_candidateDigits in Hd as [Hd19 Hd]; auto.
  assert (unionBits (rowVals b r) = unionBits (rowVals sol r)) as E.
  { rewrite <- (nth_map_seq9 (fun r => unionBits (rowVals b r)) r 0 Hr).
    rewrite <- (nth_map_seq9 (fun r => unionBits (rowVals sol r)) r 0 Hr).
    rewrite <- R1, <- R2. reflexivity. }
  assert (Z.testbit (unionBits (rowVals b r)) (cell sol r c - 1) = false) as Eb.
  { rewrite rowVals_vals, testbit_unionBits by (auto using vals_nonneg; lia).
    replace (cell sol r c - 1 + 1) with (cell sol r c) by lia.
    rewrite <- rowVals_vals.
    destruct (existsb (Z.eqb (cell sol r c)) (rowVals b r)) eqn:X; auto.
    apply existsb_eqb_In, in_rowVals in X as [c' [Hc' X]].
    exfalso. apply (Hd r c' Hr Hc'); auto. apply peerb_cases. auto. }
  assert (Z.testbit (unionBits (rowVals sol r)) (cell sol r c - 1) = true) as Es.
  { destruct Hsol as (Hws & _).
    rewrite rowVals_vals, testbit_unionBits by (auto using vals_nonneg; lia).
    replace (cell sol r c - 1 + 1) with (cell sol r c) by lia.
    rewrite <- rowVals_vals. apply existsb_eqb_In, in_rowVals. eauto. }
  congruence.
Qed.

Lemma Inv_masksOK_log (log : list Solver) : Forall Inv log -> Forall masksOK log.
Proof. apply Forall_impl. intros s H. apply H. Qed.

(* ================================================================== *)
(** ** The claims about the solver *)

(** C1: for every Board that loads successfully and has exactly one
    solution, [solve] with [countLimit = 2] returns true, leaves 1 in the
    output count, and leaves the solver's board equal to that solution. *)
Theorem C1_unique_solution_found (s0 : Solver) (b sol : Board) :
  wfBoard b ->
  fst (loadBoard s0 b) = true ->
  isSolution b sol ->
  (forall s', isSolution b s' -> s' = sol) ->
  exists s', solve 2 (snd (loadBoard s0 b)) = Some (true, 1, s') /\ board s' = sol.
Proof.
  intros Hw Hload Hsol Huniq.
  destruct (loadBoard_spec s0 b Hw) as [Ht _]. destruct (Ht Hload) as (Hn & _).
  rewrite (solve_loaded s0 b 2 Hw Hload).
  rewrite (count_unique b sol Hw Hn Hsol Huniq).
  eexists. split; reflexivity.
Qed.

Lemma C1_unique_solution_found_witness :
  exists s', solve 2 (snd (loadBoard newSolver uniquePuzzle)) = Some (true, 1, s') /\
             board s' = sampleSolution.
Proof.
  apply (C1_unique_solution_found newSolver uniquePuzzle sampleSolution).
  - vm_compute. reflexivity.
  - vm_compute. reflexivity.
  - apply isSolutionb_spec. vm_compute. reflexivity.
  - apply (unique_by_count newSolver).
    + vm_compute. reflexivity.
    + vm_compute. reflexivity.
    + eexists. eexists. vm_compute. reflexivity.
    + apply isSolutionb_spec. vm_compute. reflexivity.
Defined.

(** C3: for every Board that loads successfully and has two or more
    solutions, [solve] with [countLimit = 2] reports the count 2 and leaves
    in the solver's board the first board reached by the search that picks
    the minimum-candidate cell and tries its candidates in increasing
    order; the outcome is the same whatever the solver object held before
    the load, so two runs on the same Board agree. *)
Theorem C3_two_solutions_first_kept (s0 : Solver) (b s1 s2 : Board) :
  wfBoard b ->
  fst (loadBoard s0 b) = true ->
  isSolution b s1 -> isSolution b s2 -> s1 <> s2 ->
  exists s',
    solve 2 (snd (loadBoard s0 b)) = Some (true, 2, s') /\
    hd_error (mrvSolutions b) = Some (board s') /\
    isSolution b (board s') /\
    forall t0 : Solver, solve 2 (snd (loadBoard t0 b)) = Some (true, 2, s').
Proof.
  intros Hw Hload H1 H2 Hne.
  destruct (loadBoard_spec s0 b Hw) as [Ht _]. destruct (Ht Hload) as (Hn & _).
  pose proof (count_many b s1 s2 Hw Hn H1 H2 Hne) as Hlen.
  destruct (mrvSolutions_spec b Hw Hn) as [_ Hiff].
  pose proof (solve_loaded s0 b 2 Hw Hload) as Hs. cbv zeta in Hs.
  destruct (mrvSolutions b) as [|x [|y l]] eqn:E; simpl in Hlen; try lia.
  assert (capped 2 (length (x :: y :: l)) = 2) as Hc.
  { unfold capped. cbn [Z.leb Z.compare length]. lia. }
  rewrite Hc in Hs. cbn [Z.leb Z.compare Z.geb] in Hs.
  eexists. split; [exact Hs|]. split; [reflexivity|]. split.
  - apply Hiff. left. reflexivity.
  - intro t0. rewrite (loadBoard_fresh t0 s0 b). exact Hs.
Qed.

Lemma C3_two_solutions_first_kept_witness :
  exists s',
    solve 2 (snd (loadBoard newSolver emptyBoard)) = Some (true, 2, s') /\
    hd_error (mrvSolutions emptyBoard) = Some (board s') /\
    isSolution emptyBoard (board s') /\
    forall t0 : Solver, solve 2 (snd (loadBoard t0 emptyBoard)) = Some (true, 2, s').
Proof.
  apply (C3_two_solutions_first_kept newSolver emptyBoard sampleSolution otherSolution).
  - vm_compute. reflexivity.
  - vm_compute. reflexivity.
  - apply isSolutionb_spec. vm_compute. reflexivity.
  - apply isSolutionb_spec. vm_compute. reflexivity.
  - vm_compute. discriminate.
Defined.

(** C5: on a Board, [loadBoard] returns false exactly when two different
    cells with the same nonzero value share a row, a column or a 3x3 block,
    the block of a cell being [(r/3)*3 + c/3]; in particular a Board with
    the value 5 twice in row 0 fails to load and a Board without such a
    pair loads. *)
Theorem C5_load_fails_iff_conflict (s0 : Solver) (b : Board) :
  wfBoard b ->
  (fst (loadBoard s0 b) = false <-> hasConflict b) /\
  (forall r c : nat, blockIndex r c = (r / 3 * 3 + c / 3)%nat) /\
  (forall c1 c2 : nat, (c1 < 9)%nat -> (c2 < 9)%nat -> c1 <> c2 ->
     cell b 0 c1 = 5 -> cell b 0 c2 = 5 -> fst (loadBoard s0 b) = false) /\
  (noConflict b -> fst (loadBoard s0 b) = true).
Proof.
  intro Hw. pose proof (loadBoard_true_iff s0 b Hw) as Hiff.
  assert (fst (loadBoard s0 b) = false <-> hasConflict b) as Hfalse.
  { split.
    - intro H. destruct (loadBoard_spec s0 b Hw) as [_ Hf]. exact (Hf H).
    - intro Hc. destruct (fst (loadBoard s0 b)) eqn:E; [|reflexivity].
      exfalso. exact (proj1 Hiff eq_refl Hc). }
  split; [exact Hfalse|]. split; [reflexivity|]. split.
  - intros c1 c2 Hc1 Hc2 Hne E1 E2. apply Hfalse.
    exists 0%nat, c1, 0%nat, c2.
    split; [lia|]. split; [exact Hc1|]. split; [lia|]. split; [exact Hc2|].
    split; [intro X; inversion X; contradiction|].
    split; [reflexivity|]. split; lia.
  - apply Hiff.
Qed.

Lemma C5_load_fails_iff_conflict_witness :
  (fst (loadBoard newSolver rowDupBoard) = false <-> hasConflict rowDupBoard) /\
  (forall r c : nat, blockIndex r c = (r / 3 * 3 + c / 3)%nat) /\
  (forall c1 c2 : nat, (c1 < 9)%nat -> (c2 < 9)%nat -> c1 <> c2 ->
     cell rowDupBoard 0 c1 = 5 -> cell rowDupBoard 0 c2 = 5 ->
     fst (loadBoard newSolver rowDupBoard) = false) /\
  (noConflict rowDupBoard -> fst (loadBoard newSolver rowDupBoard) = true).
Proof.
  apply (C5_load_fails_iff_conflict newSolver rowDupBoard).
  vm_compute. reflexivity.
Defined.

(** C8: for every Board that loads successfully but has no solution,
    [solve] returns false for every [countLimit], leaves 0 in the output
    count, and leaves the solver, its board included, as it was loaded. *)
Theorem C8_no_solution_reported (s0 : Solver) (b : Board) (countLimit : Z) :
  wfBoard b ->
  fst (loadBoard s0 b) = true ->
  (forall s, ~ isSolution b s) ->
  solve countLimit (snd (loadBoard s0 b)) = Some (false, 0, snd (loadBoard s0 b)) /\
  board (snd (loadBoard s0 b)) = b.
Proof.
  intros Hw Hload Hno.
  destruct (loadBoard_spec s0 b Hw) as [Ht _].
  destruct (Ht Hload) as (Hn & _ & Hb & _).
  split; [|exact Hb].
  rewrite (solve_loaded s0 b countLimit Hw Hload).
  rewrite (count_none b Hw Hn Hno). unfold capped. cbn [length].
  destruct (countLimit <=? 0) eqn:E.
  - reflexivity.
  - apply Z.leb_gt in E. rewrite Z.min_r by lia. reflexivity.
Qed.

Lemma C8_no_solution_reported_witness :
  solve 5 (snd (loadBoard newSolver deadBoard)) =
    Some (false, 0, snd (loadBoard newSolver deadBoard)) /\
  board (snd (loadBoard newSolver deadBoard)) = deadBoard.
Proof.
  apply (C8_no_solution_reported newSolver deadBoard 5).
  - vm_compute. reflexivity.
  - vm_compute. reflexivity.
  - apply (none_of_count_zero newSolver).
    + vm_compute. reflexivity.
    + vm_compute. reflexivity.
    + eexists. eexists. vm_compute. reflexivity.
Defined.

Lemma forallb_false_exists {A} (f : A -> bool) (l : list A) :
  forallb f l = false -> exists x, In x l /\ f x = false.
Proof.
  induction l as [|a l IH]; cbn [forallb]; [discriminate|].
  destruct (f a) eqn:E; cbn [andb].
  - intro H. destruct (IH H) as (x & Hin & Hx). exists x. split; [right; exact Hin|exact Hx].
  - intros _. exists a. split; [left; reflexivity|exact E].
Qed.

Lemma complete_or_empty_cell b :
  complete b \/ exists r c, (r < 9)%nat /\ (c < 9)%nat /\ cell b r c = 0.
Proof.
  destruct (completeb b) eqn:E.
  - left. apply completeb_spec. exact E.
  - right. unfold completeb in E.
    destruct (forallb_false_exists _ _ E) as ([r c] & Hin & Hx).
    apply in_allCells in Hin as [Hr Hc]. cbn [fst snd] in Hx.
    exists r, c. split; [exact Hr|]. split; [exact Hc|].
    apply negb_false_iff in Hx. apply Z.eqb_eq. exact Hx.
Qed.

(** C6, as the code has it: the three mask arrays are exactly the unions of
    the bits of the values on the solver's board right after [loadBoard],
    in every state the search passes through (after each placement and after
    each matching undo) and when the search has unwound.  Once [solve] has
    returned, the masks are still the unions for the Board as it was
    loaded; they are the unions for the board the solver then holds
    exactly when no solution was found or the loaded Board had no empty
    cell. *)
Theorem C6_masks_follow_board_in_search (s0 : Solver) (b : Board) (countLimit : Z) :
  wfBoard b ->
  fst (loadBoard s0 b) = true ->
  masksOK (snd (loadBoard s0 b)) /\
  exists stop q log,
    runDfs countLimit (snd (loadBoard s0 b)) =
      Some (stop, snd (loadBoard s0 b), q, log) /\
    Forall masksOK log /\
    exists s',
      solve countLimit (snd (loadBoard s0 b)) = Some (outCount q >=? 1, outCount q, s') /\
      masksDescribe b (rowMask s') (colMask s') (blockMask s') /\
      (savedBoard q = None -> s' = snd (loadBoard s0 b)) /\
      (masksOK s' <-> (outCount q >=? 1) = false \/ complete b).
Proof.
  intros Hw Hload.
  destruct (loadBoard_spec s0 b Hw) as [Ht _].
  destruct (Ht Hload) as (Hn & Hinv & Hb & _).
  destruct (mrvSolutions_spec b Hw Hn) as [_ Hiff].
  pose proof (solve_loaded s0 b countLimit Hw Hload) as Hs. cbv zeta in Hs.
  clear Ht Hload.
  generalize dependent (snd (loadBoard s0 b)). intros s Hinv Hb Hs.
  pose proof (inv_masks _ Hinv) as Hm.
  split; [exact Hm|].
  destruct (solve_trace countLimit _ Hinv) as (stop & q & log & Hrun & Hlog & Hsolve).
  exists stop, q, log. split; [exact Hrun|].
  split; [exact (Inv_masksOK_log log Hlog)|].
  eexists. split; [exact Hsolve|].
  unfold masksOK in Hm. rewrite Hb in Hm.
  rewrite Hsolve in Hs. injection Hs as Eok _ Es.
  assert (masksOK (match savedBoard q with
                   | Some sb => withBoard s sb
                   | None => s
                   end) <->
          (outCount q >=? 1) = false \/ complete b) as Hlast.
  { rewrite Es, Eok. unfold capped.
    destruct (Z.leb_spec countLimit 0) as [Hl|Hl].
    { split; [intros _; left; reflexivity|].
      intros _. unfold masksOK. rewrite Hb. exact Hm. }
    destruct (mrvSolutions b) as [|first rest] eqn:E.
    { split.
      - intros _. left. cbn [length]. rewrite Z.min_r by lia. reflexivity.
      - intros _. unfold masksOK. rewrite Hb. exact Hm. }
    assert (isSolution b first) as Hf by (apply Hiff; left; reflexivity).
    assert ((Z.min countLimit (Z.of_nat (length (first :: rest))) >=? 1) = true) as Hok.
    { apply Z.geb_le. cbn [length]. lia. }
    rewrite Hok. unfold masksOK, withBoard. cbn [board rowMask colMask blockMask].
    split.
    - intro H. right.
      destruct (complete_or_empty_cell b) as [Hc|(r & c & Hr & Hc & Hz)]; [exact Hc|].
      exfalso. exact (masks_mismatch b first _ _ _ r c Hw Hf Hr Hc Hz Hm H).
    - intros [X|Hc]; [discriminate X|].
      rewrite (solution_of_complete b first Hw Hc Hf). exact Hm. }
  split; [|split; [|exact Hlast]].
  - destruct (savedBoard q); exact Hm.
  - destruct (savedBoard q); [intro X; inversion X|reflexivity].
Qed.

Lemma C6_masks_follow_board_in_search_witness :
  masksOK (snd (loadBoard newSolver uniquePuzzle)) /\
  exists stop q log,
    runDfs 2 (snd (loadBoard newSolver uniquePuzzle)) =
      Some (stop, snd (loadBoard newSolver uniquePuzzle), q, log) /\
    Forall masksOK log /\
    exists s',
      solve 2 (snd (loadBoard newSolver uniquePuzzle)) =
        Some (outCount q >=? 1, outCount q, s') /\
      masksDescribe uniquePuzzle (rowMask s') (colMask s') (blockMask s') /\
      (savedBoard q = None -> s' = snd (loadBoard newSolver uniquePuzzle)) /\
      (masksOK s' <-> (outCount q >=? 1) = false \/ complete uniquePuzzle).
Proof.
  apply (C6_masks_follow_board_in_search newSolver uniquePuzzle 2).
  - vm_compute. reflexivity.
  - vm_compute. reflexivity.
Defined.

(** C6 as stated fails after [solve] returns: from the empty Board the
    search leaves a full grid in the solver's board while every mask is
    still zero. *)
Lemma C6_masks_stale_after_solve :
  wfBoard emptyBoard /\
  fst (loadBoard newSolver emptyBoard) = true /\
  exists ok n s',
    solve 2 (snd (loadBoard newSolver emptyBoard)) = Some (ok, n, s') /\
    ~ masksOK s'.
Proof.
  split; [vm_compute; reflexivity|]. split; [vm_compute; reflexivity|].
  eexists. eexists. eexists. split.
  - vm_compute. reflexivity.
  - intros [H _]. vm_compute in H. discriminate.
Qed.

(** C9: for every successfully loaded Board and every [countLimit], after
    [solve] the three mask arrays and the empties list are those left by
    [loadBoard]; the board is either untouched or, when a solution was
    found, the first one the search met.  Hence after a successful search
    on a Board with an empty cell the masks describe the loaded Board and
    not the board now stored. *)
Theorem C9_solve_restores_masks (s0 : Solver) (b : Board) (countLimit : Z) :
  wfBoard b ->
  fst (loadBoard s0 b) = true ->
  exists ok cnt s',
    solve countLimit (snd (loadBoard s0 b)) = Some (ok, cnt, s') /\
    rowMask s' = rowMask (snd (loadBoard s0 b)) /\
    colMask s' = colMask (snd (loadBoard s0 b)) /\
    blockMask s' = blockMask (snd (loadBoard s0 b)) /\
    empties s' = empties (snd (loadBoard s0 b)) /\
    (board s' = b \/ (ok = true /\ hd_error (mrvSolutions b) = Some (board s'))) /\
    (ok = true ->
     (exists r c, (r < 9)%nat /\ (c < 9)%nat /\ cell b r c = 0) ->
     masksDescribe b (rowMask s') (colMask s') (blockMask s') /\ ~ masksOK s').
Proof.
  intros Hw Hload.
  destruct (loadBoard_spec s0 b Hw) as [Ht _].
  destruct (Ht Hload) as (Hn & Hinv & Hb & _).
  pose proof (inv_masks _ Hinv) as Hm. unfold masksOK in Hm. rewrite Hb in Hm.
  destruct (mrvSolutions_spec b Hw Hn) as [_ Hiff].
  pose proof (solve_loaded s0 b countLimit Hw Hload) as Hs. cbv zeta in Hs.
  clear Ht Hload Hinv.
  generalize dependent (snd (loadBoard s0 b)). intros s Hb Hm Hs.
  destruct (countLimit <=? 0) eqn:El.
  - eexists _, _, s. split; [exact Hs|]. repeat (split; [reflexivity|]).
    split; [left; exact Hb|].
    unfold capped. rewrite El. discriminate.
  - apply Z.leb_gt in El.
    destruct (mrvSolutions b) as [|first rest] eqn:E.
    + eexists _, _, s. split; [exact Hs|]. repeat (split; [reflexivity|]).
      split; [left; exact Hb|].
      unfold capped. destruct (countLimit <=? 0); cbn [length]; [discriminate|].
      rewrite Z.min_r by lia. discriminate.
    + eexists _, _, (withBoard s first). split; [exact Hs|].
      repeat (split; [reflexivity|]).
      assert ((capped countLimit (length (first :: rest)) >=? 1) = true) as Hok.
      { unfold capped. destruct (Z.leb_spec countLimit 0); [lia|].
        apply Z.geb_le. cbn [length]. lia. }
      split; [right; split; [exact Hok|reflexivity]|].
      intros _ (r & c & Hr & Hc & Hz). split; [exact Hm|].
      unfold masksOK, withBoard. cbn [board rowMask colMask blockMask].
      apply (masks_mismatch b first _ _ _ r c Hw); try assumption.
      apply Hiff. left. reflexivity.
Qed.

Lemma C9_solve_restores_masks_witness :
  exists ok cnt s',
    solve 2 (snd (loadBoard newSolver uniquePuzzle)) = Some (ok, cnt, s') /\
    rowMask s' = rowMask (snd (loadBoard newSolver uniquePuzzle)) /\
    colMask s' = colMask (snd (loadBoard newSolver uniquePuzzle)) /\
    blockMask s' = blockMask (snd (loadBoard newSolver uniquePuzzle)) /\
    empties s' = empties (snd (loadBoard newSolver uniquePuzzle)) /\
    (board s' = uniquePuzzle \/
     (ok = true /\ hd_error (mrvSolutions uniquePuzzle) = Some (board s'))) /\
    (ok = true ->
     (exists r c, (r < 9)%nat /\ (c < 9)%nat /\ cell uniquePuzzle r c = 0) ->
     masksDescribe uniquePuzzle (rowMask s') (colMask s') (blockMask s') /\
     ~ masksOK s').
Proof.
  apply (C9_solve_restores_masks newSolver uniquePuzzle 2).
  - vm_compute. reflexivity.
  - vm_compute. reflexivity.
Defined.

(* ================================================================== *)
(** ** The claims about the generator *)

(** C7: for every generator state, [generateFullSolution] returns a
    complete solved Board, every row, column and 3x3 block of which holds
    each of the digits 1..9 exactly once.  It never reports failure: the
    first top-level search already succeeds, and when a top-level search
    comes back empty-handed the function calls itself again with the
    generator state that search left. *)
Theorem C7_full_solution_is_solved
    (Rng : Type) (shuffle : forall A : Type, list A -> Rng -> list A * Rng)
    (shuffle_perm : forall (A : Type) (l : list A) (g : Rng),
        Permutation (fst (shuffle A l g)) l)
    (n : nat) (g : Rng) :
  (exists b g',
     generateFullSolution shuffle (S n) g = Some (b, g') /\
     solvedBoard b /\ complete b) /\
  (forall (sh : forall A : Type, list A -> Rng -> list A * Rng)
          (m : nat) (g0 g1 : Rng) (s1 : Solver),
     genDfs sh depthBound genStart g0 = Some (false, s1, g1) ->
     generateFullSolution sh (S m) g0 = generateFullSolution sh m g1).
Proof.
  split.
  - destruct (generateFullSolution_spec Rng shuffle shuffle_perm n g)
      as (b & g' & Hgen & _ & Hw & Hc & Hn).
    exists b, g'. split; [exact Hgen|]. split; [|exact Hc].
    now apply solved_of_complete.
  - intros sh m g0 g1 s1 H. cbn [generateFullSolution]. rewrite H. reflexivity.
Qed.

Lemma C7_full_solution_is_solved_witness :
  (exists b g',
     generateFullSolution idShuffle 1 tt = Some (b, g') /\
     solvedBoard b /\ complete b) /\
  (forall (sh : forall A : Type, list A -> unit -> list A * unit)
          (m : nat) (g0 g1 : unit) (s1 : Solver),
     genDfs sh depthBound genStart g0 = Some (false, s1, g1) ->
     generateFullSolution sh (S m) g0 = generateFullSolution sh m g1).
Proof.
  apply (C7_full_solution_is_solved unit idShuffle).
  intros A l g. simpl. apply Permutation_refl.
Defined.

(** C2: for every generator state and every [targetClues], the Board
    returned by [generatePuzzle] has exactly one solution: it loads, and
    [solve] with [countLimit = 2] reports the count 1.  The same holds for
    the digging loop started from any complete solved Board, whatever the
    order of the positions. *)
Theorem C2_generated_puzzle_is_unique
    (Rng : Type) (shuffle : forall A : Type, list A -> Rng -> list A * Rng)
    (shuffle_perm : forall (A : Type) (l : list A) (g : Rng),
        Permutation (fst (shuffle A l g)) l)
    (n : nat) (g : Rng) (targetClues : Z) (s0 : Solver) :
  (exists p g',
     generatePuzzle shuffle (S n) g targetClues = Some (p, g') /\
     wfBoard p /\
     fst (loadBoard s0 p) = true /\
     (exists s', solve 2 (snd (loadBoard s0 p)) = Some (true, 1, s')) /\
     (exists sol, isSolution p sol /\ forall s', isSolution p s' -> s' = sol)) /\
  (forall (solved : Board) (positions : list (nat * nat)) (solver : Solver),
     wfBoard solved -> complete solved -> noConflict solved ->
     exists p,
       digLoop targetClues positions solver solved = Some p /\
       fst (loadBoard s0 p) = true /\
       (exists s', solve 2 (snd (loadBoard s0 p)) = Some (true, 1, s')) /\
       isSolution p solved /\ forall s', isSolution p s' -> s' = solved).
Proof.
  assert (forall sol p, wfBoard sol -> complete sol -> noConflict sol -> DigInv sol p ->
            fst (loadBoard s0 p) = true /\
            (exists s', solve 2 (snd (loadBoard s0 p)) = Some (true, 1, s')) /\
            isSolution p sol /\ forall s', isSolution p s' -> s' = sol) as Hkey.
  { intros sol p Hw Hc Hn Hinv.
    pose proof (DigInv_solution sol p Hw Hc Hn Hinv) as Hsol.
    pose proof (DigInv_unique sol p Hw Hc Hn Hinv) as Huniq.
    destruct Hinv as [Hwp Hnp _ Hone].
    pose proof (proj2 (loadBoard_true_iff s0 p Hwp) Hnp) as Hload.
    split; [exact Hload|]. split; [|split; assumption].
    rewrite (solve_loaded s0 p 2 Hwp Hload), Hone. eexists. reflexivity. }
  split.
  - destruct (generatePuzzle_spec Rng shuffle shuffle_perm n g targetClues)
      as (sol & g1 & p & g2 & _ & Hp & Hw & Hc & Hn & Hinv).
    destruct (Hkey sol p Hw Hc Hn Hinv) as (H1 & H2 & H3 & H4).
    exists p, g2. split; [exact Hp|]. split; [apply Hinv|].
    split; [exact H1|]. split; [exact H2|]. exists sol. split; assumption.
  - intros solved positions solver Hw Hc Hn.
    destruct (digLoop_spec targetClues solved positions solver solved
                (DigInv_start solved Hw Hc Hn)) as (p & Hdig & Hinv).
    exists p. split; [exact Hdig|]. exact (Hkey solved p Hw Hc Hn Hinv).
Qed.

Lemma C2_generated_puzzle_is_unique_witness :
  exists p g',
    generatePuzzle idShuffle 1 tt 30 = Some (p, g') /\
    wfBoard p /\
    fst (loadBoard newSolver p) = true /\
    (exists s', solve 2 (snd (loadBoard newSolver p)) = Some (true, 1, s')) /\
    (exists sol, isSolution p sol /\ forall s', isSolution p s' -> s' = sol).
Proof.
  apply (C2_generated_puzzle_is_unique unit idShuffle).
  intros A l g. simpl. apply Permutation_refl.
Defined.

(** C10: for every generator state and every [targetClues], every nonzero
    cell of the Board returned by [generatePuzzle] equals the same cell of
    the complete solution generated at its start; hence that solution is a
    solution of the returned puzzle. *)
Theorem C10_puzzle_clues_come_from_solution
    (Rng : Type) (shuffle : forall A : Type, list A -> Rng -> list A * Rng)
    (shuffle_perm : forall (A : Type) (l : list A) (g : Rng),
        Permutation (fst (shuffle A l g)) l)
    (n : nat) (g : Rng) (targetClues : Z) :
  exists sol g1 p g2,
    generateFullSolution shuffle (S n) g = Some (sol, g1) /\
    generatePuzzle shuffle (S n) g targetClues = Some (p, g2) /\
    (forall r c : nat, (r < 9)%nat -> (c < 9)%nat ->
       cell p r c <> 0 -> cell p r c = cell sol r c) /\
    isSolution p sol.
Proof.
  destruct (generatePuzzle_spec Rng shuffle shuffle_perm n g targetClues)
    as (sol & g1 & p & g2 & Hgen & Hp & Hw & Hc & Hn & Hinv).
  exists sol, g1, p, g2. split; [exact Hgen|]. split; [exact Hp|]. split.
  - intros r c Hr Hcc Hnz. symmetry. exact (dig_sub _ _ Hinv r c Hr Hcc Hnz).
  - exact (DigInv_solution sol p Hw Hc Hn Hinv).
Qed.

Lemma C10_puzzle_clues_come_from_solution_witness :
  exists sol g1 p g2,
    generateFullSolution idShuffle 1 tt = Some (sol, g1) /\
    generatePuzzle idShuffle 1 tt 30 = Some (p, g2) /\
    (forall r c : nat, (r < 9)%nat -> (c < 9)%nat ->
       cell p r c <> 0 -> cell p r c = cell sol r c) /\
    isSolution p sol.
Proof.
  apply (C10_puzzle_clues_come_from_solution unit idShuffle).
  intros A l g. simpl. apply Permutation_refl.
Defined.

(** Clearing a cell cannot create a conflict. *)
Lemma noConflict_clear p r c :
  wfBoard p -> noConflict p -> (r < 9)%nat -> (c < 9)%nat ->
  noConflict (put p r c 0).
Proof.
  intros Hw Hn Hr Hc (r1 & c1 & r2 & c2 & Hr1 & Hc1 & Hr2 & Hc2 & Hne & Hp & Hv & He).
  rewrite (cell_put p r c 0 r1 c1), (cell_put p r c 0 r2 c2) in He by assumption.
  rewrite (cell_put p r c 0 r1 c1) in Hv by assumption.
  destruct (pos_eq_dec (r, c) (r1, c1)) as [E1|E1]; [apply Hv; reflexivity|].
  destruct (pos_eq_dec (r, c) (r2, c2)) as [E2|E2]; [apply Hv; exact He|].
  apply Hn. exists r1, c1, r2, c2.
  split; [exact Hr1|]. split; [exact Hc1|]. split; [exact Hr2|]. split; [exact Hc2|].
  split; [exact Hne|]. split; [exact Hp|]. split; [exact Hv|exact He].
Qed.

(** In the digger the reload after clearing a clue always succeeds: the
    puzzle at hand is free of conflicts and stays so with one clue less, so
    the handler for a failed reload is never entered. *)
Lemma digStep_reload_succeeds sol p (solver : Solver) r c :
  DigInv sol p -> cell p r c <> 0 ->
  fst (loadBoard solver (put p r c 0)) = true.
Proof.
  intros [Hw Hn _ _] Hnz.
  destruct (cell_nonzero_range p r c Hw Hnz) as [Hr Hc].
  apply loadBoard_true_iff.
  - apply wfBoard_put; [exact Hw|exact Hr|lia].
  - apply noConflict_clear; assumption.
Qed.

(** What that handler would do: put the clue back and go on to the next
    position with the solver [loadBoard] left. *)
Lemma digStep_failed_reload
    (targetClues : Z) (solver : Solver) (puzzle : Board) (r c : nat) :
  wfBoard puzzle ->
  targetClues < countFilled puzzle ->
  cell puzzle r c <> 0 ->
  fst (loadBoard solver (put puzzle r c 0)) = false ->
  digStep targetClues solver puzzle (r, c) =
    Some (DigNext (snd (loadBoard solver (put puzzle r c 0))) puzzle).
Proof.
  intros Hw Ht Hnz Hload. unfold digStep. cbn [fst snd].
  destruct (Z.leb_spec (countFilled puzzle) targetClues); [lia|].
  destruct (Z.eqb_spec (cell puzzle r c) 0); [contradiction|].
  destruct (cell_nonzero_range puzzle r c Hw Hnz) as [Hr Hc].
  rewrite (put_restore puzzle r c Hw Hr).
  destruct (loadBoard solver (put puzzle r c 0)) as [ok s1].
  cbn [fst snd] in *. subst ok. reflexivity.
Qed.

(* ================================================================== *)
(** ** Further properties of the solver *)

Lemma loaded_facts s0 b :
  wfBoard b -> fst (loadBoard s0 b) = true ->
  noConflict b /\ Inv (snd (loadBoard s0 b)) /\
  board (snd (loadBoard s0 b)) = b /\
  empties (snd (loadBoard s0 b)) = collectEmpties b.
Proof.
  intros Hw Hload. destruct (loadBoard_spec s0 b Hw) as [Ht _]. exact (Ht Hload).
Qed.

(** X1: After a successful load, [candidatesMask] is a 9-bit word whose bit
    [d-1] is set exactly when no cell of the row, the column or the block
    holds the digit [d]. *)
Theorem candidatesMask_after_load (s0 : Solver) (b : Board) (r c : nat) :
  wfBoard b -> fst (loadBoard s0 b) = true -> (r < 9)%nat -> (c < 9)%nat ->
  0 <= candidatesMask (snd (loadBoard s0 b)) r c < 512 /\
  forall d, 1 <= d <= 9 ->
    (Z.testbit (candidatesMask (snd (loadBoard s0 b)) r c) (d - 1) = true <->
     forall r' c', (r' < 9)%nat -> (c' < 9)%nat ->
       peerb r c r' c' = true -> cell b r' c' <> d).
Proof.
  intros Hw Hload Hr Hc.
  destruct (loaded_facts s0 b Hw Hload) as (_ & Hinv & Hb & _). clear Hload.
  generalize dependent (snd (loadBoard s0 b)). intros s Hinv Hb.
  split; [apply candidatesMask_range|]. intros d Hd.
  pose proof (asc_candidates s r c (inv_masks _ Hinv)
                (sinv_wf _ _ (inv_board _ Hinv)) Hr Hc) as E.
  rewrite Hb in E.
  pose proof (in_ascDigits (candidatesMask s r c) d) as H1.
  pose proof (in_candidateDigits b r c d Hr Hc) as H2.
  rewrite E in H1. tauto.
Qed.

Lemma candidatesMask_after_load_witness :
  0 <= candidatesMask (snd (loadBoard newSolver uniquePuzzle)) 0 0 < 512 /\
  forall d, 1 <= d <= 9 ->
    (Z.testbit (candidatesMask (snd (loadBoard newSolver uniquePuzzle)) 0 0) (d - 1) = true <->
     forall r' c', (r' < 9)%nat -> (c' < 9)%nat ->
       peerb 0 0 r' c' = true -> cell uniquePuzzle r' c' <> d).
Proof.
  apply (candidatesMask_after_load newSolver uniquePuzzle 0 0).
  - vm_compute. reflexivity.
  - vm_compute. reflexivity.
  - lia.
  - lia.
Defined.

(** X2: [solveOne] on a loaded Board returns true exactly when the Board has a
    solution; it then leaves a solution of the Board in the solver's board,
    and otherwise leaves the solver as loaded. *)
Theorem solveOne_finds_a_solution (s0 : Solver) (b : Board) :
  wfBoard b -> fst (loadBoard s0 b) = true ->
  exists ok s',
    solveOne (snd (loadBoard s0 b)) = Some (ok, s') /\
    (ok = true <-> exists sol, isSolution b sol) /\
    (ok = true -> isSolution b (board s')) /\
    (ok = false -> s' = snd (loadBoard s0 b)).
Proof.
  intros Hw Hload.
  destruct (loaded_facts s0 b Hw Hload) as (Hn & _).
  destruct (mrvSolutions_spec b Hw Hn) as [_ Hiff].
  pose proof (solve_loaded s0 b 1 Hw Hload) as Hs. cbv zeta in Hs.
  clear Hload. generalize dependent (snd (loadBoard s0 b)). intros s Hs.
  unfold solveOne. rewrite Hs. cbn [Z.leb Z.compare].
  destruct (mrvSolutions b) as [|first rest] eqn:E.
  - exists false, s. split; [reflexivity|]. split; [|split].
    + split; [discriminate|]. intros [sol Hsol]. apply Hiff in Hsol. destruct Hsol.
    + discriminate.
    + reflexivity.
  - assert (capped 1 (length (first :: rest)) = 1) as Hc.
    { unfold capped. cbn [Z.leb Z.compare length]. lia. }
    rewrite Hc. exists true, (withBoard s first).
    assert (isSolution b first) as Hf by (apply Hiff; left; reflexivity).
    split; [reflexivity|]. split; [|split].
    + split; [eauto|reflexivity].
    + intros _. exact Hf.
    + discriminate.
Qed.

Lemma solveOne_finds_a_solution_witness :
  exists ok s',
    solveOne (snd (loadBoard newSolver deadBoard)) = Some (ok, s') /\
    (ok = true <-> exists sol, isSolution deadBoard sol) /\
    (ok = true -> isSolution deadBoard (board s')) /\
    (ok = false -> s' = snd (loadBoard newSolver deadBoard)).
Proof.
  apply (solveOne_finds_a_solution newSolver deadBoard).
  - vm_compute. reflexivity.
  - vm_compute. reflexivity.
Defined.

(** X3: [countSolutions(limit)] on a loaded Board returns the number of
    solutions of the Board capped at [limit], and 0 when [limit] is not
    positive. *)
Theorem countSolutions_counts (s0 : Solver) (b : Board) (limit : Z) :
  wfBoard b -> fst (loadBoard s0 b) = true ->
  exists (sols : list Board) (s' : Solver),
    NoDup sols /\ (forall x, In x sols <-> isSolution b x) /\
    countSolutions limit (snd (loadBoard s0 b)) =
      Some (if limit <=? 0 then 0 else Z.min limit (Z.of_nat (length sols)), s').
Proof.
  intros Hw Hload.
  destruct (loaded_facts s0 b Hw Hload) as (Hn & _).
  destruct (mrvSolutions_spec b Hw Hn) as [Hnd Hiff].
  exists (mrvSolutions b). eexists. split; [exact Hnd|]. split; [exact Hiff|].
  unfold countSolutions. rewrite (solve_loaded s0 b limit Hw Hload).
  reflexivity.
Qed.

Lemma countSolutions_counts_witness :
  exists (sols : list Board) (s' : Solver),
    NoDup sols /\ (forall x, In x sols <-> isSolution emptyBoard x) /\
    countSolutions 3 (snd (loadBoard newSolver emptyBoard)) =
      Some (if 3 <=? 0 then 0 else Z.min 3 (Z.of_nat (length sols)), s').
Proof.
  apply (countSolutions_counts newSolver emptyBoard 3).
  - vm_compute. reflexivity.
  - vm_compute. reflexivity.
Defined.

(** X4: On success [loadBoard] keeps the Board it was given and lists in
    [empties] exactly the empty cells of the Board, each once, in
    row-major order. *)
Theorem loadBoard_empties (s0 : Solver) (b : Board) :
  wfBoard b -> fst (loadBoard s0 b) = true ->
  board (snd (loadBoard s0 b)) = b /\
  empties (snd (loadBoard s0 b)) =
    filter (fun rc => cell b (fst rc) (snd rc) =? 0) allCells /\
  NoDup (empties (snd (loadBoard s0 b))) /\
  forall r c, In (r, c) (empties (snd (loadBoard s0 b))) <->
              (r < 9)%nat /\ (c < 9)%nat /\ cell b r c = 0.
Proof.
  intros Hw Hload.
  destruct (loaded_facts s0 b Hw Hload) as (_ & _ & Hb & He). clear Hload.
  generalize dependent (snd (loadBoard s0 b)). intros s Hb He.
  split; [exact Hb|]. split; [exact He|]. rewrite He. split.
  - apply NoDup_filter, NoDup_allCells.
  - intros r c. apply in_collectEmpties.
Qed.

Lemma loadBoard_empties_witness :
  board (snd (loadBoard newSolver deadBoard)) = deadBoard /\
  empties (snd (loadBoard newSolver deadBoard)) =
    filter (fun rc => cell deadBoard (fst rc) (snd rc) =? 0) allCells /\
  NoDup (empties (snd (loadBoard newSolver deadBoard))) /\
  forall r c, In (r, c) (empties (snd (loadBoard newSolver deadBoard))) <->
              (r < 9)%nat /\ (c < 9)%nat /\ cell deadBoard r c = 0.
Proof.
  apply (loadBoard_empties newSolver deadBoard).
  - vm_compute. reflexivity.
  - vm_compute. reflexivity.
Defined.

(** X5: Placing a candidate digit in an empty cell and undoing it gives back
    the solver exactly; in between the masks describe the board with the
    digit in place. *)
Theorem place_then_undo (s0 : Solver) (b : Board) (r c : nat) (d : Z) :
  wfBoard b -> fst (loadBoard s0 b) = true ->
  (r < 9)%nat -> (c < 9)%nat -> cell b r c = 0 -> 1 <= d <= 9 ->
  Z.testbit (candidatesMask (snd (loadBoard s0 b)) r c) (d - 1) = true ->
  unplace (place (snd (loadBoard s0 b)) r c d) r c d = snd (loadBoard s0 b) /\
  masksOK (place (snd (loadBoard s0 b)) r c d) /\
  board (place (snd (loadBoard s0 b)) r c d) = put b r c d.
Proof.
  intros Hw Hload Hr Hc Hz Hd Hbit.
  destruct (loaded_facts s0 b Hw Hload) as (_ & Hinv & Hb & _). clear Hload.
  generalize dependent (snd (loadBoard s0 b)). intros s Hbit Hinv Hb.
  assert (In d (candidateDigits (board s) r c)) as Hcand.
  { rewrite <- (asc_candidates s r c (inv_masks _ Hinv)
                  (sinv_wf _ _ (inv_board _ Hinv)) Hr Hc).
    apply in_ascDigits. split; assumption. }
  rewrite <- Hb in Hz. split; [|split].
  - apply unplace_place; assumption.
  - apply place_masksOK; try assumption.
    + apply Hinv.
    + apply Hinv.
  - cbn [place board]. rewrite Hb. reflexivity.
Qed.

Lemma place_then_undo_witness :
  unplace (place (snd (loadBoard newSolver deadBoard)) 1 0 4) 1 0 4 =
    snd (loadBoard newSolver deadBoard) /\
  masksOK (place (snd (loadBoard newSolver deadBoard)) 1 0 4) /\
  board (place (snd (loadBoard newSolver deadBoard)) 1 0 4) = put deadBoard 1 0 4.
Proof.
  apply (place_then_undo newSolver deadBoard 1 0 4).
  - vm_compute. reflexivity.
  - vm_compute. reflexivity.
  - lia.
  - lia.
  - vm_compute. reflexivity.
  - lia.
  - vm_compute. reflexivity.
Defined.

(** X6: The lowest-set-bit loop lists exactly the digits whose bit is set in a
    9-bit mask, in increasing order, and [popcount] is their number. *)
Theorem maskDigits_ascending (m : Z) :
  0 <= m < 512 ->
  maskDigits 32 m = Some (filter (fun d => Z.testbit m (d - 1)) digits19) /\
  popcount m = Z.of_nat (length (filter (fun d => Z.testbit m (d - 1)) digits19)).
Proof.
  intro Hm. destruct (mask_facts m Hm) as (H1 & H2 & _). split; assumption.
Qed.

Lemma maskDigits_ascending_witness :
  maskDigits 32 329 = Some (filter (fun d => Z.testbit 329 (d - 1)) digits19) /\
  popcount 329 = Z.of_nat (length (filter (fun d => Z.testbit 329 (d - 1)) digits19)).
Proof. apply (maskDigits_ascending 329). lia. Defined.

(** *** Solving again on the same object *)

Lemma scanFrom_full_board t es : forall i best,
  (forall r c, In (r, c) es -> cell (board t) r c <> 0) ->
  scanFrom t es i best = Some best.
Proof.
  induction es as [|[r c] es IH]; intros i best H; [reflexivity|].
  cbn [scanFrom].
  destruct (Z.eqb_spec (cell (board t) r c) 0) as [E|E].
  - exfalso. apply (H r c); [left; reflexivity|exact E].
  - cbn [negb]. apply IH. intros r' c' Hin. apply H. right. exact Hin.
Qed.

Lemma dfs_leaf fuel limit t q :
  outCount q < limit ->
  (forall r c, In (r, c) (empties t) -> cell (board t) r c <> 0) ->
  dfs (S fuel) limit t q =
    Some (outCount q + 1 >=? limit, t,
          mkSearch (outCount q + 1)
            (match savedBoard q with
             | None => Some (board t)
             | Some sb => Some sb
             end), []).
Proof.
  intros Hq Hfull. cbn [dfs].
  destruct (Z.geb_spec (outCount q) limit); [lia|].
  unfold scan. rewrite (scanFrom_full_board t (empties t) 0 _ Hfull).
  cbn [fst snd]. rewrite Z.eqb_refl. reflexivity.
Qed.

Transparent solve.

Lemma solve_full_board limit t :
  1 <= limit ->
  (forall r c, In (r, c) (empties t) -> cell (board t) r c <> 0) ->
  solve limit t = Some (true, 1, t).
Proof.
  intros Hl Hfull. unfold solve, runDfs, depthBound.
  rewrite (dfs_leaf 81 limit t (mkSearch 0 None)) by (cbn [outCount]; lia || exact Hfull).
  cbn [outCount savedBoard]. destruct t. reflexivity.
Qed.

Opaque solve.

(** X7: Once [solve] has found a solution, solving again on the same object
    without reloading (as [main] does with [countSolutions] followed by
    [solveOne]) returns true with count 1 and leaves that solution in
    place. *)
Theorem solve_again_keeps_solution (s0 : Solver) (b : Board)
    (limit1 limit2 n : Z) (s1 : Solver) :
  wfBoard b -> fst (loadBoard s0 b) = true ->
  solve limit1 (snd (loadBoard s0 b)) = Some (true, n, s1) ->
  1 <= limit2 ->
  solve limit2 s1 = Some (true, 1, s1) /\ isSolution b (board s1).
Proof.
  intros Hw Hload Hsolve Hl.
  destruct (loaded_facts s0 b Hw Hload) as (Hn & _ & _ & He).
  destruct (mrvSolutions_spec b Hw Hn) as [_ Hiff].
  rewrite (solve_loaded s0 b limit1 Hw Hload) in Hsolve.
  clear Hload. generalize dependent (snd (loadBoard s0 b)). intros s Hsolve He.
  unfold capped in Hsolve.
  destruct (Z.leb_spec limit1 0) as [H0|H0].
  { cbn [Z.geb Z.compare] in Hsolve. discriminate Hsolve. }
  destruct (mrvSolutions b) as [|first rest] eqn:E.
  { cbn [length] in Hsolve. rewrite Z.min_r in Hsolve by lia.
    cbn [Z.geb Z.compare Z.of_nat] in Hsolve. discriminate Hsolve. }
  assert (isSolution b first) as Hf by (apply Hiff; left; reflexivity).
  injection Hsolve as _ _ Z0. subst s1.
  split; [|exact Hf].
  apply solve_full_board; [exact Hl|].
  cbn [withBoard empties board]. rewrite He. intros r c Hin.
  apply in_collectEmpties in Hin as (Hr & Hc & _).
  destruct Hf as (_ & Hcomp & _). exact (Hcomp r c Hr Hc).
Qed.

Lemma solve_again_keeps_solution_witness :
  solve 1 (withBoard (snd (loadBoard newSolver uniquePuzzle)) sampleSolution) =
    Some (true, 1, withBoard (snd (loadBoard newSolver uniquePuzzle)) sampleSolution) /\
  isSolution uniquePuzzle
    (board (withBoard (snd (loadBoard newSolver uniquePuzzle)) sampleSolution)).
Proof.
  apply (solve_again_keeps_solution newSolver uniquePuzzle 2 1 1).
  - vm_compute. reflexivity.
  - vm_compute. reflexivity.
  - vm_compute. reflexivity.
  - lia.
Defined.

(* ================================================================== *)
(** ** Further properties of the digger *)

Lemma countFilled_put_zero p r c :
  wfBoard p -> (r < 9)%nat -> (c < 9)%nat -> cell p r c <> 0 ->
  countFilled p = countFilled (put p r c 0) + 1.
Proof.
  intros Hw Hr Hc Hnz. unfold countFilled.
  rewrite (filter_flip_length
             (fun rc => negb (cell p (fst rc) (snd rc) =? 0))
             (fun rc => negb (cell (put p r c 0) (fst rc) (snd rc) =? 0))
             allCells (r, c)).
  - lia.
  - apply NoDup_allCells.
  - apply in_allCells. split; assumption.
  - cbn [fst snd]. apply negb_true_iff. apply Z.eqb_neq. exact Hnz.
  - cbn [fst snd]. rewrite cell_put_eq by assumption. reflexivity.
  - intros [r' c'] Hne. cbn [fst snd]. rewrite cell_put_ne; [reflexivity|exact Hw|].
    intro X. apply Hne. symmetry. exact X.
Qed.

Lemma countFilled_complete p : complete p -> countFilled p = 81.
Proof.
  intro Hc. unfold countFilled.
  assert (filter (fun rc => negb (cell p (fst rc) (snd rc) =? 0)) allCells = allCells) as ->.
  { apply forallb_filter_id. apply forallb_allCells. intros r c Hr Hcc.
    cbn [fst snd]. apply negb_true_iff, Z.eqb_neq. exact (Hc r c Hr Hcc). }
  reflexivity.
Qed.

Lemma countFilled_le p : countFilled p <= 81.
Proof.
  unfold countFilled.
  pose proof (filter_length_le (fun rc => negb (cell p (fst rc) (snd rc) =? 0)) allCells) as H.
  change (length allCells) with 81%nat in H. lia.
Qed.

Lemma digStep_cases target solver p r c solver' p' :
  wfBoard p ->
  digStep target solver p (r, c) = Some (DigNext solver' p') ->
  p' = p \/
  (p' = put p r c 0 /\ target < countFilled p /\ cell p r c <> 0).
Proof.
  intros Hw. unfold digStep. cbn [fst snd].
  destruct (Z.leb_spec (countFilled p) target) as [Hle|Hgt]; [discriminate|].
  destruct (Z.eqb_spec (cell p r c) 0) as [Ez|Ez].
  { intro H. inversion H. left. reflexivity. }
  destruct (cell_nonzero_range p r c Hw Ez) as [Hr Hc].
  rewrite (put_restore p r c Hw Hr).
  destruct (loadBoard solver (put p r c 0)) as [ok s1]. destruct ok.
  - destruct (countSolutions 2 s1) as [[cnt s2]|]; [|discriminate].
    destruct (negb (cnt =? 1)); intro H; inversion H.
    + left. reflexivity.
    + right. split; [reflexivity|]. split; assumption.
  - intro H. inversion H. left. reflexivity.
Qed.

Lemma digLoop_count target sol : forall positions solver p p',
  DigInv sol p -> Z.min target 81 <= countFilled p ->
  digLoop target positions solver p = Some p' ->
  Z.min target 81 <= countFilled p'.
Proof.
  induction positions as [|[r c] rest IH]; intros solver p p' Hinv Hcount Hloop.
  - cbn [digLoop] in Hloop. inversion Hloop. subst. exact Hcount.
  - cbn [digLoop] in Hloop.
    destruct (digStep_spec target solver p (r, c) sol Hinv) as (st & Hst & Hnext).
    rewrite Hst in Hloop. destruct st as [|solver1 p1].
    + inversion Hloop. subst. exact Hcount.
    + apply (IH solver1 p1 p' Hnext); [|exact Hloop].
      destruct (digStep_cases target solver p r c solver1 p1 (dig_wf _ _ Hinv) Hst)
        as [->|(-> & Hgt & Hnz)]; [exact Hcount|].
      destruct (cell_nonzero_range p r c (dig_wf _ _ Hinv) Hnz) as [Hr Hc].
      pose proof (countFilled_put_zero p r c (dig_wf _ _ Hinv) Hr Hc Hnz). lia.
Qed.

(** X8: The digger never removes a clue once the count has come down to
    [targetClues]: the puzzle returned by [generatePuzzle] has at least
    [targetClues] clues (all 81 when [targetClues] is larger), never
    fewer. *)
Theorem puzzle_keeps_target_clues
    (Rng : Type) (shuffle : forall A : Type, list A -> Rng -> list A * Rng)
    (shuffle_perm : forall (A : Type) (l : list A) (g : Rng),
        Permutation (fst (shuffle A l g)) l)
    (n : nat) (g : Rng) (targetClues : Z) :
  exists p g',
    generatePuzzle shuffle (S n) g targetClues = Some (p, g') /\
    Z.min targetClues 81 <= countFilled p <= 81.
Proof.
  destruct (generateFullSolution_spec Rng shuffle shuffle_perm n g)
    as (sol & g1 & Hgen & _ & Hw & Hc & Hn).
  destruct (digLoop_spec targetClues sol (fst (shuffle (nat * nat)%type allCells g1))
              newSolver sol (DigInv_start sol Hw Hc Hn)) as (p & Hdig & Hinv).
  exists p, (snd (shuffle (nat * nat)%type allCells g1)).
  split.
  - unfold generatePuzzle. rewrite Hgen, Hdig. reflexivity.
  - split; [|apply countFilled_le].
    apply (digLoop_count targetClues sol (fst (shuffle (nat * nat)%type allCells g1))
             newSolver sol p (DigInv_start sol Hw Hc Hn)); [|exact Hdig].
    rewrite (countFilled_complete sol Hc). lia.
Qed.

Lemma puzzle_keeps_target_clues_witness :
  exists p g',
    generatePuzzle idShuffle 1 tt 30 = Some (p, g') /\
    Z.min 30 81 <= countFilled p <= 81.
Proof.
  apply (puzzle_keeps_target_clues unit idShuffle).
  intros A l g. simpl. apply Permutation_refl.
Defined.

(** X9: What [main] shows for a generated puzzle: the puzzle loads, and
    [solveOne] on it returns true and leaves in the solver's board the
    complete grid the puzzle was dug from. *)
Theorem generated_puzzle_solution_shown
    (Rng : Type) (shuffle : forall A : Type, list A -> Rng -> list A * Rng)
    (shuffle_perm : forall (A : Type) (l : list A) (g : Rng),
        Permutation (fst (shuffle A l g)) l)
    (n : nat) (g : Rng) (targetClues : Z) (s0 : Solver) :
  exists sol g1 p g2,
    generateFullSolution shuffle (S n) g = Some (sol, g1) /\
    generatePuzzle shuffle (S n) g targetClues = Some (p, g2) /\
    fst (loadBoard s0 p) = true /\
    exists s', solveOne (snd (loadBoard s0 p)) = Some (true, s') /\ board s' = sol.
Proof.
  destruct (generatePuzzle_spec Rng shuffle shuffle_perm n g targetClues)
    as (sol & g1 & p & g2 & Hgen & Hp & Hw & Hc & Hn & Hinv).
  exists sol, g1, p, g2. split; [exact Hgen|]. split; [exact Hp|].
  pose proof (DigInv_solution sol p Hw Hc Hn Hinv) as Hsol.
  pose proof (DigInv_unique sol p Hw Hc Hn Hinv) as Huniq.
  destruct Hinv as [Hwp Hnp _ _].
  pose proof (proj2 (loadBoard_true_iff s0 p Hwp) Hnp) as Hload.
  split; [exact Hload|].
  unfold solveOne. rewrite (solve_loaded s0 p 1 Hwp Hload).
  rewrite (count_unique p sol Hwp Hnp Hsol Huniq).
  eexists. split; reflexivity.
Qed.

Lemma generated_puzzle_solution_shown_witness :
  exists sol g1 p g2,
    generateFullSolution idShuffle 1 tt = Some (sol, g1) /\
    generatePuzzle idShuffle 1 tt 30 = Some (p, g2) /\
    fst (loadBoard newSolver p) = true /\
    exists s', solveOne (snd (loadBoard newSolver p)) = Some (true, s') /\ board s' = sol.
Proof.
  apply (generated_puzzle_solution_shown unit idShuffle).
  intros A l g. simpl. apply Permutation_refl.
Defined.

(* ================================================================== *)
(** ** [parseBoard] *)

Lemma grid_spec b :
  grid b <-> length b = 9%nat /\ Forall (fun row => length row = 9%nat) b.
Proof.
  unfold grid, gridb. rewrite andb_true_iff, Nat.eqb_eq, forallb_forall, Forall_forall.
  split; intros [H1 H2]; (split; [exact H1|]); intros row Hrow.
  - exact (proj1 (Nat.eqb_eq _ _) (H2 row Hrow)).
  - exact (proj2 (Nat.eqb_eq _ _) (H2 row Hrow)).
Qed.

Lemma grid_length b : grid b -> length b = 9%nat.
Proof. intro H. now apply grid_spec in H. Qed.

Lemma grid_row_length b r : grid b -> (r < 9)%nat -> length (nth r b []) = 9%nat.
Proof.
  intros H Hr. apply grid_spec in H as [Hl Hf].
  rewrite Forall_forall in Hf. apply Hf. apply nth_In. lia.
Qed.

Lemma wfBoard_grid b : wfBoard b -> grid b.
Proof.
  intro Hw. apply grid_spec. split; [exact (wfBoard_length b Hw)|].
  apply Forall_forall. intros row Hrow.
  apply wfBoard_spec in Hw as [_ Hf]. rewrite Forall_forall in Hf.
  exact (proj1 (proj1 (wfRowb_spec row) (Hf row Hrow))).
Qed.

Lemma upd_overflow {A} (l : list A) i x : (length l <= i)%nat -> upd l i x = l.
Proof.
  revert i. induction l as [|h t IH]; intros [|i] H; simpl in *; try reflexivity; try lia.
  rewrite IH by lia. reflexivity.
Qed.

Lemma grid_put b r c v : grid b -> grid (put b r c v).
Proof.
  intro H. unfold put.
  destruct (Nat.lt_ge_cases r (length b)) as [Hr|Hr].
  - apply grid_spec in H as [Hl Hf]. apply grid_spec. split.
    + now rewrite length_upd.
    + apply Forall_upd; [exact Hf|]. rewrite length_upd.
      rewrite Forall_forall in Hf. apply Hf. now apply nth_In.
  - rewrite upd_overflow by exact Hr. exact H.
Qed.

Lemma cell_put_eq_grid b r c v :
  grid b -> (r < 9)%nat -> (c < 9)%nat -> cell (put b r c v) r c = v.
Proof.
  intros H Hr Hc. unfold cell, put.
  rewrite nth_upd_eq by (rewrite (grid_length b H); lia).
  apply nth_upd_eq. rewrite (grid_row_length b r H Hr). lia.
Qed.

Lemma cell_put_ne_grid b r c v r' c' :
  grid b -> (r, c) <> (r', c') -> cell (put b r c v) r' c' = cell b r' c'.
Proof.
  intros H Hne. unfold cell, put.
  destruct (Nat.eq_dec r r') as [<-|Hr].
  - destruct (Nat.lt_ge_cases r 9) as [Hlt|Hge].
    + rewrite nth_upd_eq by (rewrite (grid_length b H); lia).
      apply nth_upd_ne. congruence.
    + rewrite (nth_overflow (upd _ _ _)) by (rewrite length_upd, (grid_length b H); lia).
      now rewrite (nth_overflow b) by (rewrite (grid_length b H); lia).
  - now rewrite nth_upd_ne.
Qed.

Lemma board_ext_grid b1 b2 :
  grid b1 -> grid b2 ->
  (forall r c, (r < 9)%nat -> (c < 9)%nat -> cell b1 r c = cell b2 r c) ->
  b1 = b2.
Proof.
  intros H1 H2 Hc.
  apply nth_ext with (d := []) (d' := []).
  - now rewrite (grid_length _ H1), (grid_length _ H2).
  - intros r Hr. rewrite (grid_length _ H1) in Hr.
    apply nth_ext with (d := 0) (d' := 0).
    + now rewrite (grid_row_length _ _ H1 Hr), (grid_row_length _ _ H2 Hr).
    + intros c Hcl. rewrite (grid_row_length _ _ H1 Hr) in Hcl.
      now apply Hc.
Qed.

Lemma wfBoard_of_cells b :
  grid b -> (forall r c, (r < 9)%nat -> (c < 9)%nat -> 0 <= cell b r c <= 9) ->
  wfBoard b.
Proof.
  intros Hg Hc. apply wfBoard_spec. split; [exact (grid_length b Hg)|].
  apply Forall_forall. intros row Hrow.
  destruct (In_nth b row [] Hrow) as (r & Hr & <-).
  rewrite (grid_length b Hg) in Hr.
  apply wfRowb_spec. split; [exact (grid_row_length b r Hg Hr)|].
  apply Forall_forall. intros v Hv.
  destruct (In_nth (nth r b []) v 0 Hv) as (c & Hcl & <-).
  rewrite (grid_row_length b r Hg Hr) in Hcl. exact (Hc r c Hr Hcl).
Qed.

Lemma leadingOK_le t : (leadingOK t <= length t)%nat.
Proof.
  induction t as [|ch t IH]; simpl; [lia|].
  destruct (isBlankChar ch || isDigitChar ch); simpl; lia.
Qed.

Lemma leadingOK_nth t : forall k,
  (k < leadingOK t)%nat -> isBlankChar (nth k t zero) || isDigitChar (nth k t zero) = true.
Proof.
  induction t as [|ch t IH]; intros k Hk; cbn [leadingOK] in Hk; [lia|].
  destruct (isBlankChar ch || isDigitChar ch) eqn:E; [|lia].
  destruct k as [|k]; [exact E|]. cbn [nth]. apply IH. lia.
Qed.

Lemma charValue_range ch :
  isBlankChar ch || isDigitChar ch = true -> 0 <= charValue ch <= 9.
Proof.
  unfold charValue, isDigitChar. intro H.
  destruct (isBlankChar ch); [lia|]. cbn [orb] in H.
  apply andb_true_iff in H as [H1 H2].
  apply Nat.leb_le in H1, H2. lia.
Qed.

Lemma index_cell k :
  (k < 81)%nat -> (k / 9 < 9)%nat /\ (k mod 9 < 9)%nat.
Proof.
  intro H. split.
  - apply Nat.Div0.div_lt_upper_bound. lia.
  - apply Nat.mod_upper_bound. lia.
Qed.

Lemma index_cell_inj k j :
  (k / 9, k mod 9)%nat = (j / 9, j mod 9)%nat -> k = j.
Proof.
  intro H. apply pair_equal_spec in H as [H1 H2].
  pose proof (Nat.div_mod_eq k 9) as Ek. pose proof (Nat.div_mod_eq j 9) as Ej.
  rewrite H1, H2 in Ek. rewrite Ek. symmetry. exact Ej.
Qed.

Lemma parseCells_spec : forall t i b,
  grid b -> (i + length t = 81)%nat ->
  fst (parseCells t i b) = (leadingOK t =? length t)%nat /\
  grid (snd (parseCells t i b)) /\
  forall k, (k < 81)%nat ->
    cell (snd (parseCells t i b)) (k / 9) (k mod 9) =
    if (k <? i)%nat then cell b (k / 9) (k mod 9)
    else if (k <? i + leadingOK t)%nat then charValue (nth (k - i) t zero)
    else cell b (k / 9) (k mod 9).
Proof.
  induction t as [|ch t IH]; intros i b Hw Hlen.
  - simpl. split; [reflexivity|]. split; [exact Hw|]. intros k Hk.
    rewrite Nat.add_0_r. destruct (k <? i)%nat; reflexivity.
  - cbn [length] in Hlen.
    destruct (index_cell i) as [Hr Hc]; [lia|].
    assert (forall v,
              fst (parseCells t (S i) (put b (i / 9) (i mod 9) v)) =
                (leadingOK t =? length t)%nat /\
              grid (snd (parseCells t (S i) (put b (i / 9) (i mod 9) v))) /\
              forall k, (k < 81)%nat ->
                cell (snd (parseCells t (S i) (put b (i / 9) (i mod 9) v)))
                     (k / 9) (k mod 9) =
                if (k <? i)%nat then cell b (k / 9) (k mod 9)
                else if (k <? S (i + leadingOK t))%nat
                     then (if (k =? i)%nat then v else charValue (nth (k - S i) t zero))
                     else cell b (k / 9) (k mod 9)) as Hstep.
    { intros v.
      destruct (IH (S i) (put b (i / 9) (i mod 9) v)) as (H1 & H2 & H3).
      - apply grid_put; assumption.
      - lia.
      - split; [exact H1|]. split; [exact H2|]. intros k Hk.
        rewrite (H3 k Hk).
        assert (forall k', k' <> i ->
                  cell (put b (i / 9) (i mod 9) v) (k' / 9) (k' mod 9) =
                  cell b (k' / 9) (k' mod 9)) as Hother.
        { intros k' Hne. apply cell_put_ne_grid; [exact Hw|].
          intro X. apply Hne. symmetry. exact (index_cell_inj _ _ X). }
        destruct (Nat.ltb_spec k (S i)) as [Hlt|Hge].
        + destruct (Nat.ltb_spec k i) as [Hlt'|Hge'].
          * apply Hother. lia.
          * assert (k = i) by lia. subst k.
            destruct (Nat.ltb_spec i (S (i + leadingOK t))); [|lia].
            rewrite Nat.eqb_refl. apply cell_put_eq_grid; assumption.
        + destruct (Nat.ltb_spec k i); [lia|].
          replace (S i + leadingOK t)%nat with (S (i + leadingOK t)) by lia.
          destruct (Nat.ltb_spec k (S (i + leadingOK t))).
          * destruct (Nat.eqb_spec k i); [lia|reflexivity].
          * apply Hother. lia. }
    cbn [parseCells leadingOK].
    assert (forall k, (i <= k)%nat ->
              nth (k - i) (ch :: t) zero =
              if (k =? i)%nat then ch else nth (k - S i) t zero) as Hnth.
    { intros k Hk. destruct (Nat.eqb_spec k i) as [->|Hne].
      - rewrite Nat.sub_diag. reflexivity.
      - replace (k - i)%nat with (S (k - S i)) by lia. reflexivity. }
    destruct (isBlankChar ch) eqn:Eb.
    + cbn [orb]. destruct (Hstep 0) as (H1 & H2 & H3).
      split; [exact H1|]. split; [exact H2|]. intros k Hk. rewrite (H3 k Hk).
      replace (i + S (leadingOK t))%nat with (S (i + leadingOK t)) by lia.
      destruct (Nat.ltb_spec k i); [reflexivity|].
      destruct (Nat.ltb_spec k (S (i + leadingOK t))); [|reflexivity].
      rewrite Hnth by lia. destruct (k =? i)%nat; [|reflexivity].
      unfold charValue. rewrite Eb. reflexivity.
    + cbn [orb]. destruct (isDigitChar ch) eqn:Ed.
      * destruct (Hstep (Z.of_nat (nat_of_ascii ch) - 48)) as (H1 & H2 & H3).
        split; [exact H1|]. split; [exact H2|]. intros k Hk. rewrite (H3 k Hk).
        replace (i + S (leadingOK t))%nat with (S (i + leadingOK t)) by lia.
        destruct (Nat.ltb_spec k i); [reflexivity|].
        destruct (Nat.ltb_spec k (S (i + leadingOK t))); [|reflexivity].
        rewrite Hnth by lia. destruct (k =? i)%nat; [|reflexivity].
        unfold charValue. rewrite Eb. reflexivity.
      * cbn [fst snd]. split; [reflexivity|]. split; [exact Hw|].
        intros k Hk. rewrite Nat.add_0_r.
        destruct (k <? i)%nat; reflexivity.
Qed.

(** What [parseBoard] leaves in the board, on any board of the right
    shape. *)
Lemma parseBoard_cells (s : Text) (b0 : Board) :
  grid b0 ->
  let t := filter (fun ch => negb (isspace ch)) s in
  (length t <> 81%nat -> parseBoard s b0 = (false, b0)) /\
  (length t = 81%nat ->
     fst (parseBoard s b0) = (leadingOK t =? 81)%nat /\
     grid (snd (parseBoard s b0)) /\
     forall r c, (r < 9)%nat -> (c < 9)%nat ->
       cell (snd (parseBoard s b0)) r c =
       if (r * 9 + c <? leadingOK t)%nat then charValue (nth (r * 9 + c) t zero)
       else cell b0 r c).
Proof.
  intros Hw t. unfold parseBoard. fold t. split.
  - intro Hne. destruct (Nat.eqb_spec (length t) 81); [contradiction|reflexivity].
  - intro Hlen. rewrite Hlen. cbn [Nat.eqb negb].
    destruct (parseCells_spec t 0 b0 Hw) as (H1 & H2 & H3); [lia|].
    rewrite Hlen in H1. split; [exact H1|]. split; [exact H2|].
    intros r c Hr Hc.
    assert ((r * 9 + c) / 9 = r)%nat as Er.
    { symmetry. apply (Nat.div_unique _ 9 r c); lia. }
    assert ((r * 9 + c) mod 9 = c)%nat as Ec.
    { symmetry. apply (Nat.mod_unique _ 9 r c); lia. }
    pose proof (H3 (r * 9 + c)%nat ltac:(lia)) as H.
    rewrite Er, Ec in H. rewrite H. cbn [Nat.ltb Nat.leb Nat.add].
    rewrite Nat.sub_0_r. reflexivity.
Qed.

Lemma parseBoard_cell_range (s : Text) (b0 : Board) r c :
  grid b0 -> (r < 9)%nat -> (c < 9)%nat ->
  length (filter (fun ch => negb (isspace ch)) s) = 81%nat ->
  (fst (parseBoard s b0) = true \/ 0 <= cell b0 r c <= 9) ->
  0 <= cell (snd (parseBoard s b0)) r c <= 9.
Proof.
  intros Hg Hr Hc Hlen Hcase.
  destruct (parseBoard_cells s b0 Hg) as [_ Hgood].
  destruct (Hgood Hlen) as (F & _ & C). rewrite (C r c Hr Hc).
  destruct (Nat.ltb_spec (r * 9 + c)
              (leadingOK (filter (fun ch => negb (isspace ch)) s))) as [Hlt|Hge].
  - apply charValue_range. apply leadingOK_nth. exact Hlt.
  - destruct Hcase as [Hok|Hold]; [|exact Hold].
    rewrite Hok in F. symmetry in F. apply Nat.eqb_eq in F. lia.
Qed.

(** X10: [parseBoard] never reads the board it is given.  It drops the
    whitespace, refuses a text that does not have exactly 81 characters
    left (the board is then untouched), and otherwise stores the
    characters cell by cell up to the first one that is neither '.', '0'
    nor a digit 1..9: it returns true exactly when there is no such
    character, and the resulting board holds the parsed values in the
    cells before that character and the old values, whatever they were,
    after it.  A successful parse gives a Board (every cell in 0..9). *)
Theorem parseBoard_stores_cells (s : Text) (b0 : Board) :
  grid b0 ->
  let t := filter (fun ch => negb (isspace ch)) s in
  (length t <> 81%nat -> parseBoard s b0 = (false, b0)) /\
  (length t = 81%nat ->
     fst (parseBoard s b0) = (leadingOK t =? 81)%nat /\
     grid (snd (parseBoard s b0)) /\
     (fst (parseBoard s b0) = true -> wfBoard (snd (parseBoard s b0))) /\
     (wfBoard b0 -> wfBoard (snd (parseBoard s b0))) /\
     forall r c, (r < 9)%nat -> (c < 9)%nat ->
       cell (snd (parseBoard s b0)) r c =
       if (r * 9 + c <? leadingOK t)%nat then charValue (nth (r * 9 + c) t zero)
       else cell b0 r c).
Proof.
  intros Hg t. destruct (parseBoard_cells s b0 Hg) as [Hbad Hgood]. fold t in Hbad, Hgood.
  split; [exact Hbad|]. intro Hlen.
  destruct (Hgood Hlen) as (F & G & C).
  split; [exact F|]. split; [exact G|]. split; [|split; [|exact C]].
  - intro Hok. apply wfBoard_of_cells; [exact G|]. intros r c Hr Hc.
    apply parseBoard_cell_range; try assumption. left. exact Hok.
  - intro Hw. apply wfBoard_of_cells; [exact G|]. intros r c Hr Hc.
    apply parseBoard_cell_range; try assumption. right. exact (wfBoard_cell b0 r c Hw).
Qed.

Lemma parseBoard_stores_cells_witness :
  let t := filter (fun ch => negb (isspace ch)) sampleText in
  (length t <> 81%nat -> parseBoard sampleText garbageBoard = (false, garbageBoard)) /\
  (length t = 81%nat ->
     fst (parseBoard sampleText garbageBoard) = (leadingOK t =? 81)%nat /\
     grid (snd (parseBoard sampleText garbageBoard)) /\
     (fst (parseBoard sampleText garbageBoard) = true ->
      wfBoard (snd (parseBoard sampleText garbageBoard))) /\
     (wfBoard garbageBoard -> wfBoard (snd (parseBoard sampleText garbageBoard))) /\
     forall r c, (r < 9)%nat -> (c < 9)%nat ->
       cell (snd (parseBoard sampleText garbageBoard)) r c =
       if (r * 9 + c <? leadingOK t)%nat then charValue (nth (r * 9 + c) t zero)
       else cell garbageBoard r c).
Proof.
  apply (parseBoard_stores_cells sampleText garbageBoard).
  vm_compute. reflexivity.
Defined.

(** X11: a text that parses gives the same Board whatever the board
    argument held before (any two boards of the right shape, initialised
    or not); that Board has every cell in 0..9 and can be handed to
    [loadBoard], which fails on it exactly when it has a conflict. *)
Theorem parseBoard_then_load (s : Text) (b0 b1 : Board) (s0 : Solver) :
  grid b0 -> grid b1 ->
  fst (parseBoard s b0) = true ->
  parseBoard s b1 = parseBoard s b0 /\
  wfBoard (snd (parseBoard s b0)) /\
  (fst (loadBoard s0 (snd (parseBoard s b0))) = false <->
   hasConflict (snd (parseBoard s b0))).
Proof.
  intros Hg0 Hg1 Hok.
  destruct (parseBoard_cells s b0 Hg0) as [Hbad0 Hgood0].
  destruct (parseBoard_cells s b1 Hg1) as [Hbad1 Hgood1].
  cbv zeta in *.
  destruct (Nat.eq_dec (length (filter (fun ch => negb (isspace ch)) s)) 81) as [Hlen|Hlen].
  2: { rewrite (Hbad0 Hlen) in Hok. discriminate Hok. }
  assert (wfBoard (snd (parseBoard s b0))) as W0.
  { apply wfBoard_of_cells; [exact (proj1 (proj2 (Hgood0 Hlen)))|].
    intros r c Hr Hc. apply parseBoard_cell_range; try assumption. left. exact Hok. }
  destruct (Hgood0 Hlen) as (F0 & G0 & C0).
  destruct (Hgood1 Hlen) as (F1 & G1 & C1).
  set (t := filter (fun ch => negb (isspace ch)) s) in *.
  rewrite Hok in F0. symmetry in F0. apply Nat.eqb_eq in F0.
  assert (parseBoard s b1 = parseBoard s b0) as E.
  { destruct (parseBoard s b1) as [ok1 p1], (parseBoard s b0) as [ok0 p0].
    cbn [fst snd] in *. f_equal.
    - rewrite F1, F0. subst ok0. reflexivity.
    - apply board_ext_grid; try assumption. intros r c Hr Hc.
      rewrite (C0 r c Hr Hc), (C1 r c Hr Hc), F0.
      destruct (Nat.ltb_spec (r * 9 + c) 81); [reflexivity|lia]. }
  split; [exact E|]. split; [exact W0|].
  clear - W0.
  generalize dependent (snd (parseBoard s b0)). intros p W0.
  pose proof (loadBoard_true_iff s0 p W0) as Hiff.
  destruct (loadBoard_spec s0 p W0) as [_ Hf]. split; [exact Hf|].
  intro Hc. destruct (fst (loadBoard s0 p)) eqn:El; [|reflexivity].
  exfalso. exact (proj1 Hiff eq_refl Hc).
Qed.

Lemma parseBoard_then_load_witness :
  parseBoard sampleText emptyBoard = parseBoard sampleText garbageBoard /\
  wfBoard (snd (parseBoard sampleText garbageBoard)) /\
  (fst (loadBoard newSolver (snd (parseBoard sampleText garbageBoard))) = false <->
   hasConflict (snd (parseBoard sampleText garbageBoard))).
Proof.
  apply (parseBoard_then_load sampleText garbageBoard emptyBoard newSolver).
  - vm_compute. reflexivity.
  - vm_compute. reflexivity.
  - vm_compute. reflexivity.
Defined.

(* ================================================================== *)
(** ** [difficultyToClues] *)

(** X12: Whatever the text and whatever [stoi] does with it, the clue count
    returned lies between 17 and 81; a number that [stoi] converts is
    clamped into that range unless the text is one of the three words. *)
Theorem difficultyToClues_range (stoi : Text -> option Z) (diff : Text) :
  17 <= difficultyToClues stoi diff <= 81 /\
  (forall v,
     stoi diff = Some v ->
     textEqb (map tolower diff) easyText = false ->
     textEqb (map tolower diff) mediumText = false ->
     textEqb (map tolower diff) hardText = false ->
     difficultyToClues stoi diff = Z.max 17 (Z.min 81 v)).
Proof.
  unfold difficultyToClues. split.
  - destruct (textEqb _ easyText); [lia|].
    destruct (textEqb _ mediumText); [lia|].
    destruct (textEqb _ hardText); [lia|].
    destruct (stoi diff) as [v|]; [|lia].
    destruct (Z.ltb_spec v 17); [lia|].
    destruct (Z.gtb_spec v 81); lia.
  - intros v Hv -> -> ->. rewrite Hv.
    destruct (Z.ltb_spec v 17); [lia|].
    destruct (Z.gtb_spec v 81); lia.
Qed.

(* ================================================================== *)
(** ** [fillFullBoard] *)

Lemma testbit_usedFold vs : forall acc i,
  Forall (fun v => 0 <= v) vs -> 0 <= i ->
  Z.testbit (fold_left (fun used v => if v =? 0 then used else Z.lor used (bitOf v))
                       vs acc) i =
  Z.testbit acc i || existsb (Z.eqb (i + 1)) vs.
Proof.
  induction vs as [|v vs IH]; intros acc i Hvs Hi; cbn [fold_left existsb].
  - now rewrite orb_false_r.
  - inversion Hvs as [|? ? Hv Hvs']; subst.
    rewrite IH by assumption.
    destruct (Z.eqb_spec v 0) as [->|Hne].
    + destruct (Z.eqb_spec (i + 1) 0); [lia|]. reflexivity.
    + rewrite Z.lor_spec, testbit_bitOf by lia.
      destruct (Z.eqb_spec i (v - 1)); destruct (Z.eqb_spec (i + 1) v); try lia;
        destruct (Z.testbit acc i), (existsb (Z.eqb (i + 1)) vs); reflexivity.
Qed.

Lemma peerVals_nonneg b r c : wfBoard b -> Forall (fun v => 0 <= v) (peerVals b r c).
Proof.
  intro Hw. unfold peerVals. rewrite rowVals_vals, colVals_vals, blockVals_vals.
  repeat (apply Forall_app; split); apply vals_nonneg; exact Hw.
Qed.

Lemma usedScan_candidates b r c :
  wfBoard b ->
  ascDigits (Z.land (Z.lnot (usedScan b r c)) 511) = candidateDigits b r c.
Proof.
  intro Hw. unfold ascDigits, candidateDigits.
  apply filter_ext_in. intros d Hd. apply in_digits19 in Hd.
  rewrite Z.land_spec, Z.lnot_spec, testbit_511, andb_true_r by lia.
  unfold usedScan.
  rewrite testbit_usedFold by (auto using peerVals_nonneg; lia).
  rewrite Z.testbit_0_l. cbn [orb].
  now replace (d - 1 + 1) with d by lia.
Qed.

Lemma usedMask_range b r c : 0 <= Z.land (Z.lnot (usedScan b r c)) 511 < 512.
Proof.
  change 511 with (Z.ones 9). rewrite Z.land_ones by lia.
  apply Z.mod_pos_bound. lia.
Qed.

Lemma pos_range k :
  (k < 81)%nat ->
  (fst (nth k allCells (0%nat, 0%nat)) < 9)%nat /\
  (snd (nth k allCells (0%nat, 0%nat)) < 9)%nat.
Proof.
  intro Hk.
  assert (In (nth k allCells (0%nat, 0%nat)) allCells) as Hin
    by (apply nth_In; exact Hk).
  destruct (nth k allCells (0%nat, 0%nat)) as [r c]. now apply in_allCells.
Qed.

Lemma pos_inj k j :
  (k < 81)%nat -> (j < 81)%nat ->
  nth k allCells (0%nat, 0%nat) = nth j allCells (0%nat, 0%nat) -> k = j.
Proof.
  intros Hk Hj. apply (proj1 (NoDup_nth allCells (0%nat, 0%nat)) NoDup_allCells); assumption.
Qed.

Lemma pos_surj r c :
  (r < 9)%nat -> (c < 9)%nat ->
  exists k, (k < 81)%nat /\ nth k allCells (0%nat, 0%nat) = (r, c).
Proof.
  intros Hr Hc.
  destruct (In_nth allCells (r, c) (0%nat, 0%nat)) as (k & Hk & E).
  - apply in_allCells. split; assumption.
  - exists k. split; assumption.
Qed.

Lemma FillInv_put idx b d :
  (idx < 81)%nat -> FillInv idx b ->
  In d (candidateDigits b (fst (nth idx allCells (0%nat, 0%nat)))
                          (snd (nth idx allCells (0%nat, 0%nat)))) ->
  FillInv (S idx)
    (put b (fst (nth idx allCells (0%nat, 0%nat)))
           (snd (nth idx allCells (0%nat, 0%nat))) d).
Proof.
  intros Hidx [Hw Hn Hdone Htodo] Hd.
  destruct (pos_range idx Hidx) as [Hr Hc].
  pose proof (Htodo idx (le_n _) Hidx) as Hz.
  pose proof (proj1 (in_candidateDigits _ _ _ d Hr Hc) Hd) as [Hd19 _].
  assert (forall k, (k < 81)%nat -> k <> idx ->
            cell (put b (fst (nth idx allCells (0%nat, 0%nat)))
                        (snd (nth idx allCells (0%nat, 0%nat))) d)
                 (fst (nth k allCells (0%nat, 0%nat)))
                 (snd (nth k allCells (0%nat, 0%nat))) =
            cell b (fst (nth k allCells (0%nat, 0%nat)))
                   (snd (nth k allCells (0%nat, 0%nat)))) as Hother.
  { intros k Hk Hne. apply cell_put_ne; [exact Hw|].
    rewrite <- !surjective_pairing. intro X. apply Hne. symmetry.
    exact (pos_inj _ _ Hidx Hk X). }
  constructor.
  - apply wfBoard_put; [exact Hw|exact Hr|lia].
  - apply noConflict_put; assumption.
  - intros k Hk Hk81. destruct (Nat.eq_dec k idx) as [->|Hne].
    + rewrite cell_put_eq by assumption. lia.
    + rewrite Hother by assumption. apply Hdone; [lia|exact Hk81].
  - intros k Hk Hk81. rewrite Hother by (assumption || lia).
    apply Htodo; [lia|exact Hk81].
Qed.

Section FillProofs.

Variable Rng : Type.
Variable shuffle : forall A : Type, list A -> Rng -> list A * Rng.
Hypothesis shuffle_perm :
  forall (A : Type) (l : list A) (g : Rng), Permutation (fst (shuffle A l g)) l.

Section FillTry.

Variable rec : Board -> Rng -> option (bool * Board * Rng).
Variables r c : nat.
Variable b : Board.
Variable cands : list Z.
Variable Done : Board -> Prop.

Hypothesis rec_ok : forall d, In d cands -> forall g, exists ok b' g',
  rec (put b r c d) g = Some (ok, b', g') /\
  (ok = true -> Done b') /\
  (ok = false -> b' = put b r c d /\ noSolution (put b r c d)).
Hypothesis undo_ok : forall d, put (put b r c d) r c 0 = b.

Lemma fillTry_spec : forall ds g,
  incl ds cands ->
  exists ok b' g',
    fillTry rec r c ds b g = Some (ok, b', g') /\
    (ok = true -> Done b') /\
    (ok = false -> b' = b /\ forall d, In d ds -> noSolution (put b r c d)).
Proof.
  induction ds as [|d ds IH]; intros g Hincl.
  - exists false, b, g. split; [reflexivity|]. split; [discriminate|].
    intros _. split; [reflexivity|]. intros d [].
  - assert (In d cands) as Hd by (apply Hincl; left; reflexivity).
    assert (incl ds cands) as Hincl' by (intros x Hx; apply Hincl; right; exact Hx).
    destruct (rec_ok d Hd g) as (ok & b1 & g1 & Hrec & Ht & Hf).
    cbn [fillTry]. rewrite Hrec. destruct ok.
    + exists true, b1, g1. split; [reflexivity|]. split; [exact Ht|discriminate].
    + destruct (Hf eq_refl) as [-> Hno]. rewrite (undo_ok d).
      destruct (IH g1 Hincl') as (ok & b2 & g2 & Hrest & Ht2 & Hf2).
      exists ok, b2, g2. split; [exact Hrest|]. split; [exact Ht2|].
      intro H. destruct (Hf2 H) as [E Hall]. split; [exact E|].
      intros d' [<-|Hin]; [exact Hno|exact (Hall d' Hin)].
Qed.

End FillTry.

Lemma backtrack_spec fuel : forall idx b g,
  FillInv idx b -> (idx <= 81)%nat -> (81 - idx < fuel)%nat ->
  exists ok b' g',
    backtrack shuffle fuel idx b g = Some (ok, b', g') /\
    (ok = true -> wfBoard b' /\ complete b' /\ noConflict b') /\
    (ok = false -> b' = b /\ noSolution b).
Proof.
  induction fuel as [|fuel IH]; intros idx b g Hinv Hidx Hfuel; [lia|].
  cbn [backtrack].
  destruct (Nat.eqb_spec idx 81) as [->|Hne].
  { exists true, b, g. split; [reflexivity|]. split; [|discriminate]. intros _.
    split; [apply Hinv|]. split; [|apply Hinv].
    intros r c Hr Hc. destruct (pos_surj r c Hr Hc) as (k & Hk & E).
    pose proof (fill_done _ _ Hinv k Hk Hk) as H. rewrite E in H. exact H. }
  assert (idx < 81)%nat as Hlt by lia.
  destruct (pos_range idx Hlt) as [Hr Hc].
  set (r := fst (nth idx allCells (0%nat, 0%nat))) in *.
  set (c := snd (nth idx allCells (0%nat, 0%nat))) in *.
  pose proof (fill_wf _ _ Hinv) as Hw.
  pose proof (fill_todo _ _ Hinv idx (le_n _) Hlt) as Hz. fold r c in Hz.
  pose proof (usedMask_range b r c) as Hrange.
  pose proof (usedScan_candidates b r c Hw) as Hcand.
  destruct (mask_facts _ Hrange) as (Hdigs & _ & Hzero).
  destruct (Z.eqb_spec (Z.land (Z.lnot (usedScan b r c)) 511) 0) as [E0|E0].
  { exists false, b, g. split; [reflexivity|]. split; [discriminate|].
    intros _. split; [reflexivity|].
    apply Hzero in E0. rewrite Hcand in E0.
    exact (no_solution_dead b r c Hw Hr Hc Hz E0). }
  rewrite Hdigs, Hcand.
  pose proof (shuffle_perm Z (candidateDigits b r c) g) as Hperm.
  destruct (fillTry_spec (backtrack shuffle fuel (S idx)) r c b (candidateDigits b r c)
              (fun b' => wfBoard b' /\ complete b' /\ noConflict b'))
    with (ds := fst (shuffle Z (candidateDigits b r c) g))
         (g := snd (shuffle Z (candidateDigits b r c) g))
    as (ok & b' & g' & Htry & Ht & Hf).
  - intros d Hd g0.
    destruct (IH (S idx) (put b r c d) g0) as (ok & b1 & g1 & Hrec & Ht & Hf).
    + apply FillInv_put; assumption.
    + lia.
    + lia.
    + exists ok, b1, g1. split; [exact Hrec|]. split; [exact Ht|exact Hf].
  - intro d. apply put_undo; assumption.
  - intros x Hx. exact (Permutation_in _ Hperm Hx).
  - exists ok, b', g'. split; [exact Htry|]. split; [exact Ht|].
    intro H. destruct (Hf H) as [E Hno]. split; [exact E|].
    intros sol Hsol.
    destruct (solution_candidate b sol r c Hw Hsol Hr Hc Hz) as [Hd Hs'].
    refine (Hno (cell sol r c) _ sol Hs').
    exact (Permutation_in _ (Permutation_sym Hperm) Hd).
Qed.

Lemma FillInv_empty : FillInv 0 emptyBoard.
Proof.
  constructor.
  - apply wfBoard_empty.
  - apply noConflict_empty.
  - intros k Hk. lia.
  - intros k _ Hk. destruct (pos_range k Hk) as [Hr Hc].
    destruct (fill_props emptyBoard [] wfBoard_empty) as [_ H].
    + intros ? ? [].
    + exact (H _ _ Hr Hc).
Qed.

Lemma fillFullBoard_spec g :
  exists b g', fillFullBoard shuffle g = Some (true, b, g') /\
               wfBoard b /\ complete b /\ noConflict b.
Proof.
  unfold fillFullBoard.
  destruct (backtrack_spec depthBound 0 emptyBoard g FillInv_empty)
    as (ok & b & g' & Hb & Ht & Hf).
  - lia.
  - unfold depthBound. lia.
  - destruct ok.
    + exists b, g'. split; [exact Hb|]. exact (Ht eq_refl).
    + exfalso. destruct (Hf eq_refl) as [_ Hno].
      exact (Hno sampleSolution sampleSolution_ok).
Qed.

End FillProofs.

(** X13: For every generator state [fillFullBoard] returns true and leaves a
    complete solved Board: every row, column and 3x3 block holds each of
    the digits 1..9 exactly once. *)
Theorem fillFullBoard_fills
    (Rng : Type) (shuffle : forall A : Type, list A -> Rng -> list A * Rng)
    (shuffle_perm : forall (A : Type) (l : list A) (g : Rng),
        Permutation (fst (shuffle A l g)) l)
    (g : Rng) :
  exists b g', fillFullBoard shuffle g = Some (true, b, g') /\
               solvedBoard b /\ complete b.
Proof.
  destruct (fillFullBoard_spec Rng shuffle shuffle_perm g)
    as (b & g' & H & Hw & Hc & Hn).
  exists b, g'. split; [exact H|]. split; [|exact Hc].
  apply solved_of_complete; assumption.
Qed.

Lemma fillFullBoard_fills_witness :
  exists b g', fillFullBoard idShuffle tt = Some (true, b, g') /\
               solvedBoard b /\ complete b.
Proof.
  apply (fillFullBoard_fills unit idShuffle).
  intros A l g. simpl. apply Permutation_refl.
Defined.
